(** * cookies-extra: Cookie and CookieMap

    A shallow embedding of [src/cookie.ts] (class [Cookie]) and
    [src/cookie-map.ts] (class [CookieMap]) together with the ECMAScript
    built-ins they call, and the properties of the specification stated
    and settled against that embedding.

    Conventions.
    - A JavaScript string is the list of its UTF-16 code units ([list N]).
    - A JavaScript number is [NaN] or an integer [Num z]; the code only
      ever produces integers ([parseInt], [Date.parse], literals), and the
      embedding is exact for integers a double represents exactly.
    - A call that may throw returns a [result]; methods of [CookieMap],
      which mutate the receiver, run in the state monad [M] over a store
      of objects and arrays, so that aliasing is visible. *)

From Stdlib Require Import ZArith NArith List String Ascii Lia DecimalString DecimalPos.
From stdpp Require Import base numbers option list gmap.

Local Open Scope N_scope.

(** ** Strings as sequences of UTF-16 code units *)

Abbreviation jsstring := (list N).

(** A string literal of the source: every character of an ASCII literal is
    one code unit. *)
Definition str (s : string) : jsstring :=
  map N_of_ascii (list_ascii_of_string s).
Arguments str s%_string : simpl never.

Module JS.

(** [WhiteSpace] and [LineTerminator] code points of ECMAScript, the set
    that [String.prototype.trim] and [parseInt] strip. *)
Definition isWhiteSpace (c : N) : bool :=
  ((9 <=? c) && (c <=? 13)) || (c =? 32) || (c =? 160) || (c =? 0x1680)
  || ((0x2000 <=? c) && (c <=? 0x200A)) || (c =? 0x2028) || (c =? 0x2029)
  || (c =? 0x202F) || (c =? 0x205F) || (c =? 0x3000) || (c =? 0xFEFF).

Fixpoint trimStart (s : jsstring) : jsstring :=
  match s with
  | c :: r => if isWhiteSpace c then trimStart r else s
  | [] => []
  end.

Definition trimEnd (s : jsstring) : jsstring := rev (trimStart (rev s)).

(** [s.trim()] *)
Definition trim (s : jsstring) : jsstring := trimEnd (trimStart s).

(** [s.indexOf(c)] for a one-character search string: the first position
    of [c], or [-1]. *)
Fixpoint indexOfFrom (c : N) (s : jsstring) (i : Z) : Z :=
  match s with
  | [] => (-1)%Z
  | x :: r => if x =? c then i else indexOfFrom c r (i + 1)%Z
  end.

Definition indexOf (c : N) (s : jsstring) : Z := indexOfFrom c s 0.

(** [s.includes(c)] *)
Definition includes (c : N) (s : jsstring) : bool :=
  negb (indexOf c s =? -1)%Z.

(** [s.startsWith(c)] *)
Definition startsWith (c : N) (s : jsstring) : bool :=
  match s with
  | x :: _ => x =? c
  | [] => false
  end.

(** Arguments of [substring] are clamped to [0 .. length]. *)
Definition clampIndex (s : jsstring) (i : Z) : nat :=
  Z.to_nat (Z.min (Z.max i 0) (Z.of_nat (length s))).

(** [s.substring(a, b)]: the arguments are swapped when [a > b]. *)
Definition substring (s : jsstring) (a b : Z) : jsstring :=
  let a' := clampIndex s a in
  let b' := clampIndex s b in
  take (Nat.max a' b' - Nat.min a' b') (drop (Nat.min a' b') s).

(** [s.substring(a)] *)
Definition substringFrom (s : jsstring) (a : Z) : jsstring :=
  drop (clampIndex s a) s.

(** [s.split(sep)] for a one-character separator: [n] separators give
    [n + 1] pieces, the empty string gives one empty piece. *)
Fixpoint split (sep : N) (s : jsstring) : list jsstring :=
  match s with
  | [] => [[]]
  | c :: r =>
      if c =? sep then [] :: split sep r
      else match split sep r with
           | p :: ps => (c :: p) :: ps
           | [] => [[c]]
           end
  end.

(** [parts.join(sep)] *)
Fixpoint join (sep : jsstring) (parts : list jsstring) : jsstring :=
  match parts with
  | [] => []
  | [p] => p
  | p :: ps => p ++ sep ++ join sep ps
  end.

Definition isAscii (c : N) : bool := c <? 128.

Definition asciiLower (c : N) : N :=
  if (65 <=? c) && (c <=? 90) then c + 32 else c.

(** ** Numbers *)

Inductive number : Type :=
| NaN
| Num (z : Z).

Definition isNaN (x : number) : bool :=
  match x with NaN => true | Num _ => false end.

(** Truthiness of a number: [0] and [NaN] are falsy. *)
Definition truthyNum (x : number) : bool :=
  match x with
  | NaN => false
  | Num z => negb (z =? 0)%Z
  end.

(** Truthiness of a string: the empty string is falsy. *)
Definition truthyStr (s : jsstring) : bool :=
  match s with [] => false | _ :: _ => true end.

(** [x === y] on numbers: [NaN] is not equal to itself. *)
Definition strictEqNum (x y : number) : bool :=
  match x, y with
  | Num a, Num b => (a =? b)%Z
  | _, _ => false
  end.

(** [x >= y] on numbers: false when either is [NaN]. *)
Definition geNum (x y : number) : bool :=
  match x, y with
  | Num a, Num b => (b <=? a)%Z
  | _, _ => false
  end.

(** The string of a number in a template literal, for [NaN] and for the
    safe integers (at most [2^53] in absolute value), which are printed
    with all their digits; larger numbers, which an engine prints with
    their shortest digits or an exponent, are outside what is stated
    with it. *)
Definition numberToString (x : number) : jsstring :=
  match x with
  | NaN => str "NaN"
  | Num z => str (NilZero.string_of_int (Z.to_int z))
  end.

Definition isDigit (c : N) : bool := (48 <=? c) && (c <=? 57).

(** The longest prefix of decimal digits, as an integer: [None] when the
    prefix is empty. *)
Fixpoint digitsPrefix (s : jsstring) (acc : option Z) : option Z :=
  match s with
  | c :: r =>
      if isDigit c
      then digitsPrefix r (Some (10 * default 0%Z acc + Z.of_N (c - 48))%Z)
      else acc
  | [] => acc
  end.

(** [parseInt(s, 10)]: leading white space is skipped, one sign is
    accepted, the digits stop at the first other character, and no digit
    at all gives [NaN].  The result is the exact integer, which is the
    result of [parseInt] within the safe integers. *)
Definition parseInt10 (s : jsstring) : number :=
  let s1 := trimStart s in
  let '(sign, s2) :=
    match s1 with
    | 45 :: r => ((-1)%Z, r)
    | 43 :: r => (1%Z, r)
    | _ => (1%Z, s1)
    end in
  match digitsPrefix s2 None with
  | Some n => Num (sign * n)
  | None => NaN
  end.

(** ** URI component coding *)

Definition isAlpha (c : N) : bool :=
  ((65 <=? c) && (c <=? 90)) || ((97 <=? c) && (c <=? 122)).

(** [uriUnreserved]: letters, digits and [- _ . ! ~ * ' ( )]. *)
Definition isUnreserved (c : N) : bool :=
  isAlpha c || isDigit c
  || (c =? 45) || (c =? 95) || (c =? 46) || (c =? 33) || (c =? 126)
  || (c =? 42) || (c =? 39) || (c =? 40) || (c =? 41).

Definition hexDigit (n : N) : N := if n <? 10 then 48 + n else 55 + n.

(** One octet as [%XX]: its high and its low four bits. *)
Definition pct (b : N) : jsstring :=
  [37; hexDigit ((b / 16) mod 16); hexDigit (b mod 16)].

Definition utf8 (cp : N) : list N :=
  if cp <? 0x80 then [cp]
  else if cp <? 0x800 then [0xC0 + cp / 64; 0x80 + cp mod 64]
  else if cp <? 0x10000
    then [0xE0 + cp / 4096; 0x80 + (cp / 64) mod 64; 0x80 + cp mod 64]
  else [0xF0 + cp / 262144; 0x80 + (cp / 4096) mod 64;
        0x80 + (cp / 64) mod 64; 0x80 + cp mod 64].

Definition isHighSurrogate (c : N) : bool := (0xD800 <=? c) && (c <=? 0xDBFF).
Definition isLowSurrogate (c : N) : bool := (0xDC00 <=? c) && (c <=? 0xDFFF).

Definition pctAll (bs : list N) : jsstring := concat (map pct bs).

(** [encodeURIComponent(s)]; [None] is the [URIError] of a lone
    surrogate. *)
Fixpoint encodeURIComponent (s : jsstring) : option jsstring :=
  match s with
  | [] => Some []
  | c :: r =>
      if isUnreserved c then cons c <$> encodeURIComponent r
      else if isLowSurrogate c then None
      else if isHighSurrogate c then
        match r with
        | c2 :: r2 =>
            if isLowSurrogate c2
            then app (pctAll (utf8 ((c - 0xD800) * 0x400 + (c2 - 0xDC00) + 0x10000)))
                   <$> encodeURIComponent r2
            else None
        | [] => None
        end
      else app (pctAll (utf8 c)) <$> encodeURIComponent r
  end.

Definition hexValue (c : N) : option N :=
  if isDigit c then Some (c - 48)
  else if (65 <=? c) && (c <=? 70) then Some (c - 55)
  else if (97 <=? c) && (c <=? 102) then Some (c - 87)
  else None.

(** A code unit of the input, or the octet of an escape [%XX]. *)
Inductive uriToken : Type :=
| Lit (c : N)
| Octet (b : N).

(** Every [%] must be followed by two hexadecimal digits. *)
Fixpoint uriTokens (s : jsstring) : option (list uriToken) :=
  match s with
  | [] => Some []
  | c :: r =>
      if c =? 37 then
        match r with
        | h :: l :: r2 =>
            match hexValue h, hexValue l with
            | Some a, Some b => cons (Octet (16 * a + b)) <$> uriTokens r2
            | _, _ => None
            end
        | _ => None
        end
      else cons (Lit c) <$> uriTokens r
  end.

Definition isContinuation (b : N) : bool := (0x80 <=? b) && (b <=? 0xBF).

(** The UTF-16 code units of a code point. *)
Definition utf16 (cp : N) : jsstring :=
  if cp <? 0x10000 then [cp]
  else [0xD800 + (cp - 0x10000) / 0x400; 0xDC00 + (cp - 0x10000) mod 0x400].

(** A decoded code point must be the shortest encoding of a scalar
    value. *)
Definition validCodePoint (lo cp : N) : bool :=
  (lo <=? cp) && (cp <=? 0x10FFFF)
  && negb ((0xD800 <=? cp) && (cp <=? 0xDFFF)).

Fixpoint decodeTokens (ts : list uriToken) : option jsstring :=
  match ts with
  | [] => Some []
  | Lit c :: r => cons c <$> decodeTokens r
  | Octet b :: r =>
      if b <? 0x80 then cons b <$> decodeTokens r
      else if (0xC0 <=? b) && (b <=? 0xDF) then
        match r with
        | Octet b2 :: r2 =>
            let cp := (b - 0xC0) * 64 + (b2 - 0x80) in
            if isContinuation b2 && validCodePoint 0x80 cp
            then app (utf16 cp) <$> decodeTokens r2
            else None
        | _ => None
        end
      else if (0xE0 <=? b) && (b <=? 0xEF) then
        match r with
        | Octet b2 :: Octet b3 :: r3 =>
            let cp := (b - 0xE0) * 4096 + (b2 - 0x80) * 64 + (b3 - 0x80) in
            if isContinuation b2 && isContinuation b3 && validCodePoint 0x800 cp
            then app (utf16 cp) <$> decodeTokens r3
            else None
        | _ => None
        end
      else if (0xF0 <=? b) && (b <=? 0xF7) then
        match r with
        | Octet b2 :: Octet b3 :: Octet b4 :: r4 =>
            let cp := (b - 0xF0) * 262144 + (b2 - 0x80) * 4096
                      + (b3 - 0x80) * 64 + (b4 - 0x80) in
            if isContinuation b2 && isContinuation b3 && isContinuation b4
               && validCodePoint 0x10000 cp
            then app (utf16 cp) <$> decodeTokens r4
            else None
        | _ => None
        end
      else None
  end.

(** [decodeURIComponent(s)]; [None] is the [URIError] of a malformed
    escape or of octets that are not UTF-8. *)
Definition decodeURIComponent (s : jsstring) : option jsstring :=
  uriTokens s ≫= decodeTokens.

(** [x < y] and [x > y] on numbers: false when either is [NaN]. *)
Definition ltNum (x y : number) : bool :=
  match x, y with
  | Num a, Num b => (a <? b)%Z
  | _, _ => false
  end.

Definition gtNum (x y : number) : bool := ltNum y x.

End JS.


Import JS.

(** ** The engine

    [Date.parse], [Date.prototype.toUTCString] and the Unicode case tables
    belong to the JavaScript engine, not to this repository: the embedding
    takes them as an interface.  [toLowerCase] is fixed on ASCII strings
    (the only ones the attribute names and the validators accept) and asks
    the engine for any string with a code unit outside ASCII. *)

Class Engine : Type := {
  (** [Date.parse(s)]: milliseconds since the epoch, or [NaN] *)
  Date_parse : jsstring -> number;
  (** [new Date(t).toUTCString()] *)
  Date_toUTCString : Z -> jsstring;
  (** [s.toLowerCase()] for a string with a non-ASCII code unit *)
  unicodeLower : jsstring -> jsstring;
}.

Definition toLowerCase `{Engine} (s : jsstring) : jsstring :=
  if forallb isAscii s then map asciiLower s else unicodeLower s.

(** String equality [a === b]. *)
Definition strEq (a b : jsstring) : bool := bool_decide (a = b).

(** *** A concrete engine, for evaluating the code on concrete inputs

    It reads and writes the IMF-fixdate form of an HTTP date
    ([Wed, 09 Jun 2021 10:18:14 GMT]), the form [toUTCString] produces and
    every engine's [Date.parse] accepts. *)
Module HttpDate.
Local Open Scope Z_scope.

Definition monthNames : list jsstring :=
  map str ["Jan"; "Feb"; "Mar"; "Apr"; "May"; "Jun";
           "Jul"; "Aug"; "Sep"; "Oct"; "Nov"; "Dec"]%string.

Definition dayNames : list jsstring :=
  map str ["Sun"; "Mon"; "Tue"; "Wed"; "Thu"; "Fri"; "Sat"]%string.

(** Days from 1970-01-01 to the civil date [y]-[m]-[d]. *)
Definition daysFromCivil (y m d : Z) : Z :=
  let y' := if m <=? 2 then y - 1 else y in
  let era := y' / 400 in
  let yoe := y' - era * 400 in
  let doy := (153 * (if 2 <? m then m - 3 else m + 9) + 2) / 5 + d - 1 in
  let doe := yoe * 365 + yoe / 4 - yoe / 100 + doy in
  era * 146097 + doe - 719468.

Definition civilFromDays (z : Z) : Z * Z * Z :=
  let z := z + 719468 in
  let era := z / 146097 in
  let doe := z - era * 146097 in
  let yoe := (doe - doe / 1460 + doe / 36524 - doe / 146096) / 365 in
  let doy := doe - (365 * yoe + yoe / 4 - yoe / 100) in
  let mp := (5 * doy + 2) / 153 in
  let d := doy - (153 * mp + 2) / 5 + 1 in
  let m := if mp <? 10 then mp + 3 else mp - 9 in
  (yoe + era * 400 + (if m <=? 2 then 1 else 0), m, d).

(** A string of decimal digits only, as a number. *)
Definition allDigits (s : jsstring) : option Z :=
  if forallb isDigit s then digitsPrefix s None else None.

Fixpoint indexIn (x : jsstring) (l : list jsstring) (i : Z) : option Z :=
  match l with
  | [] => None
  | y :: r => if strEq x y then Some i else indexIn x r (i + 1)
  end.

Definition parse (s : jsstring) : number :=
  match split 32 s with
  | [wd; dd; mon; yyyy; hms; gmt] =>
      match indexIn wd (map (fun n => n ++ str ",") dayNames) 0,
            allDigits dd, indexIn mon monthNames 1, allDigits yyyy,
            split 58 hms with
      | Some _, Some d, Some m, Some y, [hh; mm; ss] =>
          match allDigits hh, allDigits mm, allDigits ss with
          | Some h, Some mi, Some sec =>
              if strEq gmt (str "GMT") && (1 <=? d) && (d <=? 31)
                 && (h <? 24) && (mi <? 60) && (sec <? 60)
              then Num ((((daysFromCivil y m d * 24 + h) * 60 + mi) * 60 + sec) * 1000)
              else NaN
          | _, _, _ => NaN
          end
      | _, _, _, _, _ => NaN
      end
  | _ => NaN
  end.

Definition pad (width : nat) (z : Z) : jsstring :=
  let ds := numberToString (Num z) in
  replicate (width - length ds) 48%N ++ ds.

Definition toUTCString (t : Z) : jsstring :=
  let secs := t / 1000 in
  let days := secs / 86400 in
  let rem := secs mod 86400 in
  let '(y, m, d) := civilFromDays days in
  nth (Z.to_nat ((days + 4) mod 7)) dayNames [] ++ str ", "
  ++ pad 2 d ++ str " " ++ nth (Z.to_nat (m - 1)) monthNames [] ++ str " "
  ++ pad 4 y ++ str " " ++ pad 2 (rem / 3600) ++ str ":"
  ++ pad 2 (rem mod 3600 / 60) ++ str ":" ++ pad 2 (rem mod 60) ++ str " GMT".
End HttpDate.

(** The concrete engine leaves strings outside ASCII as they are. *)
#[export] Instance httpEngine : Engine := {|
  Date_parse := HttpDate.parse;
  Date_toUTCString := HttpDate.toUTCString;
  unicodeLower := fun s => s;
|}.

(** ** Exceptions *)

Inductive exn : Type :=
| TypeError (msg : string)
| URIError
| Error (msg : string).

Inductive result (A : Type) : Type :=
| Ok (a : A)
| Throw (e : exn).
Arguments Ok {A} a.
Arguments Throw {A} e.

Definition isOk {A} (r : result A) : bool :=
  match r with Ok _ => true | Throw _ => false end.

(** ** cookie.ts *)

Inductive CookieSameSite : Type :=
| Strict
| Lax
| NoneSite.

(** The string value of the enum member. *)
Definition sameSiteString (s : CookieSameSite) : jsstring :=
  match s with
  | Strict => str "Strict"
  | Lax => str "Lax"
  | NoneSite => str "None"
  end.

(** [interface CookieOptions]: an optional field is [None] when it is
    absent or [undefined]. *)
Module CookieOptions.
Record t : Type := mk {
  name : jsstring;
  value : jsstring;
  domain : option jsstring;
  path : option jsstring;
  expires : option number;
  secure : option bool;
  sameSite : option CookieSameSite;
  httpOnly : option bool;
  maxAge : option number;
  partitioned : option bool;
}.

(** [{ name, value }] *)
Definition ofNameValue (n v : jsstring) : t :=
  mk n v None None None None None None None None.
End CookieOptions.

(** [interface CookieStoreDeleteOptions] *)
Module CookieStoreDeleteOptions.
Record t : Type := mk {
  name : jsstring;
  domain : option jsstring;
  path : option jsstring;
}.
End CookieStoreDeleteOptions.

Module Cookie.

Record t : Type := mk {
  name : jsstring;
  value : jsstring;
  domain : jsstring;
  path : jsstring;
  expires : number;
  secure : bool;
  sameSite : CookieSameSite;
  httpOnly : bool;
  maxAge : number;
  partitioned : bool;
}.

Definition EMPTY_EXPIRES_VALUE : number := Num (-1).

Definition isValidCharacterInCookieName (code : N) : bool :=
  ((0x21 <=? code) && (code <=? 0x3a))
  || (code =? 0x3c)
  || ((0x3e <=? code) && (code <=? 0x7e)).

Definition isValidCookieName (name : jsstring) : bool :=
  if (length name =? 0)%nat then false
  else forallb isValidCharacterInCookieName name.

Definition isValidCharacterInCookiePath (code : N) : bool :=
  ((0x20 <=? code) && (code <=? 0x3a)) || ((0x3d <=? code) && (code <=? 0x7e)).

Definition isValidCookiePath (path : jsstring) : bool :=
  forallb isValidCharacterInCookiePath path.

Definition isValidCharacterInCookieDomain (code : N) : bool :=
  ((97 <=? code) && (code <=? 122))
  || ((48 <=? code) && (code <=? 57))
  || (code =? 46)
  || (code =? 45).

Definition isValidCookieDomain (domain : jsstring) : bool :=
  forallb isValidCharacterInCookieDomain domain.

(** [a || b] on the optional fields of the options. *)
Definition orStr (a : option jsstring) (b : jsstring) : jsstring :=
  match a with
  | Some s => if truthyStr s then s else b
  | None => b
  end.

Definition orNum (a : option number) (b : number) : number :=
  match a with
  | Some x => if truthyNum x then x else b
  | None => b
  end.

Definition orBool (a : option bool) (b : bool) : bool :=
  match a with
  | Some x => if x then x else b
  | None => b
  end.

(** [options.path && !isValid(options.path)] *)
Definition presentAndNot (a : option jsstring) (valid : jsstring -> bool) : bool :=
  match a with
  | Some s => truthyStr s && negb (valid s)
  | None => false
  end.

(** [new Cookie(options)] *)
Definition new (options : CookieOptions.t) : result t :=
  if negb (isValidCookieName (CookieOptions.name options)) then
    Throw (TypeError "Invalid cookie name: contains invalid characters")
  else if presentAndNot (CookieOptions.path options) isValidCookiePath then
    Throw (TypeError "Invalid cookie path: contains invalid characters")
  else if presentAndNot (CookieOptions.domain options) isValidCookieDomain then
    Throw (TypeError "Invalid cookie domain: contains invalid characters")
  else
    Ok {| name := CookieOptions.name options;
          value := CookieOptions.value options;
          domain := orStr (CookieOptions.domain options) [];
          path := orStr (CookieOptions.path options) (str "/");
          expires := orNum (CookieOptions.expires options) EMPTY_EXPIRES_VALUE;
          secure := orBool (CookieOptions.secure options) false;
          sameSite := default Lax (CookieOptions.sameSite options);
          httpOnly := orBool (CookieOptions.httpOnly options) false;
          maxAge := orNum (CookieOptions.maxAge options) NaN;
          partitioned := orBool (CookieOptions.partitioned options) false |}.

Definition create (options : CookieOptions.t) : result t := new options.

(** The local variables of [parse] that the loop over the attributes
    assigns. *)
Module Locals.
Record t : Type := mk {
  domain : jsstring;
  path : jsstring;
  expires : number;
  secure : bool;
  sameSite : CookieSameSite;
  httpOnly : bool;
  maxAge : number;
  partitioned : bool;
  hasMaxAge : bool;
}.

Definition initial : t :=
  mk [] (str "/") EMPTY_EXPIRES_VALUE false Lax false NaN false false.
End Locals.

Section WithEngine.
Context `{Engine}.

(** The name and the value of one attribute token. *)
Definition attributeNameValue (attribute : jsstring) : jsstring * jsstring :=
  let trimmedAttribute := trim attribute in
  let assignmentPos := indexOf 61 trimmedAttribute in
  if negb (assignmentPos =? -1)%Z then
    (toLowerCase (trim (substring trimmedAttribute 0 assignmentPos)),
     trim (substringFrom trimmedAttribute (assignmentPos + 1)))
  else (toLowerCase trimmedAttribute, []).

(** The body of [for (const attribute of attributes)]. *)
Definition parseAttribute (l : Locals.t) (attribute : jsstring) : Locals.t :=
  let '(attributeName, attributeValue) := attributeNameValue attribute in
  let '(Locals.mk domain path expires secure sameSite httpOnly maxAge
          partitioned hasMaxAge) := l in
  if strEq attributeName (str "domain") then
    if truthyStr attributeValue
    then Locals.mk (toLowerCase attributeValue) path expires secure sameSite
           httpOnly maxAge partitioned hasMaxAge
    else l
  else if strEq attributeName (str "path") then
    if truthyStr attributeValue && startsWith 47 attributeValue
    then Locals.mk domain attributeValue expires secure sameSite httpOnly
           maxAge partitioned hasMaxAge
    else l
  else if strEq attributeName (str "expires") then
    if negb hasMaxAge && truthyStr attributeValue then
      let parsed := Date_parse attributeValue in
      if negb (isNaN parsed)
      then Locals.mk domain path parsed secure sameSite httpOnly maxAge
             partitioned hasMaxAge
      else l
    else l
  else if strEq attributeName (str "max-age") then
    let parsedMaxAge := parseInt10 attributeValue in
    if negb (isNaN parsedMaxAge)
    then Locals.mk domain path expires secure sameSite httpOnly
           parsedMaxAge partitioned true
    else l
  else if strEq attributeName (str "secure") then
    Locals.mk domain path expires true sameSite httpOnly maxAge
      partitioned hasMaxAge
  else if strEq attributeName (str "httponly") then
    Locals.mk domain path expires secure sameSite true maxAge
      partitioned hasMaxAge
  else if strEq attributeName (str "partitioned") then
    Locals.mk domain path expires secure sameSite httpOnly maxAge
      true hasMaxAge
  else if strEq attributeName (str "samesite") then
    let lowerValue := toLowerCase attributeValue in
    if strEq lowerValue (str "strict") then
      Locals.mk domain path expires secure Strict httpOnly maxAge
        partitioned hasMaxAge
    else if strEq lowerValue (str "lax") then
      Locals.mk domain path expires secure Lax httpOnly maxAge
        partitioned hasMaxAge
    else if strEq lowerValue (str "none") then
      Locals.mk domain path expires secure NoneSite httpOnly maxAge
        partitioned hasMaxAge
    else l
  else l.

(** The loop over [attributesString.split(";")]. *)
Definition parseAttributes (attributes : list jsstring) : Locals.t :=
  fold_left parseAttribute attributes Locals.initial.

(** The portion of the input before the first [;]. *)
Definition cookiePairOf (cookieString : jsstring) : jsstring :=
  let firstSemicolonPos := indexOf 59 cookieString in
  if (firstSemicolonPos =? -1)%Z then cookieString
  else substring cookieString 0 firstSemicolonPos.

(** The attribute tokens of the input: none without a [;]. *)
Definition attributesOf (cookieString : jsstring) : list jsstring :=
  let firstSemicolonPos := indexOf 59 cookieString in
  if negb (firstSemicolonPos =? -1)%Z
  then split 59 (substringFrom cookieString (firstSemicolonPos + 1))
  else [].

(** The object literal passed to [Cookie.create] at the end of
    [parse]. *)
Definition optionsOf (name value : jsstring) (l : Locals.t) : CookieOptions.t :=
  {| CookieOptions.name := name;
     CookieOptions.value := value;
     CookieOptions.domain := Some (Locals.domain l);
     CookieOptions.path := Some (Locals.path l);
     CookieOptions.expires := Some (Locals.expires l);
     CookieOptions.secure := Some (Locals.secure l);
     CookieOptions.sameSite := Some (Locals.sameSite l);
     CookieOptions.httpOnly := Some (Locals.httpOnly l);
     CookieOptions.maxAge := Some (Locals.maxAge l);
     CookieOptions.partitioned := Some (Locals.partitioned l) |}.

(** [Cookie.parse(cookieString)] *)
Definition parse (cookieString : jsstring) : result t :=
  if (length cookieString <? 2)%nat then
    Throw (TypeError "Invalid cookie string: empty")
  else
    let cookiePair := cookiePairOf cookieString in
    let firstEqualsPos := indexOf 61 cookiePair in
    if (firstEqualsPos =? -1)%Z then
      Throw (TypeError "Invalid cookie string: no '=' found")
    else
      let name := trim (substring cookiePair 0 firstEqualsPos) in
      if (length name =? 0)%nat then
        Throw (TypeError "Invalid cookie string: name cannot be empty")
      else
        let value := trim (substringFrom cookiePair (firstEqualsPos + 1)) in
        create (optionsOf name value (parseAttributes (attributesOf cookieString))).

(** The name that [parse] extracts: the cookie-pair before its first
    [=], trimmed. *)
Definition nameOf (cookieString : jsstring) : jsstring :=
  let cookiePair := cookiePairOf cookieString in
  trim (substring cookiePair 0 (indexOf 61 cookiePair)).

(** [cookie.hasExpiry()] *)
Definition hasExpiry (this : t) : bool :=
  negb (strictEqNum (expires this) EMPTY_EXPIRES_VALUE)
  && geNum (expires this) (Num 1).

(** The parts that [toString] pushes for the expiry and for the
    maximal age. *)
Definition expiresPart (this : t) : list jsstring :=
  if hasExpiry this then
    match expires this with
    | Num e => [str "Expires=" ++ Date_toUTCString e]
    | NaN => []
    end
  else [].

Definition maxAgePart (this : t) : list jsstring :=
  if negb (isNaN (maxAge this))
  then [str "Max-Age=" ++ numberToString (maxAge this)]
  else [].

(** The array [parts] of [toString], [None] when [encodeURIComponent]
    throws. *)
Definition toStringParts (this : t) : option (list jsstring) :=
  encoded ← encodeURIComponent (value this);
  Some ([name this ++ str "=" ++ encoded]
        ++ (if truthyStr (domain this) then [str "Domain=" ++ domain this] else [])
        ++ (if truthyStr (path this) then [str "Path=" ++ path this] else [])
        ++ expiresPart this
        ++ maxAgePart this
        ++ (if secure this then [str "Secure"] else [])
        ++ (if httpOnly this then [str "HttpOnly"] else [])
        ++ (if partitioned this then [str "Partitioned"] else [])
        ++ [str "SameSite=" ++ sameSiteString (sameSite this)]).

(** [cookie.toString()] *)
Definition toString (this : t) : result jsstring :=
  match toStringParts this with
  | Some parts => Ok (join (str "; ") parts)
  | None => Throw URIError
  end.

End WithEngine.
(** [Cookie.serialize(cookies)]: [map] encodes the values in order, and
    the first value that [encodeURIComponent] refuses throws. *)
Definition serialize (cookies : list t) : result jsstring :=
  if (length cookies =? 0)%nat then Ok []
  else
    match mapM (fun cookie =>
                  app (name cookie ++ str "=") <$> encodeURIComponent (value cookie))
            cookies with
    | Some parts => Ok (join (str "; ") parts)
    | None => Throw URIError
    end.

(** [cookie.isExpired()], with the value of [Date.now()] as an
    argument. *)
Definition isExpired (this : t) (currentTime : Z) : bool :=
  if strictEqNum (expires this) EMPTY_EXPIRES_VALUE || ltNum (expires this) (Num 1)
  then false
  else gtNum (Num currentTime) (expires this).

End Cookie.

(** ** cookie-map.ts *)

Module KeyValuePair.
Record t : Type := mk {
  key : jsstring;
  value : jsstring;
}.
End KeyValuePair.

(** [type CookieMapInput]: a header string, the entries of a record (as
    [Object.entries] lists them) or an array of arrays of strings. *)
Inductive CookieMapInput : Type :=
| InputString (s : jsstring)
| InputRecord (entries : list (jsstring * jsstring))
| InputArray (pairs : list (list jsstring)).

(** *** The store

    A [CookieMap] instance is an object with two fields, each a reference
    to an array; [push] mutates an array in place, an assignment to a field
    mutates the object.  Objects and arrays live at addresses of a store.
    The elements of the arrays are never written after their creation
    ([Cookie] has read-only fields, a [KeyValuePair] never leaves the
    class), so an element is a value.  An address that was never allocated
    reads as an empty array; no method produces one. *)
Module Store.
(** The fields of a [CookieMap] instance. *)
Record fields : Type := mkFields {
  originalCookies : nat;
  modifiedCookies : nat;
}.

Record t : Type := mk {
  objects : gmap nat fields;
  pairArrays : gmap nat (list KeyValuePair.t);
  cookieArrays : gmap nat (list Cookie.t);
  next : nat;
}.

Definition empty : t := mk ∅ ∅ ∅ 0.
End Store.

(** Computations on the store that may throw: the store survives a
    throw. *)
Definition M (A : Type) : Type := Store.t -> Store.t * result A.

#[export] Instance M_ret : MRet M := fun A a σ => (σ, Ok a).
#[export] Instance M_bind : MBind M := fun A B f m σ =>
  match m σ with
  | (σ', Ok a) => f a σ'
  | (σ', Throw e) => (σ', Throw e)
  end.

Definition throw {A} (e : exn) : M A := fun σ => (σ, Throw e).

(** [for (const x of xs) body(x)] *)
Fixpoint forOf {A} (xs : list A) (body : A -> M unit) : M unit :=
  match xs with
  | [] => mret tt
  | x :: r => body x;; forOf r body
  end.

Module Heap.
Import Store.

Definition allocPairs (a : list KeyValuePair.t) : M nat := fun σ =>
  (mk (objects σ) (<[next σ := a]> (pairArrays σ)) (cookieArrays σ) (S (next σ)),
   Ok (next σ)).

Definition allocCookies (a : list Cookie.t) : M nat := fun σ =>
  (mk (objects σ) (pairArrays σ) (<[next σ := a]> (cookieArrays σ)) (S (next σ)),
   Ok (next σ)).

Definition allocObject (f : fields) : M nat := fun σ =>
  (mk (<[next σ := f]> (objects σ)) (pairArrays σ) (cookieArrays σ) (S (next σ)),
   Ok (next σ)).

Definition fieldsOf (σ : t) (this : nat) : fields :=
  default (mkFields 0 0) (objects σ !! this).

Definition pairsAt (σ : t) (a : nat) : list KeyValuePair.t :=
  default [] (pairArrays σ !! a).

Definition cookiesAt (σ : t) (a : nat) : list Cookie.t :=
  default [] (cookieArrays σ !! a).

(** [this.originalCookies] and [this.modifiedCookies], read through to
    the array. *)
Definition readOriginal (this : nat) : M (list KeyValuePair.t) := fun σ =>
  (σ, Ok (pairsAt σ (originalCookies (fieldsOf σ this)))).

Definition readModified (this : nat) : M (list Cookie.t) := fun σ =>
  (σ, Ok (cookiesAt σ (modifiedCookies (fieldsOf σ this)))).

(** [this.originalCookies = a] and [this.modifiedCookies = a] *)
Definition setOriginal (this a : nat) : M unit := fun σ =>
  (mk (<[this := mkFields a (modifiedCookies (fieldsOf σ this))]> (objects σ))
      (pairArrays σ) (cookieArrays σ) (next σ),
   Ok tt).

Definition setModified (this a : nat) : M unit := fun σ =>
  (mk (<[this := mkFields (originalCookies (fieldsOf σ this)) a]> (objects σ))
      (pairArrays σ) (cookieArrays σ) (next σ),
   Ok tt).

(** [this.originalCookies.push(x)] and [this.modifiedCookies.push(x)]:
    the array the field refers to grows in place. *)
Definition pushOriginal (this : nat) (x : KeyValuePair.t) : M unit := fun σ =>
  let a := originalCookies (fieldsOf σ this) in
  (mk (objects σ) (<[a := pairsAt σ a ++ [x]]> (pairArrays σ)) (cookieArrays σ)
      (next σ),
   Ok tt).

Definition pushModified (this : nat) (x : Cookie.t) : M unit := fun σ =>
  let a := modifiedCookies (fieldsOf σ this) in
  (mk (objects σ) (pairArrays σ) (<[a := cookiesAt σ a ++ [x]]> (cookieArrays σ))
      (next σ),
   Ok tt).
End Heap.

(** [arr.findIndex(p)]: the first index whose element satisfies [p], or
    [-1]. *)
Fixpoint findIndexFrom {A} (p : A -> bool) (l : list A) (i : Z) : Z :=
  match l with
  | [] => (-1)%Z
  | x :: r => if p x then i else findIndexFrom p r (i + 1)%Z
  end.

Definition findIndex {A} (p : A -> bool) (l : list A) : Z := findIndexFrom p l 0.

(** The names every object inherits from [Object.prototype]: [k in result]
    holds for them on a fresh object literal. *)
Definition objectPrototypeKeys : list jsstring :=
  map str ["constructor"; "__defineGetter__"; "__defineSetter__";
           "hasOwnProperty"; "__lookupGetter__"; "__lookupSetter__";
           "isPrototypeOf"; "propertyIsEnumerable"; "toString"; "valueOf";
           "__proto__"; "toLocaleString"]%string.

(** [k in result] for a [result] that started as [{}]. *)
Definition inObject (k : jsstring) (result : gmap jsstring jsstring) : bool :=
  bool_decide (is_Some (result !! k)) || bool_decide (k ∈ objectPrototypeKeys).

(** [result[k] = v] for a string [v]: the name [__proto__] reaches the
    setter of the prototype, which ignores a string and creates no own
    property. *)
Definition assignProperty (k v : jsstring) (result : gmap jsstring jsstring)
  : gmap jsstring jsstring :=
  if strEq k (str "__proto__") then result else <[k := v]> result.

Module CookieMap.
Import Heap.

Definition parseFromCookieString (this : nat) (cookieString : jsstring) : M unit :=
  if negb (truthyStr (trim cookieString)) then mret tt
  else
    let pairs := split 59 cookieString in
    let hasPercentEncoded := includes 37 cookieString in
    forOf pairs (fun pair =>
      let equalsPos := indexOf 61 pair in
      if (equalsPos =? -1)%Z then mret tt
      else
        let nameView := trim (substring pair 0 equalsPos) in
        let valueView := trim (substringFrom pair (equalsPos + 1)) in
        if negb (truthyStr nameView) then mret tt
        else
          let '(name, value) :=
            if hasPercentEncoded then
              match decodeURIComponent nameView, decodeURIComponent valueView with
              | Some name, Some value => (name, value)
              | _, _ => (nameView, valueView)
              end
            else (nameView, valueView) in
          pushOriginal this (KeyValuePair.mk name value)).

Definition parseFromArray (this : nat) (pairs : list (list jsstring)) : M unit :=
  forOf pairs (fun pair =>
    match pair with
    | [k; v] => pushOriginal this (KeyValuePair.mk k v)
    | _ => mret tt
    end).

Definition parseFromRecord (this : nat) (entries : list (jsstring * jsstring)) : M unit :=
  forOf entries (fun '(key, value) => pushOriginal this (KeyValuePair.mk key value)).

Definition initialize (this : nat) (input : CookieMapInput) : M unit :=
  match input with
  | InputString s => parseFromCookieString this s
  | InputArray pairs => parseFromArray this pairs
  | InputRecord entries => parseFromRecord this entries
  end.

(** [new CookieMap(input)]: the field initialisers allocate two empty
    arrays. *)
Definition new (input : option CookieMapInput) : M nat :=
  original ← allocPairs [];
  modified ← allocCookies [];
  this ← allocObject (Store.mkFields original modified);
  match input with
  | Some input => initialize this input
  | None => mret tt
  end;;
  mret this.

(** [get(name)]: [None] is [undefined]. *)
Definition get (this : nat) (name : jsstring) : M (option jsstring) :=
  modifiedCookies ← readModified this;
  let modifiedCookieIndex :=
    findIndex (fun cookie => strEq (Cookie.name cookie) name) modifiedCookies in
  if negb (modifiedCookieIndex =? -1)%Z then
    match modifiedCookies !! Z.to_nat modifiedCookieIndex with
    | Some cookie =>
        if negb (truthyStr (Cookie.value cookie)) then mret None
        else mret (Some (Cookie.value cookie))
    | None => throw (TypeError "Cannot read properties of undefined")
    end
  else
    originalCookies ← readOriginal this;
    let originalCookieIndex :=
      findIndex (fun cookie => strEq (KeyValuePair.key cookie) name) originalCookies in
    if negb (originalCookieIndex =? -1)%Z then
      match originalCookies !! Z.to_nat originalCookieIndex with
      | Some cookie => mret (Some (KeyValuePair.value cookie))
      | None => throw (TypeError "Cannot read properties of undefined")
      end
    else mret None.

Definition nonEmptyValue (cookie : Cookie.t) : bool := truthyStr (Cookie.value cookie).

Definition pairOfCookie (cookie : Cookie.t) : KeyValuePair.t :=
  KeyValuePair.mk (Cookie.name cookie) (Cookie.value cookie).

Definition getAll (this : nat) : M (list KeyValuePair.t) :=
  modifiedCookies ← readModified this;
  originalCookies ← readOriginal this;
  mret (map pairOfCookie (List.filter nonEmptyValue modifiedCookies)
        ++ map (fun cookie => KeyValuePair.mk (KeyValuePair.key cookie)
                                (KeyValuePair.value cookie)) originalCookies).

Definition has (this : nat) (name : jsstring) : M bool :=
  v ← get this name;
  mret (bool_decide (v ≠ None)).

Definition removeInternal (this : nat) (name : jsstring) : M unit :=
  originalCookies ← readOriginal this;
  a ← allocPairs (filter (fun cookie => KeyValuePair.key cookie ≠ name) originalCookies);
  setOriginal this a;;
  modifiedCookies ← readModified this;
  b ← allocCookies (filter (fun cookie => Cookie.name cookie ≠ name) modifiedCookies);
  setModified this b.

(** Lift a call of [cookie.ts] that may throw. *)
Definition lift {A} (r : result A) : M A := fun σ => (σ, r).

(** [set(nameOrCookie, value?)] *)
Definition set (this : nat) (nameOrCookie : jsstring + Cookie.t)
    (value : option jsstring) : M unit :=
  match nameOrCookie with
  | inl name =>
      match value with
      | None => throw (Error "Value is required when setting cookie by name")
      | Some value =>
          cookie ← lift (Cookie.create (CookieOptions.ofNameValue name value));
          removeInternal this (Cookie.name cookie);;
          pushModified this cookie
      end
  | inr cookie =>
      removeInternal this (Cookie.name cookie);;
      pushModified this cookie
  end.

(** The options of the cookie that [delete] appends. *)
Definition deleteOptions (name : jsstring) (domain path : option jsstring)
  : CookieOptions.t :=
  {| CookieOptions.name := name;
     CookieOptions.value := [];
     CookieOptions.domain := Some (Cookie.orStr domain []);
     CookieOptions.path := Some (Cookie.orStr path (str "/"));
     CookieOptions.expires := Some (Num 1);
     CookieOptions.secure := Some false;
     CookieOptions.sameSite := Some Lax;
     CookieOptions.httpOnly := Some false;
     CookieOptions.maxAge := Some NaN;
     CookieOptions.partitioned := Some false |}.

(** [delete(nameOrOptions)] *)
Definition delete (this : nat) (nameOrOptions : jsstring + CookieStoreDeleteOptions.t)
  : M bool :=
  let name :=
    match nameOrOptions with
    | inl name => name
    | inr options => CookieStoreDeleteOptions.name options
    end in
  let domain :=
    match nameOrOptions with
    | inl _ => None
    | inr options => CookieStoreDeleteOptions.domain options
    end in
  let path :=
    match nameOrOptions with
    | inl _ => None
    | inr options => CookieStoreDeleteOptions.path options
    end in
  hadCookie ← has this name;
  removeInternal this name;;
  deleteCookie ← lift (Cookie.create (deleteOptions name domain path));
  pushModified this deleteCookie;;
  mret hadCookie.

(** [clone()] *)
Definition clone (this : nat) : M nat :=
  clone ← new None;
  originalCookies ← readOriginal this;
  a ← allocPairs originalCookies;
  setOriginal clone a;;
  modifiedCookies ← readModified this;
  b ← allocCookies modifiedCookies;
  setModified clone b;;
  mret clone.

Definition size (this : nat) : M nat :=
  modifiedCookies ← readModified this;
  originalCookies ← readOriginal this;
  mret (length (List.filter nonEmptyValue modifiedCookies) + length originalCookies)%nat.

Definition toJSON (this : nat) : M (gmap jsstring jsstring) :=
  modifiedCookies ← readModified this;
  originalCookies ← readOriginal this;
  let result :=
    fold_left (fun result cookie =>
                 if nonEmptyValue cookie
                 then assignProperty (Cookie.name cookie) (Cookie.value cookie) result
                 else result)
      modifiedCookies ∅ in
  mret (fold_left (fun result cookie =>
                     if negb (inObject (KeyValuePair.key cookie) result)
                     then assignProperty (KeyValuePair.key cookie)
                            (KeyValuePair.value cookie) result
                     else result)
          originalCookies result).

Definition getAllChanges (this : nat) : M (list Cookie.t) :=
  readModified this.

(** The sequence that [Symbol.iterator] yields when it runs to its end
    with no call in between. *)
Definition iterate (this : nat) : M (list KeyValuePair.t) :=
  modifiedCookies ← readModified this;
  originalCookies ← readOriginal this;
  mret (map pairOfCookie (List.filter nonEmptyValue modifiedCookies)
        ++ map (fun cookie => KeyValuePair.mk (KeyValuePair.key cookie)
                                (KeyValuePair.value cookie)) originalCookies).

Definition entries (this : nat) : M (list (jsstring * jsstring)) :=
  pairs ← iterate this;
  mret (map (fun pair => (KeyValuePair.key pair, KeyValuePair.value pair)) pairs).

Definition keys (this : nat) : M (list jsstring) :=
  pairs ← iterate this;
  mret (map KeyValuePair.key pairs).

Definition values (this : nat) : M (list jsstring) :=
  pairs ← iterate this;
  mret (map KeyValuePair.value pairs).

(** [clear()] *)
Definition clear (this : nat) : M unit :=
  a ← allocPairs [];
  setOriginal this a;;
  b ← allocCookies [];
  setModified this b.

(** [try { body } catch (error) { handler(error) }] *)
Definition tryCatch {A} (body : M A) (handler : exn -> M A) : M A := fun σ =>
  match body σ with
  | (σ', Ok a) => (σ', Ok a)
  | (σ', Throw error) => handler error σ'
  end.

(** [CookieMap.create(input, throwOnInvalidCookieString)] *)
Definition create (input : CookieMapInput) (throwOnInvalidCookieString : bool) : M nat :=
  tryCatch (new (Some input))
    (fun error => if throwOnInvalidCookieString then throw error else new None).

End CookieMap.


(** The characters [encodeURIComponent] can produce: the unreserved ones,
    [%] and upper-case hexadecimal digits. *)
Definition isEncoded (c : N) : bool :=
  isUnreserved c || (c =? 37) || ((65 <=? c) && (c <=? 70)).


(** An attribute token whose name is neither [expires] nor [max-age]. *)
Definition isOtherAttribute `{Engine} (attribute : jsstring) : Prop :=
  fst (Cookie.attributeNameValue attribute) <> str "expires"
  /\ fst (Cookie.attributeNameValue attribute) <> str "max-age".


(** The options with another [maxAge], and with another [expires]. *)
Definition withMaxAge (maxAge : option number) (o : CookieOptions.t) : CookieOptions.t :=
  CookieOptions.mk (CookieOptions.name o) (CookieOptions.value o)
    (CookieOptions.domain o) (CookieOptions.path o) (CookieOptions.expires o)
    (CookieOptions.secure o) (CookieOptions.sameSite o) (CookieOptions.httpOnly o)
    maxAge (CookieOptions.partitioned o).

Definition withExpires (expires : option number) (o : CookieOptions.t) : CookieOptions.t :=
  CookieOptions.mk (CookieOptions.name o) (CookieOptions.value o)
    (CookieOptions.domain o) (CookieOptions.path o) expires
    (CookieOptions.secure o) (CookieOptions.sameSite o) (CookieOptions.httpOnly o)
    (CookieOptions.maxAge o) (CookieOptions.partitioned o).


(** ** The state of a collection, calls and reachable stores *)

(** What a [CookieMap] instance holds: the contents of its two arrays. *)
Module View.
Record t : Type := mk {
  original : list KeyValuePair.t;
  modified : list Cookie.t;
}.

Definition ofFields (σ : Store.t) (f : Store.fields) : t :=
  mk (Heap.pairsAt σ (Store.originalCookies f))
     (Heap.cookiesAt σ (Store.modifiedCookies f)).

(** The instances of a store, each with its contents. *)
Definition ofStore (σ : Store.t) : gmap nat t := ofFields σ <$> Store.objects σ.

(** Every cookie name of the collection, [original] first. *)
Definition names (v : t) : list jsstring :=
  map KeyValuePair.key (original v) ++ map Cookie.name (modified v).
End View.

(** No two instances share an array, and every address in use is below
    the next fresh one. *)
Record wellFormed (σ : Store.t) : Prop := {
  wf_bound : forall o f, Store.objects σ !! o = Some f ->
    (o < Store.next σ /\ Store.originalCookies f < Store.next σ
     /\ Store.modifiedCookies f < Store.next σ)%nat;
  wf_separate : forall o1 o2 f1 f2,
    Store.objects σ !! o1 = Some f1 -> Store.objects σ !! o2 = Some f2 ->
    o1 <> o2 ->
    Store.originalCookies f1 <> Store.originalCookies f2
    /\ Store.modifiedCookies f1 <> Store.modifiedCookies f2;
}.

(** The pairs that the constructor stores for an input. *)
Definition headerPair (hasPercentEncoded : bool) (pair : jsstring)
  : list KeyValuePair.t :=
  let equalsPos := indexOf 61 pair in
  if (equalsPos =? -1)%Z then []
  else
    let nameView := trim (substring pair 0 equalsPos) in
    let valueView := trim (substringFrom pair (equalsPos + 1)) in
    if negb (truthyStr nameView) then []
    else if hasPercentEncoded then
      match decodeURIComponent nameView, decodeURIComponent valueView with
      | Some name, Some value => [KeyValuePair.mk name value]
      | _, _ => [KeyValuePair.mk nameView valueView]
      end
    else [KeyValuePair.mk nameView valueView].

Definition headerPairs (cookieString : jsstring) : list KeyValuePair.t :=
  if negb (truthyStr (trim cookieString)) then []
  else concat (map (headerPair (includes 37 cookieString)) (split 59 cookieString)).

Definition arrayPair (pair : list jsstring) : list KeyValuePair.t :=
  match pair with
  | [k; v] => [KeyValuePair.mk k v]
  | _ => []
  end.

Definition inputPairs (input : option CookieMapInput) : list KeyValuePair.t :=
  match input with
  | None => []
  | Some (InputString s) => headerPairs s
  | Some (InputArray pairs) => concat (map arrayPair pairs)
  | Some (InputRecord entries) =>
      map (fun '(key, value) => KeyValuePair.mk key value) entries
  end.

(** The calls of the public interface that change a store. *)
Inductive mutation : Type :=
| DoSet (nameOrCookie : jsstring + Cookie.t) (value : option jsstring)
| DoDelete (nameOrOptions : jsstring + CookieStoreDeleteOptions.t)
| DoClear.

Inductive call : Type :=
| DoNew (input : option CookieMapInput)
| DoClone (this : nat)
| DoMutate (this : nat) (m : mutation).

(** The store after a mutation of [this]; when the call throws, the store
    is the one at the throw. *)
Definition applyMutation (this : nat) (m : mutation) (σ : Store.t) : Store.t :=
  match m with
  | DoSet nameOrCookie value => fst (CookieMap.set this nameOrCookie value σ)
  | DoDelete nameOrOptions => fst (CookieMap.delete this nameOrOptions σ)
  | DoClear => fst (CookieMap.clear this σ)
  end.

Definition applyMutations (this : nat) (ms : list mutation) (σ : Store.t) : Store.t :=
  fold_left (fun σ m => applyMutation this m σ) ms σ.

Definition applyCall (c : call) (σ : Store.t) : Store.t :=
  match c with
  | DoNew input => fst (CookieMap.new input σ)
  | DoClone this => fst (CookieMap.clone this σ)
  | DoMutate this m => applyMutation this m σ
  end.

(** The receiver of a call is an instance of the store. *)
Definition callable (σ : Store.t) (c : call) : Prop :=
  match c with
  | DoNew _ => True
  | DoClone this | DoMutate this _ => is_Some (Store.objects σ !! this)
  end.

(** The inputs of the constructor calls all satisfy [P]. *)
Definition inputsSatisfy (P : option CookieMapInput -> Prop) (c : call) : Prop :=
  match c with
  | DoNew input => P input
  | _ => True
  end.

(** The stores a program reaches from the empty store through the public
    interface, with constructor inputs in [P]. *)
Inductive reachable (P : option CookieMapInput -> Prop) : Store.t -> Prop :=
| reachable_empty : reachable P Store.empty
| reachable_call σ c :
    reachable P σ -> callable σ c -> inputsSatisfy P c ->
    reachable P (applyCall c σ).

(** The input of a constructor repeats no name. *)
Definition distinctInput (input : option CookieMapInput) : Prop :=
  NoDup (map KeyValuePair.key (inputPairs input)).

(** What the reading methods return for [this], as functions of its
    contents. *)
Module Observe.
Definition get (v : View.t) (name : jsstring) : option jsstring :=
  match List.find (fun cookie => strEq (Cookie.name cookie) name) (View.modified v) with
  | Some cookie =>
      if truthyStr (Cookie.value cookie) then Some (Cookie.value cookie) else None
  | None =>
      KeyValuePair.value
        <$> List.find (fun cookie => strEq (KeyValuePair.key cookie) name)
              (View.original v)
  end.
End Observe.

(** Two instances, each in its store, answer every reading method
    alike. *)
Definition sameObservations (σ1 : Store.t) (o1 : nat) (σ2 : Store.t) (o2 : nat) : Prop :=
  (forall name, snd (CookieMap.get o1 name σ1) = snd (CookieMap.get o2 name σ2))
  /\ (forall name, snd (CookieMap.has o1 name σ1) = snd (CookieMap.has o2 name σ2))
  /\ snd (CookieMap.getAll o1 σ1) = snd (CookieMap.getAll o2 σ2)
  /\ snd (CookieMap.toJSON o1 σ1) = snd (CookieMap.toJSON o2 σ2)
  /\ snd (CookieMap.getAllChanges o1 σ1) = snd (CookieMap.getAllChanges o2 σ2)
  /\ snd (CookieMap.size o1 σ1) = snd (CookieMap.size o2 σ2)
  /\ snd (CookieMap.iterate o1 σ1) = snd (CookieMap.iterate o2 σ2)
  /\ snd (CookieMap.entries o1 σ1) = snd (CookieMap.entries o2 σ2)
  /\ snd (CookieMap.keys o1 σ1) = snd (CookieMap.keys o2 σ2)
  /\ snd (CookieMap.values o1 σ1) = snd (CookieMap.values o2 σ2).


(** The contents of [this] in a store. *)
Definition viewOf (σ : Store.t) (this : nat) : View.t :=
  View.ofFields σ (Heap.fieldsOf σ this).


(** The contents after [removeInternal(name)], and after a [set] or a
    [delete] that appends [cookie]. *)
Definition removeFromView (name : jsstring) (v : View.t) : View.t :=
  View.mk (filter (fun cookie => KeyValuePair.key cookie <> name) (View.original v))
          (filter (fun cookie => Cookie.name cookie <> name) (View.modified v)).

Definition setInView (cookie : Cookie.t) (v : View.t) : View.t :=
  View.mk (View.original (removeFromView (Cookie.name cookie) v))
          (View.modified (removeFromView (Cookie.name cookie) v) ++ [cookie]).

(** No name occurs twice in [modified], nor in both sequences. *)
Definition modifiedUnique (v : View.t) : Prop :=
  NoDup (map Cookie.name (View.modified v))
  /\ (forall pair cookie, pair ∈ View.original v -> cookie ∈ View.modified v ->
        KeyValuePair.key pair <> Cookie.name cookie).

(** No name occurs twice across [original] and [modified]. *)
Definition namesUnique (v : View.t) : Prop := NoDup (View.names v).

(** The name, the domain and the path that [delete] reads from its
    argument. *)
Definition deleteName (nameOrOptions : jsstring + CookieStoreDeleteOptions.t) : jsstring :=
  match nameOrOptions with
  | inl name => name
  | inr options => CookieStoreDeleteOptions.name options
  end.

Definition deleteDomain (nameOrOptions : jsstring + CookieStoreDeleteOptions.t)
  : option jsstring :=
  match nameOrOptions with
  | inl _ => None
  | inr options => CookieStoreDeleteOptions.domain options
  end.

Definition deletePath (nameOrOptions : jsstring + CookieStoreDeleteOptions.t)
  : option jsstring :=
  match nameOrOptions with
  | inl _ => None
  | inr options => CookieStoreDeleteOptions.path options
  end.


(** What one mutation can do to the contents of its receiver. *)
Inductive viewStep (v : View.t) : View.t -> Prop :=
| viewStep_same : viewStep v v
| viewStep_remove (name : jsstring) : viewStep v (removeFromView name v)
| viewStep_set (cookie : Cookie.t) : viewStep v (setInView cookie v)
| viewStep_clear : viewStep v (View.mk [] []).


(** The trimmed text on either side of the first [=] of a segment of a
    header, and whether the constructor keeps the segment. *)
Definition rawName (pair : jsstring) : jsstring :=
  trim (substring pair 0 (indexOf 61 pair)).

Definition rawValue (pair : jsstring) : jsstring :=
  trim (substringFrom pair (indexOf 61 pair + 1)).

Definition keptSegment (pair : jsstring) : bool :=
  negb (indexOf 61 pair =? -1)%Z && truthyStr (rawName pair).


(** ** parsers.ts and index.ts

    A line of [console.warn] is the header and the error it reports; the
    functions that warn return their lines beside their result.  Of a
    [Headers] object the functions read [get("cookie")] (a string or
    [null]) and [getSetCookie?.()] (a list or [undefined]): these are their
    arguments here. *)
Module Parsers.

Definition warning : Type := jsstring * exn.

Definition parseCookieHeader (cookieHeader : jsstring) : M (gmap jsstring jsstring) :=
  cookieMap ← CookieMap.new (Some (InputString cookieHeader));
  CookieMap.toJSON cookieMap.

(** The loop of [parseSetCookieHeaders], from the cookies and the warnings
    so far. *)
Definition parseSetCookieHeadersFrom `{Engine} (setCookieHeaders : list jsstring)
    (cookies : list Cookie.t) (console : list warning)
  : list Cookie.t * list warning :=
  fold_left (fun '(cookies, console) header =>
               match Cookie.parse header with
               | Ok cookie => (cookies ++ [cookie], console)
               | Throw error => (cookies, console ++ [(header, error)])
               end)
    setCookieHeaders (cookies, console).

Definition parseSetCookieHeaders `{Engine} (setCookieHeaders : list jsstring)
  : list Cookie.t * list warning :=
  parseSetCookieHeadersFrom setCookieHeaders [] [].

Definition parseSetCookieHeader `{Engine} (setCookieHeader : jsstring) : result Cookie.t :=
  Cookie.parse setCookieHeader.

Definition cookiesToRecord (cookies : list Cookie.t) : gmap jsstring jsstring :=
  fold_left (fun record cookie =>
               assignProperty (Cookie.name cookie) (Cookie.value cookie) record)
    cookies ∅.

(** The loop of [recordToCookies]: [Cookie.create] is not guarded, so the
    first entry it refuses throws. *)
Fixpoint recordToCookiesFrom (entries : list (jsstring * jsstring))
    (cookies : list Cookie.t) : result (list Cookie.t) :=
  match entries with
  | [] => Ok cookies
  | (name, value) :: rest =>
      match Cookie.create (CookieOptions.ofNameValue name value) with
      | Ok cookie => recordToCookiesFrom rest (cookies ++ [cookie])
      | Throw error => Throw error
      end
  end.

Definition recordToCookies (entries : list (jsstring * jsstring))
  : result (list Cookie.t) :=
  recordToCookiesFrom entries [].

Definition createCookieMapFromHeaders (cookieHeader : option jsstring) : M nat :=
  match cookieHeader with
  | Some cookieHeader =>
      if truthyStr cookieHeader then CookieMap.new (Some (InputString cookieHeader))
      else CookieMap.new None
  | None => CookieMap.new None
  end.

(** The loop of [createCookieMapFromSetCookieHeaders]: a header that fails
    leaves a warning. *)
Fixpoint setEach `{Engine} (cookieMap : nat) (setCookieHeaders : list jsstring)
    (console : list warning) : M (list warning) :=
  match setCookieHeaders with
  | [] => mret console
  | header :: rest =>
      warned ← CookieMap.tryCatch
        (cookie ← CookieMap.lift (Cookie.parse header);
         CookieMap.set cookieMap (inr cookie) None;;
         mret [])
        (fun error => mret [(header, error)]);
      setEach cookieMap rest (console ++ warned)
  end.

Definition createCookieMapFromSetCookieHeaders `{Engine}
    (getSetCookie : option (list jsstring)) : M (nat * list warning) :=
  let setCookieHeaders := default [] getSetCookie in
  cookieMap ← CookieMap.new None;
  console ← setEach cookieMap setCookieHeaders [];
  mret (cookieMap, console).

Definition serializeCookieMap (cookieMap : nat) : M jsstring :=
  entries ← CookieMap.entries cookieMap;
  match mapM (fun '(name, value) =>
                app (name ++ str "=") <$> encodeURIComponent value) entries with
  | Some pairs => mret (join (str "; ") pairs)
  | None => throw URIError
  end.

(** [writeSetCookieHeaders]: the values that [headers.append("Set-Cookie", _)]
    receives, in order; a cookie whose [toString] throws ends the loop
    after the headers appended before it. *)
Fixpoint appendEach `{Engine} (changes : list Cookie.t) (appended : list jsstring)
  : list jsstring * result unit :=
  match changes with
  | [] => (appended, Ok tt)
  | cookie :: rest =>
      match Cookie.toString cookie with
      | Ok header => appendEach rest (appended ++ [header])
      | Throw error => (appended, Throw error)
      end
  end.

Definition writeSetCookieHeaders `{Engine} (cookieMap : nat) (σ : Store.t)
  : list jsstring * result unit :=
  match CookieMap.getAllChanges cookieMap σ with
  | (_, Ok changes) => appendEach changes []
  | (_, Throw error) => ([], Throw error)
  end.

(** [parseCookies(input)] of index.ts: a string, or the [cookie] header of a
    [Headers] object. *)
Definition parseCookies (input : jsstring + option jsstring)
  : M (gmap jsstring jsstring) :=
  match input with
  | inl header => parseCookieHeader header
  | inr cookieHeader =>
      cookieMap ← createCookieMapFromHeaders cookieHeader;
      CookieMap.toJSON cookieMap
  end.

(** [parseSetCookies(input)] of index.ts: an array, or the [Set-Cookie]
    headers of a [Headers] object. *)
Definition parseSetCookies `{Engine} (input : list jsstring + option (list jsstring))
  : M (list Cookie.t * list warning) :=
  match input with
  | inl headers => mret (parseSetCookieHeaders headers)
  | inr getSetCookie =>
      '(cookieMap, console) ← createCookieMapFromSetCookieHeaders getSetCookie;
      changes ← CookieMap.getAllChanges cookieMap;
      mret (changes, console)
  end.

End Parsers.

(** * Properties *)

(** ** Validators and the constructor *)

Section Validation.
Context `{Engine}.

Lemma forallb_asciiLower_domain (v : jsstring) :
  Forall (fun c => 65 <= c <= 90 \/ 97 <= c <= 122 \/ 48 <= c <= 57
                   \/ c = 46 \/ c = 45) v ->
  forallb isAscii v = true
  /\ forallb Cookie.isValidCharacterInCookieDomain (map asciiLower v) = true.
Proof.
  induction 1 as [|c v Hc _ [IH1 IH2]]; [done|].
  cbn [forallb map]. rewrite IH1, IH2, !andb_true_r.
  unfold isAscii, Cookie.isValidCharacterInCookieDomain, asciiLower.
  split; [apply N.ltb_lt; lia|].
  destruct ((65 <=? c) && (c <=? 90)) eqn:Hup.
  - apply andb_prop in Hup as [?%N.leb_le ?%N.leb_le].
    apply orb_true_iff; left. apply orb_true_iff; left. apply orb_true_iff; left.
    apply andb_true_iff; split; apply N.leb_le; lia.
  - destruct Hc as [Hc|[Hc|[Hc|[->| ->]]]]; [|..|done|done].
    + assert ((65 <=? c) && (c <=? 90) = true) as Hup'
        by (apply andb_true_iff; split; apply N.leb_le; lia).
      congruence.
    + apply orb_true_iff; left. apply orb_true_iff; left. apply orb_true_iff; left.
      apply andb_true_iff; split; apply N.leb_le; lia.
    + apply orb_true_iff; left. apply orb_true_iff; left. apply orb_true_iff; right.
      apply andb_true_iff; split; apply N.leb_le; lia.
Qed.

Lemma isValidCharacterInCookieDomain_iff (c : N) :
  Cookie.isValidCharacterInCookieDomain c = true
  <-> 97 <= c <= 122 \/ 48 <= c <= 57 \/ c = 46 \/ c = 45.
Proof.
  unfold Cookie.isValidCharacterInCookieDomain.
  rewrite !orb_true_iff, !andb_true_iff, !N.leb_le, !N.eqb_eq. tauto.
Qed.

(** What the arm [case "domain"] of the loop does. *)
Lemma parseAttribute_domain (l : Cookie.Locals.t) (attribute v : jsstring) :
  Cookie.attributeNameValue attribute = (str "domain", v) ->
  Cookie.parseAttribute l attribute
  = if truthyStr v
    then Cookie.Locals.mk (toLowerCase v) (Cookie.Locals.path l)
           (Cookie.Locals.expires l) (Cookie.Locals.secure l)
           (Cookie.Locals.sameSite l) (Cookie.Locals.httpOnly l)
           (Cookie.Locals.maxAge l) (Cookie.Locals.partitioned l)
           (Cookie.Locals.hasMaxAge l)
    else l.
Proof.
  intros Hnv. unfold Cookie.parseAttribute. rewrite Hnv. by destruct l.
Qed.

End Validation.

(** ** Strings *)

Section Strings.

Lemma indexOfFrom_not_elem (c : N) (s : jsstring) (i : Z) :
  (c ∉ s) -> indexOfFrom c s i = (-1)%Z.
Proof.
  revert i. induction s as [|x s IH]; intros i Hc; [done|].
  apply not_elem_of_cons in Hc as [Hx Hs]. cbn.
  destruct (N.eqb_spec x c); [congruence|]. by apply IH.
Qed.

Lemma indexOfFrom_first (c : N) (p r : jsstring) (i : Z) :
  (c ∉ p) -> indexOfFrom c (p ++ c :: r) i = (i + Z.of_nat (length p))%Z.
Proof.
  revert i. induction p as [|x p IH]; intros i Hc; cbn.
  - rewrite N.eqb_refl. lia.
  - apply not_elem_of_cons in Hc as [Hx Hp].
    destruct (N.eqb_spec x c); [congruence|]. rewrite IH by done. lia.
Qed.

Lemma indexOf_not_elem (c : N) (s : jsstring) : (c ∉ s) -> indexOf c s = (-1)%Z.
Proof. apply indexOfFrom_not_elem. Qed.

Lemma indexOf_first (c : N) (p r : jsstring) :
  (c ∉ p) -> indexOf c (p ++ c :: r) = Z.of_nat (length p).
Proof. intros Hc. unfold indexOf. by rewrite indexOfFrom_first. Qed.

Lemma clampIndex_inside (s : jsstring) (n : nat) :
  (n <= length s)%nat -> clampIndex s (Z.of_nat n) = n.
Proof. intros Hn. unfold clampIndex. lia. Qed.

Lemma substring_prefix (p r : jsstring) :
  substring (p ++ r) 0 (Z.of_nat (length p)) = p.
Proof.
  unfold substring.
  rewrite (clampIndex_inside _ (length p)) by (rewrite length_app; lia).
  change 0%Z with (Z.of_nat 0). rewrite clampIndex_inside by lia.
  rewrite Nat.max_r, Nat.min_l, Nat.sub_0_r by lia.
  cbn [drop]. apply take_app_length.
Qed.

Lemma substringFrom_after (p r : jsstring) (c : N) :
  substringFrom (p ++ c :: r) (Z.of_nat (length p) + 1) = r.
Proof.
  unfold substringFrom.
  replace (Z.of_nat (length p) + 1)%Z with (Z.of_nat (S (length p))) by lia.
  rewrite clampIndex_inside by (rewrite length_app; cbn; lia).
  change (p ++ c :: r) with (p ++ [c] ++ r). rewrite app_assoc.
  apply drop_app_length'. rewrite length_app. cbn. lia.
Qed.

Lemma trimStart_id (s : jsstring) :
  Forall (fun c => isWhiteSpace c = false) s -> trimStart s = s.
Proof. destruct 1 as [|c s Hc _]; [done|]. cbn. by rewrite Hc. Qed.

Lemma trim_id (s : jsstring) :
  Forall (fun c => isWhiteSpace c = false) s -> trim s = s.
Proof.
  intros Hs. unfold trim, trimEnd. rewrite (trimStart_id s Hs).
  rewrite trimStart_id; [apply rev_involutive|].
  apply Forall_forall. intros c Hc. rewrite Forall_forall in Hs.
  apply Hs. apply list_elem_of_In, in_rev, list_elem_of_In, Hc.
Qed.

Lemma split_not_elem (sep : N) (s : jsstring) : (sep ∉ s) -> split sep s = [s].
Proof.
  induction s as [|x s IH]; intros Hs; [done|].
  apply not_elem_of_cons in Hs as [Hx Hs]. cbn.
  destruct (N.eqb_spec x sep); [congruence|]. by rewrite IH.
Qed.

Lemma hexDigit_encoded (n : N) : n < 16 -> isEncoded (hexDigit n) = true.
Proof.
  intros Hn. unfold hexDigit.
  assert (n ∈ [0;1;2;3;4;5;6;7;8;9;10;11;12;13;14;15]) as Hin.
  { assert (exists k, n = N.of_nat k /\ (k < 16)%nat) as (k & -> & Hk)
      by (exists (N.to_nat n); lia).
    do 16 (destruct k as [|k]; [set_solver|]). lia. }
  repeat (apply elem_of_cons in Hin as [->|Hin]; [done|]).
  by apply not_elem_of_nil in Hin.
Qed.

Lemma pctAll_encoded (bs : list N) : forallb isEncoded (pctAll bs) = true.
Proof.
  induction bs as [|b bs IH]; [done|].
  change (pctAll (b :: bs)) with (pct b ++ pctAll bs).
  rewrite forallb_app, IH, andb_true_r. cbn [pct forallb].
  rewrite !hexDigit_encoded; [done|..]; apply N.mod_lt; lia.
Qed.

Lemma encodeURIComponent_encoded (v e : jsstring) :
  encodeURIComponent v = Some e -> forallb isEncoded e = true.
Proof.
  revert e. induction v as [v IH] using (induction_ltof1 _ (@length N)).
  unfold ltof in IH. intros e. destruct v as [|c r]; cbn.
  { by intros [= <-]. }
  destruct (isUnreserved c) eqn:Hu.
  { destruct (encodeURIComponent r) as [e'|] eqn:He'; [|done].
    intros [= <-]. cbn. rewrite (IH r) with (e := e') by (cbn; done || lia).
    unfold isEncoded. by rewrite Hu. }
  destruct (isLowSurrogate c); [done|].
  destruct (isHighSurrogate c).
  - destruct r as [|c2 r2]; [done|].
    destruct (isLowSurrogate c2); [|done].
    destruct (encodeURIComponent r2) as [e'|] eqn:He'; [|done].
    intros [= <-]. rewrite forallb_app, pctAll_encoded.
    apply (IH r2); [cbn; lia|done].
  - destruct (encodeURIComponent r) as [e'|] eqn:He'; [|done].
    intros [= <-]. rewrite forallb_app, pctAll_encoded.
    apply (IH r); [cbn; lia|done].
Qed.

Lemma isEncoded_facts (c : N) :
  isEncoded c = true -> c <> 59 /\ c <> 61 /\ isWhiteSpace c = false.
Proof.
  unfold isEncoded, isUnreserved, isAlpha, isDigit, isWhiteSpace.
  rewrite !orb_true_iff, !andb_true_iff, !N.leb_le, !N.eqb_eq.
  intros Hc. split; [lia|]. split; [lia|].
  rewrite !orb_false_iff, !andb_false_iff, !N.leb_gt, !N.eqb_neq. lia.
Qed.

Lemma isValidCharacterInCookieName_facts (c : N) :
  Cookie.isValidCharacterInCookieName c = true ->
  c <> 59 /\ c <> 61 /\ isWhiteSpace c = false.
Proof.
  unfold Cookie.isValidCharacterInCookieName, isWhiteSpace.
  rewrite !orb_true_iff, !andb_true_iff, !N.leb_le, !N.eqb_eq.
  intros Hc. split; [lia|]. split; [lia|].
  rewrite !orb_false_iff, !andb_false_iff, !N.leb_gt, !N.eqb_neq. lia.
Qed.

(** A string all of whose characters avoid [;], [=] and white space. *)
Lemma forallb_plain (p : N -> bool) (s : jsstring) :
  (forall c, p c = true -> c <> 59 /\ c <> 61 /\ isWhiteSpace c = false) ->
  forallb p s = true ->
  (59 ∉ s) /\ (61 ∉ s) /\ Forall (fun c => isWhiteSpace c = false) s.
Proof.
  intros Hp Hs. rewrite forallb_forall in Hs.
  assert (forall c, c ∈ s -> p c = true) as Hs'
    by (intros c Hc; by apply Hs, list_elem_of_In).
  split; [|split].
  - intros Hc. by destruct (Hp _ (Hs' _ Hc)) as (? & _).
  - intros Hc. by destruct (Hp _ (Hs' _ Hc)) as (_ & ? & _).
  - apply Forall_forall. intros c Hc. by destruct (Hp _ (Hs' _ Hc)) as (_ & _ & ?).
Qed.

End Strings.



(** ** The shape of an input that [parse] accepts *)

Section ParseShape.
Context `{Engine}.

Lemma isValidCookieName_facts (n : jsstring) :
  Cookie.isValidCookieName n = true ->
  n <> [] /\ (59 ∉ n) /\ (61 ∉ n) /\ trim n = n.
Proof.
  unfold Cookie.isValidCookieName. destruct n as [|c n]; [done|].
  cbn [length Nat.eqb]. intros Hn. split; [done|].
  destruct (forallb_plain _ _ isValidCharacterInCookieName_facts Hn)
    as (? & ? & ?).
  split; [done|]. split; [done|]. by apply trim_id.
Qed.

Lemma Z_of_nat_ne_m1 (n : nat) : (Z.of_nat n =? -1)%Z = false.
Proof. apply Z.eqb_neq. lia. Qed.

Lemma cookiePairOf_first (p rest : jsstring) :
  (59 ∉ p) ->
  Cookie.cookiePairOf (p ++ 59 :: rest) = p
  /\ Cookie.attributesOf (p ++ 59 :: rest) = split 59 rest.
Proof.
  intros Hp. unfold Cookie.cookiePairOf, Cookie.attributesOf.
  rewrite indexOf_first, Z_of_nat_ne_m1 by done. cbn [negb].
  by rewrite substring_prefix, substringFrom_after.
Qed.

(** [parse] on an input whose cookie-pair is a valid name, [=] and a
    value that [trim] leaves alone. *)
Lemma parse_of_pair (s n e : jsstring) :
  Cookie.isValidCookieName n = true -> trim e = e ->
  Cookie.cookiePairOf s = n ++ 61 :: e ->
  (2 <= length s)%nat ->
  Cookie.parse s
  = Cookie.create (Cookie.optionsOf n e
                     (Cookie.parseAttributes (Cookie.attributesOf s))).
Proof.
  intros Hn Htrim Hpair Hlen.
  destruct (isValidCookieName_facts n Hn) as (Hne & Hn59 & Hn61 & Hntrim).
  unfold Cookie.parse. rewrite Hpair.
  rewrite indexOf_first, Z_of_nat_ne_m1, substring_prefix, substringFrom_after,
    Hntrim, Htrim by done.
  destruct (Nat.ltb_spec (length s) 2); [lia|].
  destruct n; [done|]. done.
Qed.

(** A valid name, [=], a value, [;] and the attributes. *)
Lemma parse_pair_attributes (n e rest : jsstring) :
  Cookie.isValidCookieName n = true -> (59 ∉ e) -> trim e = e ->
  Cookie.parse (n ++ 61 :: e ++ 59 :: rest)
  = Cookie.create (Cookie.optionsOf n e (Cookie.parseAttributes (split 59 rest))).
Proof.
  intros Hn He Htrim.
  destruct (isValidCookieName_facts n Hn) as (Hne & Hn59 & Hn61 & Hntrim).
  assert (59 ∉ n ++ 61 :: e) as Hpair.
  { rewrite elem_of_app, elem_of_cons. intros [?|[?|?]]; done. }
  replace (n ++ 61 :: e ++ 59 :: rest) with ((n ++ 61 :: e) ++ 59 :: rest)
    by (by rewrite <- app_assoc).
  destruct (cookiePairOf_first _ rest Hpair) as [Hp Ha].
  rewrite (parse_of_pair _ n e), Ha; [done..|].
  rewrite !length_app. destruct n; [done|]. cbn. lia.
Qed.

End ParseShape.

(** ** [toString] followed by [parse] *)

Section RoundTrip.
Context `{Engine}.

(** An encoding is the string itself, or longer. *)
Lemma encodeURIComponent_length (v e : jsstring) :
  encodeURIComponent v = Some e ->
  (forallb isUnreserved v = true /\ e = v)
  \/ (forallb isUnreserved v = false /\ (length v < length e)%nat).
Proof.
  revert e. induction v as [v IH] using (induction_ltof1 _ (@length N)).
  unfold ltof in IH. intros e. destruct v as [|c r]; cbn.
  { intros [= <-]. by left. }
  assert (forall b bs, (2 < length (pctAll (b :: bs)))%nat) as Hpct.
  { intros. change (pctAll (b :: bs)) with (pct b ++ pctAll bs).
    rewrite length_app. cbn. lia. }
  assert (forall cp, (2 < length (pctAll (utf8 cp)))%nat) as Hutf.
  { intros. unfold utf8. repeat case_match; apply Hpct. }
  assert (forall r' e', (length r' < S (length r))%nat ->
            encodeURIComponent r' = Some e' -> (length r' <= length e')%nat) as Hle.
  { intros r' e' Hlt He'. destruct (IH r' Hlt e' He') as [[_ ->]|[_ ?]]; lia. }
  destruct (isUnreserved c) eqn:Hu.
  { destruct (encodeURIComponent r) as [e'|] eqn:He'; [|done].
    intros [= <-]. destruct (IH r ltac:(cbn; lia) e' He') as [[? ->]|[? ?]].
    - by left.
    - right. cbn. split; [done|lia]. }
  destruct (isLowSurrogate c); [done|].
  destruct (isHighSurrogate c).
  - destruct r as [|c2 r2]; [done|].
    destruct (isLowSurrogate c2); [|done].
    destruct (encodeURIComponent r2) as [e'|] eqn:He'; [|done].
    intros [= <-]. right. split; [done|]. rewrite length_app.
    specialize (Hle r2 e' ltac:(cbn; lia) He').
    match goal with |- context [utf8 ?cp] => specialize (Hutf cp) end.
    cbn [length] in *. lia.
  - destruct (encodeURIComponent r) as [e'|] eqn:He'; [|done].
    intros [= <-]. right. split; [done|]. rewrite length_app.
    specialize (Hle r e' ltac:(cbn; lia) He'). specialize (Hutf c). lia.
Qed.

Lemma attributes_of_defaults :
  Cookie.parseAttributes (split 59 (str " Path=/; SameSite=Lax"))
  = Cookie.Locals.initial.
Proof. vm_compute. reflexivity. Qed.

Lemma new_name_value (n v : jsstring) :
  Cookie.isValidCookieName n = true ->
  Cookie.new (CookieOptions.ofNameValue n v)
  = Ok (Cookie.mk n v [] (str "/") (Num (-1)) false Lax false NaN false).
Proof. intros Hn. unfold Cookie.new. cbn. by rewrite Hn. Qed.

Lemma toString_name_value (n v e : jsstring) :
  encodeURIComponent v = Some e ->
  Cookie.toString (Cookie.mk n v [] (str "/") (Num (-1)) false Lax false NaN false)
  = Ok (n ++ 61 :: e ++ 59 :: str " Path=/; SameSite=Lax").
Proof.
  intros He. unfold Cookie.toString, Cookie.toStringParts.
  cbn [Cookie.value Cookie.name Cookie.domain Cookie.path Cookie.secure
       Cookie.httpOnly Cookie.partitioned Cookie.sameSite].
  rewrite He. cbn [mbind option_bind truthyStr].
  change (truthyStr (str "/")) with true.
  change (Cookie.expiresPart _) with (@nil jsstring).
  change (Cookie.maxAgePart _) with (@nil jsstring).
  cbn [app join]. rewrite <- !app_assoc. reflexivity.
Qed.

Lemma create_parsed_defaults (n e : jsstring) :
  Cookie.isValidCookieName n = true ->
  Cookie.create (Cookie.optionsOf n e Cookie.Locals.initial)
  = Ok (Cookie.mk n e [] (str "/") (Num (-1)) false Lax false NaN false).
Proof. intros Hn. unfold Cookie.create, Cookie.new. cbn. by rewrite Hn. Qed.

(** C3, as amended.  For a cookie built by the validating constructor
    from a name and a value alone, whose value [encodeURIComponent]
    accepts (no lone surrogate), [parse] of [toString] succeeds and gives
    back the name, the empty domain, path ["/"] and [SameSite] [Lax]; the
    value it gives back is the encoded value, because [parse] does not
    percent-decode: it is the original value exactly when every
    character of the value is unreserved. *)
Theorem parse_toString_name_value (n v e : jsstring) :
  Cookie.isValidCookieName n = true ->
  encodeURIComponent v = Some e ->
  exists c s c',
    Cookie.new (CookieOptions.ofNameValue n v) = Ok c
    /\ Cookie.toString c = Ok s
    /\ Cookie.parse s = Ok c'
    /\ Cookie.name c' = Cookie.name c
    /\ Cookie.value c' = e
    /\ Cookie.domain c' = []
    /\ Cookie.path c' = str "/"
    /\ Cookie.sameSite c' = Lax
    /\ (Cookie.value c' = Cookie.value c <-> forallb isUnreserved v = true).
Proof.
  intros Hn He.
  destruct (forallb_plain _ _ isEncoded_facts (encodeURIComponent_encoded _ _ He))
    as (He59 & He61 & Hews).
  eexists _, _, _.
  split; [by apply new_name_value|].
  split; [by apply toString_name_value|].
  split.
  { rewrite parse_pair_attributes by (done || by apply trim_id).
    rewrite attributes_of_defaults. by apply create_parsed_defaults. }
  cbn. do 5 (split; [done|]).
  destruct (encodeURIComponent_length _ _ He) as [[Hu ->]|[Hu Hlt]]; [done|].
  rewrite Hu. split; [|done]. intros ->. lia.
Qed.
End RoundTrip.

(** The instance of the round trip at the value [hello world]. *)
Lemma parse_toString_name_value_witness :
  Cookie.isValidCookieName (str "test") = true
  /\ encodeURIComponent (str "hello world") = Some (str "hello%20world")
  /\ exists c s c',
      Cookie.new (CookieOptions.ofNameValue (str "test") (str "hello world")) = Ok c
      /\ Cookie.toString c = Ok s
      /\ Cookie.parse s = Ok c'
      /\ Cookie.name c' = Cookie.name c
      /\ Cookie.value c' = str "hello%20world"
      /\ Cookie.domain c' = []
      /\ Cookie.path c' = str "/"
      /\ Cookie.sameSite c' = Lax
      /\ (Cookie.value c' = Cookie.value c
          <-> forallb isUnreserved (str "hello world") = true).
Proof.
  split; [reflexivity|]. split; [reflexivity|].
  apply (parse_toString_name_value (str "test") (str "hello world")
           (str "hello%20world")); reflexivity.
Defined.

(** C3 as stated fails: the value [hello world] comes back as
    [hello%20world]. *)
Lemma parse_toString_value_counterexample :
  exists c s c',
    Cookie.new (CookieOptions.ofNameValue (str "test") (str "hello world")) = Ok c
    /\ Cookie.toString c = Ok s
    /\ s = str "test=hello%20world; Path=/; SameSite=Lax"
    /\ Cookie.parse s = Ok c'
    /\ Cookie.value c' = str "hello%20world"
    /\ Cookie.value c' <> Cookie.value c.
Proof.
  eexists _, _, _. split; [reflexivity|]. split; [reflexivity|].
  split; [reflexivity|]. split; [vm_compute; reflexivity|].
  split; [reflexivity|]. vm_compute. discriminate.
Qed.

(** A value with a lone surrogate makes [toString] itself throw. *)
Lemma toString_lone_surrogate_throws :
  exists c,
    Cookie.new (CookieOptions.ofNameValue (str "test") [0xD800]) = Ok c
    /\ Cookie.toString c = Throw URIError.
Proof. eexists. split; reflexivity. Qed.

(** ** [Max-Age] and [Expires] *)

Section Precedence.
Context `{Engine}.

Lemma strEq_true (a b : jsstring) : strEq a b = true <-> a = b.
Proof. unfold strEq. apply bool_decide_eq_true. Qed.

Lemma strEq_false (a b : jsstring) : strEq a b = false <-> a <> b.
Proof. unfold strEq. apply bool_decide_eq_false. Qed.

Lemma strEq_refl (a : jsstring) : strEq a a = true.
Proof. by apply strEq_true. Qed.

(** Any other attribute leaves the three variables alone. *)
Lemma parseAttribute_other (l : Cookie.Locals.t) (attribute : jsstring) :
  isOtherAttribute attribute ->
  Cookie.Locals.expires (Cookie.parseAttribute l attribute) = Cookie.Locals.expires l
  /\ Cookie.Locals.maxAge (Cookie.parseAttribute l attribute) = Cookie.Locals.maxAge l
  /\ Cookie.Locals.hasMaxAge (Cookie.parseAttribute l attribute)
     = Cookie.Locals.hasMaxAge l.
Proof.
  unfold isOtherAttribute, Cookie.parseAttribute.
  destruct (Cookie.attributeNameValue attribute) as [nm v]. cbn [fst].
  intros [Hex%strEq_false Hma%strEq_false]. rewrite Hex, Hma.
  destruct l. repeat case_match; done.
Qed.

Lemma parseAttributes_from_other (l : Cookie.Locals.t) (attributes : list jsstring) :
  Forall isOtherAttribute attributes ->
  Cookie.Locals.expires (fold_left Cookie.parseAttribute attributes l)
  = Cookie.Locals.expires l
  /\ Cookie.Locals.maxAge (fold_left Cookie.parseAttribute attributes l)
     = Cookie.Locals.maxAge l
  /\ Cookie.Locals.hasMaxAge (fold_left Cookie.parseAttribute attributes l)
     = Cookie.Locals.hasMaxAge l.
Proof.
  intros Hall. revert l. induction Hall as [|a r Ha _ IH]; intros l; [done|].
  cbn [fold_left]. destruct (IH (Cookie.parseAttribute l a)) as (-> & -> & ->).
  by apply parseAttribute_other.
Qed.

(** [case "max-age"] with a value that [parseInt] reads. *)
Lemma parseAttribute_maxAge (l : Cookie.Locals.t) (attribute v : jsstring) (z : Z) :
  Cookie.attributeNameValue attribute = (str "max-age", v) ->
  parseInt10 v = Num z ->
  Cookie.Locals.expires (Cookie.parseAttribute l attribute) = Cookie.Locals.expires l
  /\ Cookie.Locals.maxAge (Cookie.parseAttribute l attribute) = Num z
  /\ Cookie.Locals.hasMaxAge (Cookie.parseAttribute l attribute) = true.
Proof.
  intros Hnv Hz. unfold Cookie.parseAttribute. rewrite Hnv, Hz. by destruct l.
Qed.

(** [case "expires"]: skipped once [hasMaxAge] is set, applied otherwise
    when the date parses. *)
Lemma parseAttribute_expires (l : Cookie.Locals.t) (attribute d : jsstring) :
  Cookie.attributeNameValue attribute = (str "expires", d) ->
  Cookie.Locals.expires (Cookie.parseAttribute l attribute)
  = (if negb (Cookie.Locals.hasMaxAge l) && truthyStr d
        && negb (isNaN (Date_parse d))
     then Date_parse d else Cookie.Locals.expires l)
  /\ Cookie.Locals.maxAge (Cookie.parseAttribute l attribute) = Cookie.Locals.maxAge l
  /\ Cookie.Locals.hasMaxAge (Cookie.parseAttribute l attribute)
     = Cookie.Locals.hasMaxAge l.
Proof.
  intros Hnv. unfold Cookie.parseAttribute. rewrite Hnv. destruct l. cbn.
  by repeat case_match.
Qed.

(** [Max-Age] first: the later [Expires] is skipped. *)
Lemma parseAttributes_maxAge_expires
    (pre mid post : list jsstring) (ma ex v d : jsstring) (z : Z) :
  Cookie.attributeNameValue ma = (str "max-age", v) ->
  parseInt10 v = Num z ->
  Cookie.attributeNameValue ex = (str "expires", d) ->
  Forall isOtherAttribute (pre ++ mid ++ post) ->
  let l := Cookie.parseAttributes (pre ++ ma :: mid ++ ex :: post) in
  Cookie.Locals.maxAge l = Num z
  /\ Cookie.Locals.expires l = Cookie.EMPTY_EXPIRES_VALUE.
Proof.
  intros Hma Hz Hex (Hpre & (Hmid & Hpost)%Forall_app)%Forall_app. cbn zeta.
  unfold Cookie.parseAttributes.
  rewrite fold_left_app. cbn [fold_left]. rewrite fold_left_app. cbn [fold_left].
  set (l0 := fold_left Cookie.parseAttribute pre Cookie.Locals.initial).
  set (l1 := Cookie.parseAttribute l0 ma).
  set (l2 := fold_left Cookie.parseAttribute mid l1).
  set (l3 := Cookie.parseAttribute l2 ex).
  destruct (parseAttributes_from_other Cookie.Locals.initial pre Hpre)
    as (He0 & _ & _). fold l0 in He0.
  destruct (parseAttribute_maxAge l0 ma v z Hma Hz) as (He1 & Hm1 & Hh1).
  fold l1 in He1, Hm1, Hh1.
  destruct (parseAttributes_from_other l1 mid Hmid) as (He2 & Hm2 & Hh2).
  fold l2 in He2, Hm2, Hh2.
  destruct (parseAttribute_expires l2 ex d Hex) as (He3 & Hm3 & Hh3).
  fold l3 in He3, Hm3, Hh3.
  destruct (parseAttributes_from_other l3 post Hpost) as (-> & -> & _).
  rewrite Hm3, Hm2, Hm1, He3, Hh2, Hh1. cbn [negb andb].
  by rewrite He2, He1, He0.
Qed.

(** [Expires] first: the date is stored, and the later [Max-Age] does not
    take it back. *)
Lemma parseAttributes_expires_maxAge
    (pre mid post : list jsstring) (ma ex v d : jsstring) (z t : Z) :
  Cookie.attributeNameValue ma = (str "max-age", v) ->
  parseInt10 v = Num z ->
  Cookie.attributeNameValue ex = (str "expires", d) ->
  d <> [] -> Date_parse d = Num t ->
  Forall isOtherAttribute (pre ++ mid ++ post) ->
  let l := Cookie.parseAttributes (pre ++ ex :: mid ++ ma :: post) in
  Cookie.Locals.maxAge l = Num z /\ Cookie.Locals.expires l = Num t.
Proof.
  intros Hma Hz Hex Hd Ht (Hpre & (Hmid & Hpost)%Forall_app)%Forall_app. cbn zeta.
  unfold Cookie.parseAttributes.
  rewrite fold_left_app. cbn [fold_left]. rewrite fold_left_app. cbn [fold_left].
  set (l0 := fold_left Cookie.parseAttribute pre Cookie.Locals.initial).
  set (l1 := Cookie.parseAttribute l0 ex).
  set (l2 := fold_left Cookie.parseAttribute mid l1).
  set (l3 := Cookie.parseAttribute l2 ma).
  destruct (parseAttributes_from_other Cookie.Locals.initial pre Hpre)
    as (_ & _ & Hh0). fold l0 in Hh0.
  destruct (parseAttribute_expires l0 ex d Hex) as (He1 & _ & _).
  fold l1 in He1. rewrite Hh0, Ht in He1. destruct d; [done|]. cbn in He1.
  destruct (parseAttributes_from_other l1 mid Hmid) as (He2 & _ & _).
  fold l2 in He2.
  destruct (parseAttribute_maxAge l2 ma v z Hma Hz) as (He3 & Hm3 & _).
  fold l3 in He3, Hm3.
  destruct (parseAttributes_from_other l3 post Hpost) as (-> & -> & _).
  by rewrite Hm3, He3, He2, He1.
Qed.

(** The fields of the cookie that [parse] returns, from the variables of
    the loop. *)
Lemma parse_Ok_fields (s : jsstring) (c : Cookie.t) :
  Cookie.parse s = Ok c ->
  let l := Cookie.parseAttributes (Cookie.attributesOf s) in
  Cookie.name c = Cookie.nameOf s
  /\ Cookie.domain c = Cookie.Locals.domain l
  /\ Cookie.path c = Cookie.orStr (Some (Cookie.Locals.path l)) (str "/")
  /\ Cookie.expires c
     = Cookie.orNum (Some (Cookie.Locals.expires l)) Cookie.EMPTY_EXPIRES_VALUE
  /\ Cookie.maxAge c = Cookie.orNum (Some (Cookie.Locals.maxAge l)) NaN.
Proof.
  unfold Cookie.parse, Cookie.create, Cookie.new, Cookie.nameOf.
  repeat case_match; try done. intros [= <-]. cbn.
  repeat split. by destruct (Cookie.Locals.domain _).
Qed.

End Precedence.

Section PrecedenceClaim.
Context `{Engine}.

(** C1, as amended.  For an input that [parse] accepts and whose
    attributes hold one [Max-Age] with the integer value 60 and one
    [Expires] with a date that [Date.parse] reads, the cookie has
    [maxAge = 60] in either order of the two; [expires] is the unset
    sentinel [-1] when the [Max-Age] token comes before the [Expires]
    token. *)
Theorem parse_maxAge_locks_later_expires
    (s : jsstring) (c : Cookie.t) (pre mid post : list jsstring)
    (ma ex v d : jsstring) (t : Z) :
  Cookie.parse s = Ok c ->
  Cookie.attributeNameValue ma = (str "max-age", v) ->
  parseInt10 v = Num 60 ->
  Cookie.attributeNameValue ex = (str "expires", d) ->
  d <> [] -> Date_parse d = Num t ->
  Forall isOtherAttribute (pre ++ mid ++ post) ->
  (Cookie.attributesOf s = pre ++ ma :: mid ++ ex :: post ->
   Cookie.maxAge c = Num 60 /\ Cookie.expires c = Num (-1))
  /\ (Cookie.attributesOf s = pre ++ ex :: mid ++ ma :: post ->
      Cookie.maxAge c = Num 60).
Proof.
  intros Hp Hma Hv Hex Hd Ht Hother.
  destruct (parse_Ok_fields s c Hp) as (_ & _ & _ & He & Hm).
  split; intros Hattrs; rewrite Hattrs in He, Hm.
  - destruct (parseAttributes_maxAge_expires pre mid post ma ex v d 60
                Hma Hv Hex Hother) as [Hm' He'].
    by rewrite Hm' in Hm; rewrite He' in He.
  - destruct (parseAttributes_expires_maxAge pre mid post ma ex v d 60 t
                Hma Hv Hex Hd Ht Hother) as [Hm' _].
    by rewrite Hm' in Hm.
Qed.

(** With [Expires] first the parsed date stays in the cookie (the
    constructor turns a date of [0] into [-1]). *)
Lemma parse_expires_before_maxAge
    (s : jsstring) (c : Cookie.t) (pre mid post : list jsstring)
    (ma ex v d : jsstring) (z t : Z) :
  Cookie.parse s = Ok c ->
  Cookie.attributeNameValue ma = (str "max-age", v) ->
  parseInt10 v = Num z ->
  Cookie.attributeNameValue ex = (str "expires", d) ->
  d <> [] -> Date_parse d = Num t ->
  Forall isOtherAttribute (pre ++ mid ++ post) ->
  Cookie.attributesOf s = pre ++ ex :: mid ++ ma :: post ->
  Cookie.expires c = if (t =? 0)%Z then Num (-1) else Num t.
Proof.
  intros Hp Hma Hv Hex Hd Ht Hother Hattrs.
  destruct (parse_Ok_fields s c Hp) as (_ & _ & _ & He & _).
  rewrite Hattrs in He.
  destruct (parseAttributes_expires_maxAge pre mid post ma ex v d z t
              Hma Hv Hex Hd Ht Hother) as [_ He'].
  rewrite He' in He. rewrite He. cbn. by destruct (t =? 0)%Z.
Qed.

End PrecedenceClaim.

(** The instance [id=1; Max-Age=60; Expires=Wed, 09 Jun 2021 10:18:14 GMT]. *)
Lemma parse_maxAge_locks_later_expires_witness :
  let s := str "id=1; Max-Age=60; Expires=Wed, 09 Jun 2021 10:18:14 GMT" in
  let c := Cookie.mk (str "id") (str "1") [] (str "/") (Num (-1)) false Lax
             false (Num 60) false in
  Cookie.parse s = Ok c
  /\ Cookie.attributesOf s
     = [str " Max-Age=60"; str " Expires=Wed, 09 Jun 2021 10:18:14 GMT"]
  /\ Date_parse (str "Wed, 09 Jun 2021 10:18:14 GMT") = Num 1623233894000
  /\ Cookie.maxAge c = Num 60 /\ Cookie.expires c = Num (-1).
Proof.
  cbv zeta. split; [vm_compute; reflexivity|]. split; [vm_compute; reflexivity|].
  split; [vm_compute; reflexivity|].
  apply (parse_maxAge_locks_later_expires
           (str "id=1; Max-Age=60; Expires=Wed, 09 Jun 2021 10:18:14 GMT")
           _ [] [] [] (str " Max-Age=60")
           (str " Expires=Wed, 09 Jun 2021 10:18:14 GMT") (str "60")
           (str "Wed, 09 Jun 2021 10:18:14 GMT") 1623233894000);
    try (vm_compute; reflexivity).
  - discriminate.
  - constructor.
Defined.

(** C1 as stated fails: with the [Expires] token first, the cookie keeps
    the date. *)
Lemma parse_expires_before_maxAge_counterexample :
  exists c,
    Cookie.parse (str "id=1; Expires=Wed, 09 Jun 2021 10:18:14 GMT; Max-Age=60")
    = Ok c
    /\ Cookie.maxAge c = Num 60
    /\ Cookie.expires c = Num 1623233894000
    /\ Cookie.expires c <> Cookie.EMPTY_EXPIRES_VALUE.
Proof.
  eexists. split; [vm_compute; reflexivity|]. cbn.
  split; [done|]. split; [done|]. discriminate.
Qed.

(** ** When [parse] throws *)

Section ParseErrors.
Context `{Engine}.

(** C6.  [parse] throws exactly when the input is shorter than two
    characters, or its cookie-pair has no [=], or the name before the
    first [=] is empty once trimmed, or the name, the path or the domain
    that reach the validating constructor fail its character checks; on
    every other input it returns a cookie.  Nothing in [parse] catches:
    the error is its result. *)
Theorem parse_throws_exactly (s : jsstring) :
  let l := Cookie.parseAttributes (Cookie.attributesOf s) in
  let malformed :=
    (length s < 2)%nat
    \/ indexOf 61 (Cookie.cookiePairOf s) = (-1)%Z
    \/ Cookie.nameOf s = []
    \/ Cookie.isValidCookieName (Cookie.nameOf s) = false
    \/ Cookie.isValidCookiePath (Cookie.Locals.path l) = false
    \/ Cookie.isValidCookieDomain (Cookie.Locals.domain l) = false in
  ((exists e, Cookie.parse s = Throw e) <-> malformed)
  /\ ((exists c, Cookie.parse s = Ok c) <-> ~ malformed).
Proof.
  cbv zeta. unfold Cookie.parse, Cookie.nameOf, Cookie.create, Cookie.new.
  set (l := Cookie.parseAttributes (Cookie.attributesOf s)).
  set (pair := Cookie.cookiePairOf s).
  set (name := trim (substring pair 0 (indexOf 61 pair))).
  cbn [CookieOptions.name CookieOptions.path CookieOptions.domain
       Cookie.optionsOf Cookie.presentAndNot].
  destruct (Nat.ltb_spec (length s) 2) as [Hlen|Hlen].
  { split; [split; [by left|by eexists]|].
    split; [by intros [? ?]|]. intros Hn. destruct Hn. by left. }
  destruct (Z.eqb_spec (indexOf 61 pair) (-1)) as [Heq|Heq].
  { split; [split; [by right; left|by eexists]|].
    split; [by intros [? ?]|]. intros Hn. destruct Hn. by right; left. }
  destruct (Nat.eqb_spec (length name) 0) as [Hnm|Hnm].
  { apply length_zero_iff_nil in Hnm.
    split; [split; [by right; right; left|by eexists]|].
    split; [by intros [? ?]|]. intros Hn. destruct Hn. by right; right; left. }
  assert (name <> []) as Hnm' by (by intros ->).
  destruct (Cookie.isValidCookieName name) eqn:Hvn; cbn [negb].
  2:{ split; [split; [by do 3 right; left|by eexists]|].
      split; [by intros [? ?]|]. intros Hn. destruct Hn. by do 3 right; left. }
  destruct (Cookie.isValidCookiePath (Cookie.Locals.path l)) eqn:Hvp.
  2:{ assert (truthyStr (Cookie.Locals.path l) = true) as ->
        by (by destruct (Cookie.Locals.path l)).
      cbn [negb andb].
      split; [split; [by do 4 right; left|by eexists]|].
      split; [by intros [? ?]|]. intros Hn. destruct Hn. by do 4 right; left. }
  rewrite andb_false_r.
  destruct (Cookie.isValidCookieDomain (Cookie.Locals.domain l)) eqn:Hvd.
  2:{ assert (truthyStr (Cookie.Locals.domain l) = true) as ->
        by (by destruct (Cookie.Locals.domain l)).
      cbn [negb andb].
      split; [split; [by do 5 right|by eexists]|].
      split; [by intros [? ?]|]. intros Hn. destruct Hn. by do 5 right. }
  rewrite andb_false_r.
  split.
  - split; [by intros [? ?]|]. intros [?|[?|[?|[?|[?|?]]]]]; done || lia.
  - split; [|by eexists]. intros _ [?|[?|[?|[?|[?|?]]]]]; done || lia.
Qed.

End ParseErrors.

(** The three malformed inputs of the test suite, and an invalid name. *)
Lemma parse_throws_examples :
  Cookie.parse [] = Throw (TypeError "Invalid cookie string: empty")
  /\ Cookie.parse (str "invalid")
     = Throw (TypeError "Invalid cookie string: no '=' found")
  /\ Cookie.parse (str "=value")
     = Throw (TypeError "Invalid cookie string: name cannot be empty")
  /\ Cookie.parse (str "a b=1")
     = Throw (TypeError "Invalid cookie name: contains invalid characters")
  /\ Cookie.parse (str "a=1; Path=/<x>")
     = Throw (TypeError "Invalid cookie path: contains invalid characters")
  /\ Cookie.parse (str "a=1; Domain=exa_mple.com")
     = Throw (TypeError "Invalid cookie domain: contains invalid characters").
Proof. repeat split; vm_compute; reflexivity. Qed.

(** ** The domain: validation and lower-casing *)

Section DomainCase.
Context `{Engine}.

Lemma trim_leading_space (s : jsstring) : trim (32 :: s) = trim s.
Proof. reflexivity. Qed.

Lemma toLowerCase_ascii (v : jsstring) :
  forallb isAscii v = true -> toLowerCase v = map asciiLower v.
Proof. intros Hv. unfold toLowerCase. by rewrite Hv. Qed.

(** The attribute token [ Domain=v] for a [v] of letters, digits, [.]
    and [-]. *)
Lemma attributeNameValue_Domain (v : jsstring) :
  Forall (fun c => 65 <= c <= 90 \/ 97 <= c <= 122 \/ 48 <= c <= 57
                   \/ c = 46 \/ c = 45) v ->
  Cookie.attributeNameValue (str " Domain=" ++ v) = (str "domain", v).
Proof.
  intros Hv.
  assert (Forall (fun c => isWhiteSpace c = false) v) as Hws.
  { eapply Forall_impl; [exact Hv|]. intros c Hc. cbn beta in Hc. unfold isWhiteSpace.
    rewrite !orb_false_iff, !andb_false_iff, !N.leb_gt, !N.eqb_neq. lia. }
  unfold Cookie.attributeNameValue.
  change (str " Domain=" ++ v) with (32 :: str "Domain" ++ 61 :: v).
  rewrite trim_leading_space, trim_id.
  2:{ apply Forall_app. split; [|by constructor].
      repeat constructor. }
  rewrite indexOf_first by (apply (bool_decide_unpack _); vm_compute; exact I).
  rewrite Z_of_nat_ne_m1. cbn [negb].
  rewrite substring_prefix, substringFrom_after, (trim_id v) by done.
  f_equal.
Qed.

(** C8.  [isValidCookieDomain] accepts exactly the strings of lower-case
    letters, digits, [.] and [-]: the empty string is accepted and
    [EXAMPLE.com] is not.  In [parse], the arm of the [Domain] attribute
    stores the lower-cased value whenever the value is not empty, so a
    domain of letters of either case, digits, [.] and [-] always passes
    the constructor: the parse of such an input succeeds with the
    lower-cased domain. *)
Theorem isValidCookieDomain_and_parse_lowercases :
  (forall d : jsstring,
      Cookie.isValidCookieDomain d = true
      <-> Forall (fun c => 97 <= c <= 122 \/ 48 <= c <= 57 \/ c = 46 \/ c = 45) d)
  /\ Cookie.isValidCookieDomain [] = true
  /\ Cookie.isValidCookieDomain (str "EXAMPLE.com") = false
  /\ (forall (l : Cookie.Locals.t) (attribute v : jsstring),
        Cookie.attributeNameValue attribute = (str "domain", v) -> v <> [] ->
        Cookie.Locals.domain (Cookie.parseAttribute l attribute) = toLowerCase v)
  /\ (forall v : jsstring,
        Forall (fun c => 65 <= c <= 90 \/ 97 <= c <= 122 \/ 48 <= c <= 57
                         \/ c = 46 \/ c = 45) v ->
        toLowerCase v = map asciiLower v
        /\ Cookie.isValidCookieDomain (toLowerCase v) = true)
  /\ (forall n e v : jsstring,
        Cookie.isValidCookieName n = true -> (59 ∉ e) -> trim e = e ->
        v <> [] ->
        Forall (fun c => 65 <= c <= 90 \/ 97 <= c <= 122 \/ 48 <= c <= 57
                         \/ c = 46 \/ c = 45) v ->
        Cookie.parse (n ++ str "=" ++ e ++ str "; Domain=" ++ v)
        = Ok (Cookie.mk n e (map asciiLower v) (str "/") (Num (-1)) false Lax
                false NaN false))
  /\ Cookie.parse (str "a=1; Domain=EXAMPLE.com")
     = Ok (Cookie.mk (str "a") (str "1") (str "example.com") (str "/")
             (Num (-1)) false Lax false NaN false).
Proof.
  split.
  { intros d. unfold Cookie.isValidCookieDomain.
    rewrite forallb_forall, Forall_forall.
    split; intros Hd c Hc.
    - apply isValidCharacterInCookieDomain_iff, Hd. by apply list_elem_of_In.
    - apply isValidCharacterInCookieDomain_iff, Hd. by apply list_elem_of_In. }
  split; [reflexivity|]. split; [reflexivity|].
  split.
  { intros l attribute v Hnv Hv. rewrite (parseAttribute_domain l attribute v Hnv).
    by destruct v. }
  assert (forall v : jsstring,
        Forall (fun c => 65 <= c <= 90 \/ 97 <= c <= 122 \/ 48 <= c <= 57
                         \/ c = 46 \/ c = 45) v ->
        toLowerCase v = map asciiLower v
        /\ Cookie.isValidCookieDomain (toLowerCase v) = true) as Hlow.
  { intros v Hv. destruct (forallb_asciiLower_domain v Hv) as [Ha Hd].
    by rewrite toLowerCase_ascii. }
  split; [exact Hlow|].
  split; [|vm_compute; reflexivity].
  intros n e v Hn He Htrim Hv Hchars.
  change (n ++ str "=" ++ e ++ str "; Domain=" ++ v)
    with (n ++ 61 :: e ++ 59 :: str " Domain=" ++ v).
  rewrite parse_pair_attributes by done.
  assert (59 ∉ str " Domain=" ++ v) as Hsemi.
  { rewrite elem_of_app. intros [Hc|Hc]; [by apply (bool_decide_unpack (59 ∉ str " Domain=")) in Hc|].
    rewrite Forall_forall in Hchars. specialize (Hchars _ Hc). cbn beta in Hchars. lia. }
  rewrite split_not_elem by done.
  unfold Cookie.parseAttributes. cbn [fold_left].
  rewrite (parseAttribute_domain _ _ v (attributeNameValue_Domain v Hchars)).
  destruct (Hlow v Hchars) as [Hl Hvalid]. rewrite Hl in *.
  assert (truthyStr v = true) as -> by (by destruct v).
  unfold Cookie.create, Cookie.new. cbn. rewrite Hn. cbn.
  assert (truthyStr (str "/") = true) as Hslash by reflexivity.
  assert (Cookie.isValidCookiePath (str "/") = true) as Hpath by reflexivity.
  unfold Cookie.isValidCookieDomain in Hvalid. rewrite Hvalid, andb_false_r.
  change (truthyStr (str "/")) with true.
  change (forallb Cookie.isValidCharacterInCookiePath (str "/")) with true.
  cbn [negb andb]. by destruct v.
Qed.
End DomainCase.

(** ** The constructor and the value [0] *)

Section ZeroIsUnset.
Context `{Engine}.

(** C10.  The constructor stores [maxAge = 0] as [NaN] and [expires = 0]
    as the sentinel [-1], the values it stores when the field is absent:
    the cookie is the one built without the field, [hasExpiry] is false,
    and [toString] pushes neither a [Max-Age] nor an [Expires] part. *)
Theorem constructor_zero_is_unset (options : CookieOptions.t) (c : Cookie.t) :
  Cookie.new options = Ok c ->
  (CookieOptions.maxAge options = Some (Num 0) ->
   Cookie.maxAge c = NaN
   /\ Cookie.maxAgePart c = []
   /\ Cookie.new (withMaxAge None options) = Ok c)
  /\ (CookieOptions.expires options = Some (Num 0) ->
      Cookie.expires c = Num (-1)
      /\ Cookie.hasExpiry c = false
      /\ Cookie.expiresPart c = []
      /\ Cookie.new (withExpires None options) = Ok c).
Proof.
  unfold Cookie.new. destruct options as [n v d p e s ss h m pt].
  cbn [CookieOptions.name CookieOptions.value CookieOptions.domain
       CookieOptions.path CookieOptions.expires CookieOptions.secure
       CookieOptions.sameSite CookieOptions.httpOnly CookieOptions.maxAge
       CookieOptions.partitioned withMaxAge withExpires].
  repeat case_match; try done. intros [= <-].
  split; intros ->; repeat split.
Qed.

End ZeroIsUnset.

(** The instance with both fields [0]: the string holds neither part. *)
Lemma constructor_zero_is_unset_witness :
  let options :=
    CookieOptions.mk (str "a") (str "b") None None (Some (Num 0)) None None None
      (Some (Num 0)) None in
  let c := Cookie.mk (str "a") (str "b") [] (str "/") (Num (-1)) false Lax false
             NaN false in
  Cookie.new options = Ok c
  /\ Cookie.toString c = Ok (str "a=b; Path=/; SameSite=Lax")
  /\ (CookieOptions.maxAge options = Some (Num 0) ->
      Cookie.maxAge c = NaN
      /\ Cookie.maxAgePart c = []
      /\ Cookie.new (withMaxAge None options) = Ok c)
  /\ (CookieOptions.expires options = Some (Num 0) ->
      Cookie.expires c = Num (-1)
      /\ Cookie.hasExpiry c = false
      /\ Cookie.expiresPart c = []
      /\ Cookie.new (withExpires None options) = Ok c).
Proof.
  cbv zeta. split; [reflexivity|]. split; [reflexivity|].
  apply (constructor_zero_is_unset
           (CookieOptions.mk (str "a") (str "b") None None (Some (Num 0)) None
              None None (Some (Num 0)) None)).
  reflexivity.
Defined.

(** Any other value of the two fields is printed. *)
Lemma toString_maxAge_expires_example :
  exists c,
    Cookie.new (CookieOptions.mk (str "a") (str "b") None None (Some (Num 1000))
                  None None None (Some (Num 5)) None) = Ok c
    /\ Cookie.toString c
       = Ok (str "a=b; Path=/; Expires=Thu, 01 Jan 1970 00:00:01 GMT; Max-Age=5; SameSite=Lax").
Proof. eexists. split; [reflexivity|]. vm_compute. reflexivity. Qed.

(** ** The store: what each method does to the contents of the instances *)

Section StoreEffects.
Import Store Heap.

Lemma bind_Ok {A B} (m : M A) (f : A -> M B) (σ σ1 : Store.t) (a : A) :
  m σ = (σ1, Ok a) -> (m ≫= f) σ = f a σ1.
Proof. intros Hm. unfold mbind, M_bind. by rewrite Hm. Qed.

Lemma bind_Throw {A B} (m : M A) (f : A -> M B) (σ σ1 : Store.t) (e : exn) :
  m σ = (σ1, Throw e) -> (m ≫= f) σ = (σ1, Throw e).
Proof. intros Hm. unfold mbind, M_bind. by rewrite Hm. Qed.

Lemma fieldsOf_lookup (σ : Store.t) (this : nat) (f : fields) :
  objects σ !! this = Some f -> fieldsOf σ this = f.
Proof. intros Hf. unfold fieldsOf. by rewrite Hf. Qed.

Lemma ofStore_lookup (σ : Store.t) (this : nat) :
  is_Some (objects σ !! this) ->
  View.ofStore σ !! this = Some (viewOf σ this).
Proof.
  intros [f Hf]. unfold View.ofStore, viewOf.
  by rewrite lookup_fmap, Hf, (fieldsOf_lookup _ _ _ Hf).
Qed.

Lemma ofStore_is_Some (σ : Store.t) (this : nat) :
  is_Some (View.ofStore σ !! this) <-> is_Some (objects σ !! this).
Proof. unfold View.ofStore. rewrite lookup_fmap. apply fmap_is_Some. Qed.

Lemma wellFormed_empty : wellFormed Store.empty.
Proof. split; intros *; cbn; by rewrite lookup_empty. Qed.

Lemma ofStore_insert_id (σ : Store.t) (this : nat) :
  is_Some (objects σ !! this) ->
  View.ofStore σ = <[this := viewOf σ this]> (View.ofStore σ).
Proof. intros Hthis. symmetry. by apply insert_id, ofStore_lookup. Qed.

Lemma viewOf_insert (σ σ' : Store.t) (this : nat) (v : View.t) :
  View.ofStore σ' = <[this := v]> (View.ofStore σ) ->
  is_Some (objects σ' !! this) /\ viewOf σ' this = v.
Proof.
  intros Hv.
  assert (is_Some (objects σ' !! this)) as Hthis.
  { apply ofStore_is_Some. rewrite Hv, lookup_insert_eq. by eexists. }
  split; [done|]. apply ofStore_lookup in Hthis.
  rewrite Hv, lookup_insert_eq in Hthis. congruence.
Qed.

Lemma viewOf_insert_ne (σ σ' : Store.t) (this o : nat) (v : View.t) :
  View.ofStore σ' = <[this := v]> (View.ofStore σ) ->
  o <> this -> is_Some (objects σ !! o) ->
  is_Some (objects σ' !! o) /\ viewOf σ' o = viewOf σ o.
Proof.
  intros Hv Hne Ho.
  assert (View.ofStore σ' !! o = Some (viewOf σ o)) as Hlook.
  { rewrite Hv, lookup_insert_ne by done. by apply ofStore_lookup. }
  assert (is_Some (objects σ' !! o)) as Ho'.
  { apply ofStore_is_Some. rewrite Hlook. by eexists. }
  split; [done|]. apply ofStore_lookup in Ho'. congruence.
Qed.

(** A store that differs from a well-formed [σ] by giving [this] two
    arrays at fresh addresses. *)
Lemma fresh_arrays_effect (σ σ' : Store.t) (this : nat) (f' : fields) :
  wellFormed σ ->
  (next σ <= next σ')%nat ->
  objects σ' = <[this := f']> (objects σ) ->
  (this < next σ')%nat ->
  (next σ <= originalCookies f' < next σ')%nat ->
  (next σ <= modifiedCookies f' < next σ')%nat ->
  (forall a, (a < next σ)%nat -> pairArrays σ' !! a = pairArrays σ !! a) ->
  (forall a, (a < next σ)%nat -> cookieArrays σ' !! a = cookieArrays σ !! a) ->
  wellFormed σ'
  /\ View.ofStore σ' = <[this := View.ofFields σ' f']> (View.ofStore σ).
Proof.
  intros [Hb Hs] Hnext Hobj Hthis Ho Hm Hpairs Hcookies.
  split; [split|].
  - intros o fo. rewrite Hobj. destruct (decide (o = this)) as [->|Hne].
    + rewrite lookup_insert_eq. intros [= <-]. lia.
    + rewrite lookup_insert_ne by done. intros Hfo.
      destruct (Hb _ _ Hfo) as (? & ? & ?). lia.
  - intros o1 o2 f1 f2. rewrite Hobj.
    destruct (decide (o1 = this)) as [->|Hne1];
      destruct (decide (o2 = this)) as [->|Hne2]; try done.
    + rewrite lookup_insert_eq, lookup_insert_ne by done.
      intros [= <-] Hf2 _. destruct (Hb _ _ Hf2) as (? & ? & ?). lia.
    + rewrite lookup_insert_eq, lookup_insert_ne by done.
      intros Hf1 [= <-] _. destruct (Hb _ _ Hf1) as (? & ? & ?). lia.
    + rewrite !lookup_insert_ne by done. apply Hs.
  - apply map_eq. intros o. unfold View.ofStore. rewrite lookup_fmap, Hobj.
    destruct (decide (o = this)) as [->|Hne].
    + by rewrite !lookup_insert_eq.
    + rewrite !lookup_insert_ne, lookup_fmap by done.
      destruct (objects σ !! o) as [fo|] eqn:Hfo; [|done]. cbn. f_equal.
      destruct (Hb _ _ Hfo) as (? & ? & ?).
      unfold View.ofFields, pairsAt, cookiesAt.
      by rewrite Hpairs, Hcookies.
Qed.

(** [push] on the array of [this]: the other instances do not see it. *)
Lemma pushModified_effect (σ : Store.t) (this : nat) (x : Cookie.t) :
  wellFormed σ -> is_Some (objects σ !! this) ->
  exists σ', pushModified this x σ = (σ', Ok tt)
    /\ wellFormed σ'
    /\ View.ofStore σ'
       = <[this := View.mk (View.original (viewOf σ this))
                     (View.modified (viewOf σ this) ++ [x])]> (View.ofStore σ).
Proof.
  intros [Hb Hs] [f Hf]. eexists. split; [reflexivity|]. split.
  { split; [exact Hb|exact Hs]. }
  apply map_eq. intros o. unfold View.ofStore. rewrite lookup_fmap. cbn.
  rewrite (fieldsOf_lookup _ _ _ Hf).
  destruct (decide (o = this)) as [->|Hne].
  - rewrite lookup_insert_eq, Hf. cbn. f_equal.
    unfold View.ofFields, viewOf, pairsAt, cookiesAt. cbn.
    by rewrite lookup_insert_eq.
  - rewrite lookup_insert_ne, lookup_fmap by done.
    destruct (objects σ !! o) as [fo|] eqn:Hfo; [|done]. cbn. f_equal.
    destruct (Hs _ _ _ _ Hfo Hf Hne) as [_ Hsep].
    unfold View.ofFields, pairsAt, cookiesAt. cbn.
    by rewrite lookup_insert_ne.
Qed.

Lemma pushOriginal_effect (σ : Store.t) (this : nat) (x : KeyValuePair.t) :
  wellFormed σ -> is_Some (objects σ !! this) ->
  exists σ', pushOriginal this x σ = (σ', Ok tt)
    /\ wellFormed σ'
    /\ View.ofStore σ'
       = <[this := View.mk (View.original (viewOf σ this) ++ [x])
                     (View.modified (viewOf σ this))]> (View.ofStore σ).
Proof.
  intros [Hb Hs] [f Hf]. eexists. split; [reflexivity|]. split.
  { split; [exact Hb|exact Hs]. }
  apply map_eq. intros o. unfold View.ofStore. rewrite lookup_fmap. cbn.
  rewrite (fieldsOf_lookup _ _ _ Hf).
  destruct (decide (o = this)) as [->|Hne].
  - rewrite lookup_insert_eq, Hf. cbn. f_equal.
    unfold View.ofFields, viewOf, pairsAt, cookiesAt. cbn.
    by rewrite lookup_insert_eq.
  - rewrite lookup_insert_ne, lookup_fmap by done.
    destruct (objects σ !! o) as [fo|] eqn:Hfo; [|done]. cbn. f_equal.
    destruct (Hs _ _ _ _ Hfo Hf Hne) as [Hsep _].
    unfold View.ofFields, pairsAt, cookiesAt. cbn.
    by rewrite lookup_insert_ne.
Qed.

(** [removeInternal]: both arrays are replaced by filtered copies. *)
Lemma removeInternal_effect (σ : Store.t) (this : nat) (name : jsstring) :
  wellFormed σ -> is_Some (objects σ !! this) ->
  exists σ', CookieMap.removeInternal this name σ = (σ', Ok tt)
    /\ wellFormed σ'
    /\ View.ofStore σ'
       = <[this := View.mk
             (filter (fun cookie => KeyValuePair.key cookie <> name)
                (View.original (viewOf σ this)))
             (filter (fun cookie => Cookie.name cookie <> name)
                (View.modified (viewOf σ this)))]> (View.ofStore σ).
Proof.
  intros Hwf [f Hf].
  set (xs := filter (fun cookie => KeyValuePair.key cookie <> name)
               (View.original (viewOf σ this))).
  set (ys := filter (fun cookie => Cookie.name cookie <> name)
               (View.modified (viewOf σ this))).
  exists (mk (<[this := mkFields (next σ) (S (next σ))]> (objects σ))
            (<[next σ := xs]> (pairArrays σ))
            (<[S (next σ) := ys]> (cookieArrays σ)) (S (S (next σ)))).
  split.
  { unfold CookieMap.removeInternal, mbind, M_bind, readOriginal, readModified,
      allocPairs, allocCookies, setOriginal, setModified, fieldsOf, cookiesAt,
      pairsAt.
    cbn. rewrite !lookup_insert_eq. cbn. rewrite insert_insert_eq.
    reflexivity. }
  destruct (wf_bound _ Hwf _ _ Hf) as (? & ? & ?).
  match goal with
  | |- wellFormed ?s /\ _ =>
      assert (wellFormed s
              /\ View.ofStore s
                 = <[this := View.ofFields s (mkFields (next σ) (S (next σ)))]> (View.ofStore σ))
        as [Hw Hv]
  end.
  { apply fresh_arrays_effect; cbn; try done; try lia;
      intros a Ha; by rewrite lookup_insert_ne by lia. }
  split; [exact Hw|].
  rewrite Hv. f_equal.
    unfold View.ofFields, pairsAt, cookiesAt. cbn.
    by rewrite !lookup_insert_eq.
Qed.

(** [clear]: both arrays are replaced by empty ones. *)
Lemma clear_effect (σ : Store.t) (this : nat) :
  wellFormed σ -> is_Some (objects σ !! this) ->
  exists σ', CookieMap.clear this σ = (σ', Ok tt)
    /\ wellFormed σ'
    /\ View.ofStore σ' = <[this := View.mk [] []]> (View.ofStore σ).
Proof.
  intros Hwf [f Hf].
  exists (mk (<[this := mkFields (next σ) (S (next σ))]> (objects σ))
            (<[next σ := []]> (pairArrays σ))
            (<[S (next σ) := []]> (cookieArrays σ)) (S (S (next σ)))).
  split.
  { unfold CookieMap.clear, mbind, M_bind, allocPairs, allocCookies,
      setOriginal, setModified, fieldsOf.
    cbn. rewrite !lookup_insert_eq. cbn. rewrite insert_insert_eq.
    reflexivity. }
  destruct (wf_bound _ Hwf _ _ Hf) as (? & ? & ?).
  match goal with
  | |- wellFormed ?s /\ _ =>
      assert (wellFormed s
              /\ View.ofStore s
                 = <[this := View.ofFields s (mkFields (next σ) (S (next σ)))]> (View.ofStore σ))
        as [Hw Hv]
  end.
  { apply fresh_arrays_effect; cbn; try done; try lia;
      intros a Ha; by rewrite lookup_insert_ne by lia. }
  split; [exact Hw|].
  rewrite Hv. f_equal.
    unfold View.ofFields, pairsAt, cookiesAt. cbn.
    by rewrite !lookup_insert_eq.
Qed.

(** [new CookieMap()]: a new instance with two new empty arrays. *)
Lemma new_None_effect (σ : Store.t) :
  wellFormed σ ->
  exists σ', CookieMap.new None σ = (σ', Ok (S (S (next σ))))
    /\ wellFormed σ'
    /\ objects σ !! S (S (next σ)) = None
    /\ View.ofStore σ' = <[S (S (next σ)) := View.mk [] []]> (View.ofStore σ).
Proof.
  intros Hwf.
  exists (mk (<[S (S (next σ)) := mkFields (next σ) (S (next σ))]> (objects σ))
            (<[next σ := []]> (pairArrays σ))
            (<[S (next σ) := []]> (cookieArrays σ)) (S (S (S (next σ))))).
  split; [reflexivity|].
  assert (objects σ !! S (S (next σ)) = None) as Hfresh.
  { destruct (objects σ !! S (S (next σ))) as [f|] eqn:Hf; [|done].
    destruct (wf_bound _ Hwf _ _ Hf) as (? & ? & ?). lia. }
  match goal with
  | |- wellFormed ?s /\ _ =>
      assert (wellFormed s
              /\ View.ofStore s
                 = <[(S (S (next σ))) := View.ofFields s (mkFields (next σ) (S (next σ)))]> (View.ofStore σ))
        as [Hw Hv]
  end.
  { apply fresh_arrays_effect; cbn; try done; try lia;
      intros a Ha; by rewrite lookup_insert_ne by lia. }
  split; [exact Hw|].
  split; [done|]. rewrite Hv. f_equal.
    unfold View.ofFields, pairsAt, cookiesAt. cbn.
    by rewrite !lookup_insert_eq.
Qed.


Lemma view_eta (v : View.t) : View.mk (View.original v) (View.modified v) = v.
Proof. by destruct v. Qed.

(** A loop whose every turn appends pairs to [this.originalCookies]. *)
Lemma forOf_push_effect {A} (this : nat) (body : A -> M unit)
    (g : A -> list KeyValuePair.t) (xs : list A) :
  (forall x σ, wellFormed σ -> is_Some (objects σ !! this) ->
     exists σ', body x σ = (σ', Ok tt)
       /\ wellFormed σ'
       /\ View.ofStore σ'
          = <[this := View.mk (View.original (viewOf σ this) ++ g x)
                        (View.modified (viewOf σ this))]> (View.ofStore σ)) ->
  forall σ, wellFormed σ -> is_Some (objects σ !! this) ->
    exists σ', forOf xs body σ = (σ', Ok tt)
      /\ wellFormed σ'
      /\ View.ofStore σ'
         = <[this := View.mk (View.original (viewOf σ this) ++ concat (map g xs))
                       (View.modified (viewOf σ this))]> (View.ofStore σ).
Proof.
  intros Hbody. induction xs as [|x r IH]; intros σ Hwf Hthis.
  - exists σ. split; [done|]. split; [done|]. cbn [map concat].
    rewrite app_nil_r, view_eta. by apply ofStore_insert_id.
  - destruct (Hbody x σ Hwf Hthis) as (σ1 & Hrun1 & Hwf1 & Hv1).
    destruct (viewOf_insert _ _ _ _ Hv1) as [Hthis1 Hview1].
    destruct (IH σ1 Hwf1 Hthis1) as (σ2 & Hrun2 & Hwf2 & Hv2).
    exists σ2. split; [|split; [done|]].
    + cbn [forOf]. by rewrite (bind_Ok _ _ _ _ _ Hrun1).
    + rewrite Hv2, Hv1, insert_insert_eq, Hview1. cbn [View.original View.modified].
      cbn [map concat]. by rewrite app_assoc.
Qed.

Lemma mret_push_effect (σ : Store.t) (this : nat) :
  wellFormed σ -> is_Some (objects σ !! this) ->
  exists σ', (mret tt : M unit) σ = (σ', Ok tt)
    /\ wellFormed σ'
    /\ View.ofStore σ'
       = <[this := View.mk (View.original (viewOf σ this) ++ [])
                     (View.modified (viewOf σ this))]> (View.ofStore σ).
Proof.
  intros Hwf Hthis. exists σ. split; [done|]. split; [done|].
  rewrite app_nil_r, view_eta. by apply ofStore_insert_id.
Qed.

Lemma initialize_effect (σ : Store.t) (this : nat) (input : CookieMapInput) :
  wellFormed σ -> is_Some (objects σ !! this) ->
  exists σ', CookieMap.initialize this input σ = (σ', Ok tt)
    /\ wellFormed σ'
    /\ View.ofStore σ'
       = <[this := View.mk (View.original (viewOf σ this) ++ inputPairs (Some input))
                     (View.modified (viewOf σ this))]> (View.ofStore σ).
Proof.
  intros Hwf Hthis. destruct input as [s|entries|pairs]; cbn [CookieMap.initialize inputPairs].
  - unfold CookieMap.parseFromCookieString, headerPairs.
    destruct (negb (truthyStr (trim s))); [by apply mret_push_effect|].
    apply forOf_push_effect; [|done..].
    intros pair σ0 Hwf0 Hthis0. unfold headerPair.
    destruct (indexOf 61 pair =? -1)%Z; [by apply mret_push_effect|].
    destruct (negb (truthyStr (trim (substring pair 0 (indexOf 61 pair)))));
      [by apply mret_push_effect|].
    destruct (includes 37 s); [|by apply pushOriginal_effect].
    destruct (decodeURIComponent _); [|by apply pushOriginal_effect].
    destruct (decodeURIComponent _); by apply pushOriginal_effect.
  - rewrite <- (app_nil_r (map _ entries)).
    replace (map (fun '(key, value) => KeyValuePair.mk key value) entries ++ [])
      with (concat (map (fun '(key, value) => [KeyValuePair.mk key value]) entries)).
    2:{ rewrite app_nil_r. induction entries as [|[k v] r IH]; [done|].
        cbn. by rewrite IH. }
    unfold CookieMap.parseFromRecord. apply forOf_push_effect; [|done..].
    intros [k v] σ0 Hwf0 Hthis0. by apply pushOriginal_effect.
  - unfold CookieMap.parseFromArray. apply forOf_push_effect; [|done..].
    intros pair σ0 Hwf0 Hthis0. unfold arrayPair.
    destruct pair as [|k [|v [|? ?]]]; try by apply mret_push_effect.
    by apply pushOriginal_effect.
Qed.

(** [new CookieMap(input)] *)
Lemma new_effect (σ : Store.t) (input : option CookieMapInput) :
  wellFormed σ ->
  exists σ', CookieMap.new input σ = (σ', Ok (S (S (next σ))))
    /\ wellFormed σ'
    /\ objects σ !! S (S (next σ)) = None
    /\ View.ofStore σ'
       = <[S (S (next σ)) := View.mk (inputPairs input) []]> (View.ofStore σ).
Proof.
  intros Hwf. destruct input as [input|]; [|by apply new_None_effect].
  destruct (new_None_effect σ Hwf) as (σ0 & Hrun0 & Hwf0 & Hfresh & Hv0).
  destruct (viewOf_insert _ _ _ _ Hv0) as [Hthis0 Hview0].
  destruct (initialize_effect σ0 _ input Hwf0 Hthis0) as (σ1 & Hrun1 & Hwf1 & Hv1).
  exists σ1. split; [|split; [done|split; [done|]]].
  - unfold CookieMap.new, mbind, M_bind, allocPairs, allocCookies, allocObject in *.
    cbn in *. injection Hrun0 as <-. by rewrite Hrun1.
  - by rewrite Hv1, Hv0, insert_insert_eq, Hview0.
Qed.

End StoreEffects.

(** ** The reading methods, as functions of the contents *)

Section Observers.
Import Store Heap.

Lemma findIndexFrom_find {A} (p : A -> bool) (l : list A) (i : Z) :
  match List.find p l with
  | Some x => exists k, findIndexFrom p l i = (i + Z.of_nat k)%Z /\ l !! k = Some x
  | None => findIndexFrom p l i = (-1)%Z
  end.
Proof.
  revert i. induction l as [|y l IH]; intros i; cbn; [done|].
  destruct (p y).
  - exists 0%nat. split; [lia|done].
  - specialize (IH (i + 1)%Z). destruct (List.find p l); [|done].
    destruct IH as (k & Hk & Hl). exists (S k). split; [lia|done].
Qed.

Lemma readModified_view (σ : Store.t) (this : nat) :
  readModified this σ = (σ, Ok (View.modified (viewOf σ this))).
Proof. reflexivity. Qed.

Lemma readOriginal_view (σ : Store.t) (this : nat) :
  readOriginal this σ = (σ, Ok (View.original (viewOf σ this))).
Proof. reflexivity. Qed.

Lemma get_view (σ : Store.t) (this : nat) (name : jsstring) :
  CookieMap.get this name σ = (σ, Ok (Observe.get (viewOf σ this) name)).
Proof.
  unfold CookieMap.get, Observe.get.
  rewrite (bind_Ok _ _ _ _ _ (readModified_view σ this)).
  unfold findIndex.
  pose proof (findIndexFrom_find (fun cookie => strEq (Cookie.name cookie) name)
                (View.modified (viewOf σ this)) 0) as Hm.
  destruct (List.find _ (View.modified _)) as [cookie|].
  { destruct Hm as (k & -> & Hk).
    replace (0 + Z.of_nat k =? -1)%Z with false by (symmetry; apply Z.eqb_neq; lia).
    cbn [negb]. replace (Z.to_nat (0 + Z.of_nat k)) with k by lia.
    rewrite Hk. by destruct (truthyStr (Cookie.value cookie)). }
  rewrite Hm. change ((-1 =? -1)%Z) with true. cbn [negb].
  rewrite (bind_Ok _ _ _ _ _ (readOriginal_view σ this)).
  pose proof (findIndexFrom_find (fun cookie => strEq (KeyValuePair.key cookie) name)
                (View.original (viewOf σ this)) 0) as Ho.
  destruct (List.find _ (View.original _)) as [pair|].
  { destruct Ho as (k & -> & Hk).
    replace (0 + Z.of_nat k =? -1)%Z with false by (symmetry; apply Z.eqb_neq; lia).
    cbn [negb]. replace (Z.to_nat (0 + Z.of_nat k)) with k by lia.
    by rewrite Hk. }
  by rewrite Ho.
Qed.

Lemma has_view (σ : Store.t) (this : nat) (name : jsstring) :
  CookieMap.has this name σ
  = (σ, Ok (bool_decide (Observe.get (viewOf σ this) name <> None))).
Proof. unfold CookieMap.has. by rewrite (bind_Ok _ _ _ _ _ (get_view σ this name)). Qed.

(** Instances with the same contents answer alike. *)
Lemma sameObservations_view (σ1 σ2 : Store.t) (o1 o2 : nat) :
  viewOf σ1 o1 = viewOf σ2 o2 -> sameObservations σ1 o1 σ2 o2.
Proof.
  intros Hv. unfold sameObservations.
  split; [intros name; by rewrite !get_view, Hv|].
  split; [intros name; by rewrite !has_view, Hv|].
  unfold CookieMap.getAll, CookieMap.toJSON, CookieMap.getAllChanges,
    CookieMap.size, CookieMap.entries, CookieMap.keys, CookieMap.values,
    CookieMap.iterate, mbind, M_bind.
  rewrite !readModified_view, !readOriginal_view, Hv. done.
Qed.

End Observers.

(** ** [set], [delete] and [clone] *)

Section Mutations.
Import Store Heap.

(** [removeInternal(cookie.name)] followed by [push(cookie)]. *)
Lemma remove_push_effect (σ : Store.t) (this : nat) (cookie : Cookie.t) :
  wellFormed σ -> is_Some (objects σ !! this) ->
  exists σ',
    (CookieMap.removeInternal this (Cookie.name cookie);;
     pushModified this cookie) σ = (σ', Ok tt)
    /\ wellFormed σ'
    /\ View.ofStore σ' = <[this := setInView cookie (viewOf σ this)]> (View.ofStore σ).
Proof.
  intros Hwf Hthis.
  destruct (removeInternal_effect σ this (Cookie.name cookie) Hwf Hthis)
    as (σ1 & Hrun1 & Hwf1 & Hv1).
  destruct (viewOf_insert _ _ _ _ Hv1) as [Hthis1 Hview1].
  destruct (pushModified_effect σ1 this cookie Hwf1 Hthis1)
    as (σ2 & Hrun2 & Hwf2 & Hv2).
  exists σ2. split; [|split; [done|]].
  - by rewrite (bind_Ok _ _ _ _ _ Hrun1).
  - by rewrite Hv2, Hv1, insert_insert_eq, Hview1.
Qed.

Lemma set_cookie_effect (σ : Store.t) (this : nat) (cookie : Cookie.t)
    (value : option jsstring) :
  wellFormed σ -> is_Some (objects σ !! this) ->
  exists σ', CookieMap.set this (inr cookie) value σ = (σ', Ok tt)
    /\ wellFormed σ'
    /\ View.ofStore σ' = <[this := setInView cookie (viewOf σ this)]> (View.ofStore σ).
Proof. apply remove_push_effect. Qed.

Lemma set_name_effect (σ : Store.t) (this : nat) (name value : jsstring)
    (cookie : Cookie.t) :
  wellFormed σ -> is_Some (objects σ !! this) ->
  Cookie.create (CookieOptions.ofNameValue name value) = Ok cookie ->
  exists σ', CookieMap.set this (inl name) (Some value) σ = (σ', Ok tt)
    /\ wellFormed σ'
    /\ View.ofStore σ' = <[this := setInView cookie (viewOf σ this)]> (View.ofStore σ).
Proof.
  intros Hwf Hthis Hc. cbn [CookieMap.set].
  rewrite (bind_Ok _ _ σ σ cookie) by (unfold CookieMap.lift; by rewrite Hc).
  by apply remove_push_effect.
Qed.

Lemma create_name (options : CookieOptions.t) (cookie : Cookie.t) :
  Cookie.create options = Ok cookie ->
  Cookie.name cookie = CookieOptions.name options.
Proof.
  unfold Cookie.create, Cookie.new. repeat case_match; try done.
  by intros [= <-].
Qed.

(** [delete]: the answer is [has(name)] before the call; the store ends
    with the marker appended, or, when the marker cannot be constructed,
    with the name removed and the error thrown. *)
Lemma delete_effect (σ : Store.t) (this : nat)
    (nameOrOptions : jsstring + CookieStoreDeleteOptions.t) :
  wellFormed σ -> is_Some (objects σ !! this) ->
  let name := deleteName nameOrOptions in
  match Cookie.create (CookieMap.deleteOptions name (deleteDomain nameOrOptions)
                         (deletePath nameOrOptions)) with
  | Ok marker =>
      exists σ',
        CookieMap.delete this nameOrOptions σ
        = (σ', Ok (bool_decide (Observe.get (viewOf σ this) name <> None)))
        /\ wellFormed σ'
        /\ View.ofStore σ'
           = <[this := setInView marker (viewOf σ this)]> (View.ofStore σ)
  | Throw e =>
      exists σ',
        CookieMap.delete this nameOrOptions σ = (σ', Throw e)
        /\ wellFormed σ'
        /\ View.ofStore σ'
           = <[this := removeFromView name (viewOf σ this)]> (View.ofStore σ)
  end.
Proof.
  intros Hwf Hthis name.
  destruct (removeInternal_effect σ this name Hwf Hthis)
    as (σ1 & Hrun1 & Hwf1 & Hv1).
  destruct (viewOf_insert _ _ _ _ Hv1) as [Hthis1 Hview1].
  change (CookieMap.delete this nameOrOptions)
    with (hadCookie ← CookieMap.has this name;
          CookieMap.removeInternal this name;;
          deleteCookie ← CookieMap.lift
            (Cookie.create (CookieMap.deleteOptions name (deleteDomain nameOrOptions)
                              (deletePath nameOrOptions)));
          pushModified this deleteCookie;;
          mret hadCookie).
  destruct (Cookie.create _) as [marker|e] eqn:Hc.
  - destruct (pushModified_effect σ1 this marker Hwf1 Hthis1)
      as (σ2 & Hrun2 & Hwf2 & Hv2).
    exists σ2. split; [|split; [done|]].
    + rewrite (bind_Ok _ _ _ _ _ (has_view σ this name)).
      rewrite (bind_Ok _ _ _ _ _ Hrun1).
      rewrite (bind_Ok _ _ σ1 σ1 marker) by done.
      by rewrite (bind_Ok _ _ _ _ _ Hrun2).
    + rewrite Hv2, Hv1, insert_insert_eq, Hview1. unfold setInView.
      by rewrite (create_name _ _ Hc).
  - exists σ1. split; [|split; [done|]].
    + rewrite (bind_Ok _ _ _ _ _ (has_view σ this name)).
      rewrite (bind_Ok _ _ _ _ _ Hrun1).
      by apply bind_Throw.
    + done.
Qed.

(** [clone]: a new instance with copies of both arrays. *)
Lemma clone_effect (σ : Store.t) (this : nat) :
  wellFormed σ -> is_Some (objects σ !! this) ->
  exists σ', CookieMap.clone this σ = (σ', Ok (S (S (next σ))))
    /\ wellFormed σ'
    /\ objects σ !! S (S (next σ)) = None
    /\ View.ofStore σ' = <[S (S (next σ)) := viewOf σ this]> (View.ofStore σ).
Proof.
  intros Hwf [f Hf].
  destruct (wf_bound _ Hwf _ _ Hf) as (? & ? & ?).
  assert (objects σ !! S (S (next σ)) = None) as Hfresh.
  { destruct (objects σ !! S (S (next σ))) as [f'|] eqn:Hf'; [|done].
    destruct (wf_bound _ Hwf _ _ Hf') as (? & ? & ?). lia. }
  exists (mk (<[S (S (next σ)) := mkFields (3 + next σ) (4 + next σ)]> (objects σ))
            (<[3 + next σ := View.original (viewOf σ this)]>
               (<[next σ := []]> (pairArrays σ)))
            (<[4 + next σ := View.modified (viewOf σ this)]>
               (<[S (next σ) := []]> (cookieArrays σ)))
            (5 + next σ))%nat.
  split.
  { unfold CookieMap.clone, CookieMap.new, mbind, M_bind, readOriginal,
      readModified, allocPairs, allocCookies, allocObject, setOriginal,
      setModified, mret, M_ret, viewOf, View.ofFields, fieldsOf, cookiesAt, pairsAt.
    cbn. rewrite !lookup_insert_eq. cbn.
    rewrite !(lookup_insert_ne _ (S (S (next σ))) this) by lia.
    rewrite Hf. cbn. rewrite !insert_insert_eq.
    rewrite (lookup_insert_ne _ (next σ)), (lookup_insert_ne _ (S (next σ))) by lia.
    reflexivity. }
  match goal with
  | |- wellFormed ?s /\ _ =>
      assert (wellFormed s
              /\ View.ofStore s
                 = <[S (S (next σ))
                     := View.ofFields s (mkFields (3 + next σ) (4 + next σ))]>
                     (View.ofStore σ))
        as [Hw Hv]
  end.
  { apply fresh_arrays_effect; cbn; try done; try lia;
      intros a Ha; by rewrite !lookup_insert_ne by lia. }
  split; [exact Hw|]. split; [done|]. rewrite Hv. f_equal.
  unfold View.ofFields, pairsAt, cookiesAt. cbn.
  rewrite !lookup_insert_eq. reflexivity.
Qed.

End Mutations.

(** ** Names in the two sequences *)

Section Names.

Lemma map_filter_ne {A} (f : A -> jsstring) (name : jsstring) (l : list A) :
  map f (filter (fun x => f x <> name) l) = filter (fun y => y <> name) (map f l).
Proof.
  induction l as [|x l IH]; [done|]. cbn [map].
  rewrite !filter_cons. destruct (decide (f x <> name)); cbn [map]; by rewrite IH.
Qed.

Lemma names_remove (name : jsstring) (v : View.t) :
  View.names (removeFromView name v) = filter (fun y => y <> name) (View.names v).
Proof.
  unfold View.names, removeFromView. cbn [View.original View.modified].
  by rewrite !map_filter_ne, filter_app.
Qed.

Lemma names_set (cookie : Cookie.t) (v : View.t) :
  View.names (setInView cookie v)
  = filter (fun y => y <> Cookie.name cookie) (View.names v) ++ [Cookie.name cookie].
Proof.
  unfold View.names, setInView, removeFromView. cbn [View.original View.modified].
  by rewrite map_app, !map_filter_ne, filter_app, app_assoc.
Qed.

Lemma modifiedUnique_remove (name : jsstring) (v : View.t) :
  modifiedUnique v -> modifiedUnique (removeFromView name v).
Proof.
  intros [Hnd Hdis]. unfold modifiedUnique, removeFromView.
  cbn [View.original View.modified]. split.
  - rewrite map_filter_ne. by apply NoDup_filter.
  - intros pair cookie [_ Hp]%list_elem_of_filter [_ Hc]%list_elem_of_filter.
    by apply Hdis.
Qed.

Lemma modifiedUnique_set (cookie : Cookie.t) (v : View.t) :
  modifiedUnique v -> modifiedUnique (setInView cookie v).
Proof.
  intros [Hnd Hdis]. unfold modifiedUnique, setInView, removeFromView.
  cbn [View.original View.modified]. split.
  - rewrite map_app, map_filter_ne. cbn [map]. apply NoDup_app.
    split; [by apply NoDup_filter|]. split; [|apply NoDup_singleton].
    intros y [Hy _]%list_elem_of_filter ->%list_elem_of_singleton. done.
  - intros pair c [Hp Hin]%list_elem_of_filter [[_ Hc]%list_elem_of_filter| ->%list_elem_of_singleton]%elem_of_app.
    + by apply Hdis.
    + done.
Qed.

Lemma modifiedUnique_fresh (xs : list KeyValuePair.t) : modifiedUnique (View.mk xs []).
Proof.
  split; cbn; [apply NoDup_nil_2|]. intros pair cookie _ Hc.
  by apply not_elem_of_nil in Hc.
Qed.

Lemma namesUnique_remove (name : jsstring) (v : View.t) :
  namesUnique v -> namesUnique (removeFromView name v).
Proof. unfold namesUnique. rewrite names_remove. apply NoDup_filter. Qed.

Lemma namesUnique_set (cookie : Cookie.t) (v : View.t) :
  namesUnique v -> namesUnique (setInView cookie v).
Proof.
  unfold namesUnique. rewrite names_set. intros Hnd. apply NoDup_app.
  split; [by apply NoDup_filter|]. split; [|apply NoDup_singleton].
  intros y [Hy _]%list_elem_of_filter ->%list_elem_of_singleton. done.
Qed.

Lemma namesUnique_fresh (xs : list KeyValuePair.t) :
  namesUnique (View.mk xs []) <-> NoDup (map KeyValuePair.key xs).
Proof. unfold namesUnique, View.names. cbn. by rewrite app_nil_r. Qed.

(** After [set] or [delete] the name is there once. *)
Lemma names_set_once (cookie : Cookie.t) (v : View.t) :
  exists others,
    View.names (setInView cookie v) = others ++ [Cookie.name cookie]
    /\ Cookie.name cookie ∉ others.
Proof.
  eexists. split; [apply names_set|].
  by intros [Hne _]%list_elem_of_filter.
Qed.

End Names.

(** ** Reachable stores *)

Section Reachable.
Import Store Heap.

Lemma applyMutation_effect (σ : Store.t) (this : nat) (m : mutation) :
  wellFormed σ -> is_Some (objects σ !! this) ->
  wellFormed (applyMutation this m σ)
  /\ exists v', viewStep (viewOf σ this) v'
       /\ View.ofStore (applyMutation this m σ) = <[this := v']> (View.ofStore σ).
Proof.
  intros Hwf Hthis.
  assert (wellFormed σ
          /\ exists v', viewStep (viewOf σ this) v'
               /\ View.ofStore σ = <[this := v']> (View.ofStore σ)) as Hsame.
  { split; [done|]. eexists. split; [apply viewStep_same|].
    by apply ofStore_insert_id. }
  destruct m as [[name|cookie] value|nameOrOptions|]; cbn [applyMutation].
  - destruct value as [value|]; [|exact Hsame].
    destruct (Cookie.create (CookieOptions.ofNameValue name value))
      as [cookie|e] eqn:Hc.
    + destruct (set_name_effect σ this name value cookie Hwf Hthis Hc)
        as (σ' & -> & Hwf' & Hv').
      split; [done|]. eexists. split; [apply viewStep_set|done].
    + cbn [CookieMap.set]. unfold mbind, M_bind, CookieMap.lift. rewrite Hc.
      exact Hsame.
  - destruct (set_cookie_effect σ this cookie value Hwf Hthis)
      as (σ' & -> & Hwf' & Hv').
    split; [done|]. eexists. split; [apply viewStep_set|done].
  - pose proof (delete_effect σ this nameOrOptions Hwf Hthis) as Hd.
    cbv zeta in Hd. destruct (Cookie.create _) as [marker|e].
    + destruct Hd as (σ' & -> & Hwf' & Hv').
      split; [done|]. eexists. split; [apply viewStep_set|done].
    + destruct Hd as (σ' & -> & Hwf' & Hv').
      split; [done|]. eexists. split; [apply viewStep_remove|done].
  - destruct (clear_effect σ this Hwf Hthis) as (σ' & -> & Hwf' & Hv').
    split; [done|]. eexists. split; [apply viewStep_clear|done].
Qed.

(** A mutation of one instance is not seen by another. *)
Lemma applyMutations_frame (σ : Store.t) (this other : nat) (ms : list mutation) :
  wellFormed σ -> is_Some (objects σ !! this) -> is_Some (objects σ !! other) ->
  other <> this ->
  wellFormed (applyMutations this ms σ)
  /\ is_Some (objects (applyMutations this ms σ) !! this)
  /\ is_Some (objects (applyMutations this ms σ) !! other)
  /\ viewOf (applyMutations this ms σ) other = viewOf σ other.
Proof.
  revert σ. induction ms as [|m ms IH]; intros σ Hwf Hthis Hother Hne; [done|].
  change (applyMutations this (m :: ms) σ)
    with (applyMutations this ms (applyMutation this m σ)).
  destruct (applyMutation_effect σ this m Hwf Hthis) as (Hwf' & v' & _ & Hv').
  destruct (viewOf_insert _ _ _ _ Hv') as [Hthis' _].
  destruct (viewOf_insert_ne _ _ _ _ _ Hv' Hne Hother) as [Hother' Hview'].
  destruct (IH _ Hwf' Hthis' Hother' Hne) as (? & ? & ? & Hview).
  split; [done|]. split; [done|]. split; [done|].
  etrans; [exact Hview|exact Hview'].
Qed.

Lemma applyCall_effect (σ : Store.t) (c : call) :
  wellFormed σ -> callable σ c ->
  wellFormed (applyCall c σ)
  /\ exists o v',
       View.ofStore (applyCall c σ) = <[o := v']> (View.ofStore σ)
       /\ match c with
          | DoNew input => v' = View.mk (inputPairs input) []
          | DoClone this => v' = viewOf σ this
          | DoMutate this m => o = this /\ viewStep (viewOf σ this) v'
          end.
Proof.
  intros Hwf Hcall. destruct c as [input|this|this m]; cbn [applyCall callable] in *.
  - destruct (new_effect σ input Hwf) as (σ' & -> & Hwf' & _ & Hv').
    split; [done|]. by eexists _, _.
  - destruct (clone_effect σ this Hwf Hcall) as (σ' & -> & Hwf' & _ & Hv').
    split; [done|]. by eexists _, _.
  - destruct (applyMutation_effect σ this m Hwf Hcall) as (Hwf' & v' & Hstep & Hv').
    split; [done|]. by eexists _, _.
Qed.

Lemma viewStep_modifiedUnique (v v' : View.t) :
  viewStep v v' -> modifiedUnique v -> modifiedUnique v'.
Proof.
  destruct 1; intros Hv; [done| | |].
  - by apply modifiedUnique_remove.
  - by apply modifiedUnique_set.
  - apply modifiedUnique_fresh.
Qed.

Lemma viewStep_namesUnique (v v' : View.t) :
  viewStep v v' -> namesUnique v -> namesUnique v'.
Proof.
  destruct 1; intros Hv; [done| | |].
  - by apply namesUnique_remove.
  - by apply namesUnique_set.
  - apply namesUnique_fresh. cbn. apply NoDup_nil_2.
Qed.

Lemma reachable_invariant (P : option CookieMapInput -> Prop) (σ : Store.t) :
  reachable P σ ->
  wellFormed σ
  /\ forall o v, View.ofStore σ !! o = Some v ->
       modifiedUnique v
       /\ ((forall input, P input -> distinctInput input) -> namesUnique v).
Proof.
  induction 1 as [|σ c Hreach [Hwf IH] Hcall Hin].
  { split; [apply wellFormed_empty|]. intros o v.
    unfold View.ofStore. cbn. by rewrite fmap_empty, lookup_empty. }
  destruct (applyCall_effect σ c Hwf Hcall) as (Hwf' & o' & v' & Hv' & Hc).
  split; [done|]. intros o v. rewrite Hv'.
  destruct (decide (o' = o)) as [->|Hne]; [|rewrite lookup_insert_ne by done; apply IH].
  rewrite lookup_insert_eq. intros [= <-].
  destruct c as [input|this|this m]; cbn [callable inputsSatisfy] in *.
  - subst v'. split; [apply modifiedUnique_fresh|].
    intros HP. apply namesUnique_fresh. by apply HP.
  - subst v'. apply (IH this). by apply ofStore_lookup.
  - destruct Hc as [-> Hstep].
    destruct (IH this (viewOf σ this) (ofStore_lookup _ _ Hcall)) as [Hm Hn].
    split; [by eapply viewStep_modifiedUnique|].
    intros HP. eapply viewStep_namesUnique; [done|]. by apply Hn.
Qed.

End Reachable.

(** ** Names occur once *)

(** C2, as amended.  In every collection reachable through the public
    interface (constructions, [set], [delete], [clear], [clone]), no name
    occurs twice in the modified sequence and no name occurs in both
    sequences; the original sequence holds the pairs of the input as they
    were given, so each name occurs at most once across original and
    modified whenever no constructor input repeated a name; and after
    [set(cookie)] the name of the cookie occurs exactly once. *)
Theorem reachable_names_unique
    (P : option CookieMapInput -> Prop) (σ : Store.t) (this : nat) (v : View.t) :
  reachable P σ -> View.ofStore σ !! this = Some v ->
  modifiedUnique v
  /\ ((forall input, P input -> distinctInput input) -> namesUnique v)
  /\ (forall cookie value, exists others,
        View.names (viewOf (applyMutation this (DoSet (inr cookie) value) σ) this)
        = others ++ [Cookie.name cookie]
        /\ Cookie.name cookie ∉ others).
Proof.
  intros Hreach Hv. destruct (reachable_invariant P σ Hreach) as [Hwf Hinv].
  destruct (Hinv this v Hv) as [Hm Hn]. split; [done|]. split; [done|].
  intros cookie value.
  assert (is_Some (Store.objects σ !! this)) as Hthis.
  { apply ofStore_is_Some. rewrite Hv. by eexists. }
  destruct (set_cookie_effect σ this cookie value Hwf Hthis) as (σ' & Hrun & _ & Hv').
  cbn [applyMutation]. rewrite Hrun. cbn [fst].
  destruct (viewOf_insert _ _ _ _ Hv') as [_ ->]. apply names_set_once.
Qed.

(** The collection built from [a=1; b=2] after [set("a", "2")]. *)
Lemma reachable_names_unique_witness :
  let σ := applyCall (DoMutate 2 (DoSet (inl (str "a")) (Some (str "2"))))
             (applyCall (DoNew (Some (InputString (str "a=1; b=2")))) Store.empty) in
  let v := View.mk [KeyValuePair.mk (str "b") (str "2")]
             [Cookie.mk (str "a") (str "2") [] (str "/") (Num (-1)) false Lax false
                NaN false] in
  reachable distinctInput σ
  /\ View.ofStore σ !! 2%nat = Some v
  /\ modifiedUnique v
  /\ ((forall input, distinctInput input -> distinctInput input) -> namesUnique v)
  /\ (forall cookie value, exists others,
        View.names (viewOf (applyMutation 2 (DoSet (inr cookie) value) σ) 2)
        = others ++ [Cookie.name cookie]
        /\ Cookie.name cookie ∉ others).
Proof.
  cbv zeta.
  assert (reachable distinctInput
            (applyCall (DoMutate 2 (DoSet (inl (str "a")) (Some (str "2"))))
               (applyCall (DoNew (Some (InputString (str "a=1; b=2")))) Store.empty)))
    as Hreach.
  { apply reachable_call; [apply reachable_call; [apply reachable_empty|exact I|]| |exact I].
    - apply (bool_decide_unpack _). vm_compute. exact I.
    - apply (bool_decide_unpack _). vm_compute. exact I. }
  assert (View.ofStore
            (applyCall (DoMutate 2 (DoSet (inl (str "a")) (Some (str "2"))))
               (applyCall (DoNew (Some (InputString (str "a=1; b=2")))) Store.empty))
          !! 2%nat
          = Some (View.mk [KeyValuePair.mk (str "b") (str "2")]
                    [Cookie.mk (str "a") (str "2") [] (str "/") (Num (-1)) false Lax
                       false NaN false])) as Hv.
  { vm_compute. reflexivity. }
  split; [exact Hreach|]. split; [exact Hv|].
  exact (reachable_names_unique distinctInput _ 2%nat _ Hreach Hv).
Defined.

(** C2 as stated fails: the collection built from [a=1; a=2] holds the
    name [a] twice, and so does the one built from the pair list
    [[a, 1], [a, 2]]. *)
Lemma constructor_keeps_repeated_name_counterexample :
  let σ := applyCall (DoNew (Some (InputString (str "a=1; a=2")))) Store.empty in
  let τ := applyCall (DoNew (Some (InputArray [[str "a"; str "1"]; [str "a"; str "2"]])))
             Store.empty in
  let v := View.mk [KeyValuePair.mk (str "a") (str "1");
                    KeyValuePair.mk (str "a") (str "2")] [] in
  reachable (fun _ => True) σ
  /\ View.ofStore σ !! 2%nat = Some v
  /\ reachable (fun _ => True) τ
  /\ View.ofStore τ !! 2%nat = Some v
  /\ View.names v = [str "a"; str "a"]
  /\ ~ NoDup (View.names v).
Proof.
  cbv zeta.
  split; [apply reachable_call; [apply reachable_empty|exact I|exact I]|].
  split; [vm_compute; reflexivity|].
  split; [apply reachable_call; [apply reachable_empty|exact I|exact I]|].
  split; [vm_compute; reflexivity|].
  split; [reflexivity|].
  intros Hnd. apply NoDup_cons in Hnd as [Hnotin _]. apply Hnotin. left.
Qed.

(** ** [get] *)

(** C4.  [get(name)] looks in the modified sequence first: when it has an
    entry of that name, the answer is the value of the first such entry,
    or absent when that value is the empty string, whatever the original
    sequence holds; only without such an entry is the original sequence
    consulted.  For the collection built from [a=1] followed by
    [set("a", "2")], [get("a")] is ["2"] and [toJSON()] is [{a: "2"}]. *)
Theorem get_consults_modified_first :
  (forall (σ : Store.t) (this : nat) (name : jsstring) (cookie : Cookie.t),
      List.find (fun c => strEq (Cookie.name c) name) (View.modified (viewOf σ this))
      = Some cookie ->
      Cookie.name cookie = name
      /\ cookie ∈ View.modified (viewOf σ this)
      /\ CookieMap.get this name σ
         = (σ, Ok (if strEq (Cookie.value cookie) [] then None
                   else Some (Cookie.value cookie))))
  /\ (forall (σ : Store.t) (this : nat) (name : jsstring),
        List.find (fun c => strEq (Cookie.name c) name) (View.modified (viewOf σ this))
        = None ->
        (forall c, c ∈ View.modified (viewOf σ this) -> Cookie.name c <> name)
        /\ CookieMap.get this name σ
           = (σ, Ok (KeyValuePair.value
                       <$> List.find (fun p => strEq (KeyValuePair.key p) name)
                             (View.original (viewOf σ this)))))
  /\ snd ((c ← CookieMap.new (Some (InputString (str "a=1")));
           CookieMap.set c (inl (str "a")) (Some (str "2"));;
           value ← CookieMap.get c (str "a");
           json ← CookieMap.toJSON c;
           mret (value, json)) Store.empty)
     = Ok (Some (str "2"), {[ str "a" := str "2" ]}).
Proof.
  split; [|split].
  - intros σ this name cookie Hfind. rewrite get_view. unfold Observe.get.
    rewrite Hfind. apply find_some in Hfind as [Hin Hname].
    apply strEq_true in Hname. split; [done|].
    split; [by apply list_elem_of_In|].
    by destruct (Cookie.value cookie).
  - intros σ this name Hfind. rewrite get_view. unfold Observe.get.
    rewrite Hfind. split; [|done].
    intros c Hc Hname. apply list_elem_of_In in Hc.
    pose proof (find_none _ _ Hfind c Hc) as Hne. cbn beta in Hne.
    apply strEq_false in Hne. done.
  - vm_compute. reflexivity.
Qed.

(** ** [delete] *)

Section Delete.
Import Store Heap.

Lemma find_app_none {A} (p : A -> bool) (l1 l2 : list A) :
  List.find p l1 = None -> List.find p (l1 ++ l2) = List.find p l2.
Proof.
  induction l1 as [|x l1 IH]; [done|]. cbn. destruct (p x); [done|]. exact IH.
Qed.






End Delete.


(** The same call sequence, run as a program. *)
Lemma delete_example :
  snd ((c ← CookieMap.new (Some (InputString (str "a=1")));
        deleted ← CookieMap.delete c (inl (str "a"));
        present ← CookieMap.has c (str "a");
        changes ← CookieMap.getAllChanges c;
        again ← CookieMap.delete c (inl (str "b"));
        mret (deleted, present, changes, again)) Store.empty)
  = Ok (true, false,
        [Cookie.mk (str "a") [] [] (str "/") (Num 1) false Lax false NaN false],
        false).
Proof. vm_compute. reflexivity. Qed.

(** ** Construction from a header string *)

(** C7.  The constructor never throws on a header string: it stores, for
    each segment with an [=] and a non-empty trimmed name, one pair.  The
    pair is decoded only when the whole string holds a [%]: then it is the
    decoded name and value when both decode, and the raw trimmed name and
    value when either fails; without a [%] anywhere it is the raw trimmed
    name and value.  The collection built from [name=hello%20world]
    answers [hello world] for [name]; the one built from [name=100%;x=1]
    is constructed and holds [100%] for [name]. *)
Theorem constructor_decodes_behind_percent_gate :
  (forall (σ : Store.t) (s : jsstring),
      wellFormed σ ->
      exists σ',
        CookieMap.new (Some (InputString s)) σ = (σ', Ok (S (S (Store.next σ))))
        /\ viewOf σ' (S (S (Store.next σ))) = View.mk (headerPairs s) [])
  /\ (forall s : jsstring,
        headerPairs s
        = if truthyStr (trim s)
          then concat (map (headerPair (includes 37 s)) (split 59 s))
          else [])
  /\ (forall pair : jsstring,
        keptSegment pair = false ->
        headerPair true pair = [] /\ headerPair false pair = [])
  /\ (forall pair : jsstring,
        keptSegment pair = true ->
        headerPair false pair = [KeyValuePair.mk (rawName pair) (rawValue pair)]
        /\ (forall name value,
              decodeURIComponent (rawName pair) = Some name ->
              decodeURIComponent (rawValue pair) = Some value ->
              headerPair true pair = [KeyValuePair.mk name value])
        /\ (decodeURIComponent (rawName pair) = None
            \/ decodeURIComponent (rawValue pair) = None ->
            headerPair true pair = [KeyValuePair.mk (rawName pair) (rawValue pair)]))
  /\ snd ((c ← CookieMap.new (Some (InputString (str "name=hello%20world")));
           CookieMap.get c (str "name")) Store.empty)
     = Ok (Some (str "hello world"))
  /\ snd ((c ← CookieMap.new (Some (InputString (str "name=100%;x=1")));
           CookieMap.getAll c) Store.empty)
     = Ok [KeyValuePair.mk (str "name") (str "100%");
           KeyValuePair.mk (str "x") (str "1")]
  /\ snd ((c ← CookieMap.new (Some (InputString (str "%41=100%; %42=2")));
           CookieMap.getAll c) Store.empty)
     = Ok [KeyValuePair.mk (str "%41") (str "100%");
           KeyValuePair.mk (str "B") (str "2")].
Proof.
  split.
  { intros σ s Hwf.
    destruct (new_effect σ (Some (InputString s)) Hwf) as (σ' & Hrun & _ & _ & Hv').
    exists σ'. split; [exact Hrun|].
    destruct (viewOf_insert _ _ _ _ Hv') as [_ Hview]. exact Hview. }
  split.
  { intros s. unfold headerPairs. by destruct (truthyStr (trim s)). }
  split.
  { intros pair. unfold keptSegment, headerPair, rawName.
    destruct (indexOf 61 pair =? -1)%Z; [done|]. cbn [negb andb].
    by intros ->. }
  split.
  { intros pair. unfold keptSegment, headerPair, rawName, rawValue.
    destruct (indexOf 61 pair =? -1)%Z; [done|]. cbn [negb andb].
    intros ->. cbn [negb]. split; [done|]. split.
    - by intros name value -> ->.
    - intros [-> | Hv]; [done|]. rewrite Hv. clear Hv.
      by destruct (decodeURIComponent _). }
  repeat split; vm_compute; reflexivity.
Qed.

(** ** [clone] *)

(** C9.  [clone()] on a collection of a reachable store returns another
    instance that answers every reading method ([get], [has], [getAll],
    [toJSON], [getAllChanges], [size], iteration and its projections) as
    the receiver does, and leaves the receiver's answers as they were;
    afterwards no sequence of [set], [delete] and [clear] on the clone
    changes an answer of the receiver, and none on the receiver changes an
    answer of the clone. *)
Theorem clone_is_independent
    (P : option CookieMapInput -> Prop) (σ : Store.t) (c : nat) :
  reachable P σ -> is_Some (Store.objects σ !! c) ->
  exists σ1 c',
    CookieMap.clone c σ = (σ1, Ok c')
    /\ c' <> c
    /\ sameObservations σ1 c' σ c
    /\ sameObservations σ1 c σ c
    /\ (forall ms, sameObservations (applyMutations c' ms σ1) c σ1 c)
    /\ (forall ms, sameObservations (applyMutations c ms σ1) c' σ1 c').
Proof.
  intros Hreach Hc. destruct (reachable_invariant P σ Hreach) as [Hwf _].
  destruct (clone_effect σ c Hwf Hc) as (σ1 & Hrun & Hwf1 & Hfresh & Hv1).
  set (c' := S (S (Store.next σ))) in *.
  assert (c <> c') as Hne.
  { intros ->. rewrite Hfresh in Hc. by destruct Hc. }
  destruct (viewOf_insert _ _ _ _ Hv1) as [Hc'1 Hview'].
  destruct (viewOf_insert_ne _ _ _ _ _ Hv1 Hne Hc) as [Hc1 Hview].
  exists σ1, c'. split; [exact Hrun|]. split; [done|].
  split; [by apply sameObservations_view|].
  split; [by apply sameObservations_view|].
  split; intros ms; apply sameObservations_view.
  - by destruct (applyMutations_frame σ1 c' c ms Hwf1 Hc'1 Hc1 Hne) as (_ & _ & _ & ?).
  - by destruct (applyMutations_frame σ1 c c' ms Hwf1 Hc1 Hc'1 (not_eq_sym Hne))
      as (_ & _ & _ & ?).
Qed.

(** The collection built from [name=value] and its clone. *)
Lemma clone_is_independent_witness :
  let σ := applyCall (DoNew (Some (InputString (str "name=value")))) Store.empty in
  reachable (fun _ => True) σ
  /\ is_Some (Store.objects σ !! 2%nat)
  /\ exists σ1 c',
      CookieMap.clone 2 σ = (σ1, Ok c')
      /\ c' <> 2%nat
      /\ sameObservations σ1 c' σ 2
      /\ sameObservations σ1 2 σ 2
      /\ (forall ms, sameObservations (applyMutations c' ms σ1) 2 σ1 2)
      /\ (forall ms, sameObservations (applyMutations 2 ms σ1) c' σ1 c').
Proof.
  cbv zeta.
  assert (reachable (fun _ => True)
            (applyCall (DoNew (Some (InputString (str "name=value")))) Store.empty))
    as Hreach by (apply reachable_call; [apply reachable_empty|exact I|exact I]).
  assert (is_Some (Store.objects
                     (applyCall (DoNew (Some (InputString (str "name=value"))))
                        Store.empty) !! 2%nat)) as Hc
    by (vm_compute; by eexists).
  split; [exact Hreach|]. split; [exact Hc|].
  exact (clone_is_independent (fun _ => True) _ 2%nat Hreach Hc).
Defined.

(** The test of the repository: a [set] on the clone is not seen by the
    original, and a [delete] on the original is not seen by the clone. *)
Lemma clone_example :
  snd ((original ← CookieMap.new (Some (InputString (str "name=value")));
        clone ← CookieMap.clone original;
        CookieMap.set clone (inl (str "name2")) (Some (str "value2"));;
        a ← CookieMap.has original (str "name2");
        b ← CookieMap.has clone (str "name2");
        _ ← CookieMap.delete original (inl (str "name"));
        c ← CookieMap.has original (str "name");
        d ← CookieMap.has clone (str "name");
        mret (a, b, c, d)) Store.empty)
  = Ok (false, true, false, true).
Proof. vm_compute. reflexivity. Qed.

(** * Further properties *)

(** ** [decodeURIComponent] after [encodeURIComponent] *)

Section UriRoundTrip.
#[local] Ltac Zify.zify_post_hook ::= Z.to_euclidean_division_equations.

Lemma hexValue_hexDigit (n : N) : n < 16 -> hexValue (hexDigit n) = Some n.
Proof.
  intros Hn. unfold hexValue, hexDigit, isDigit.
  destruct (N.ltb_spec n 10).
  - replace ((48 <=? 48 + n) && (48 + n <=? 57)) with true
      by (symmetry; apply andb_true_iff; split; apply N.leb_le; lia).
    f_equal. lia.
  - replace ((48 <=? 55 + n) && (55 + n <=? 57)) with false
      by (symmetry; apply andb_false_iff; right; apply N.leb_gt; lia).
    replace ((65 <=? 55 + n) && (55 + n <=? 70)) with true
      by (symmetry; apply andb_true_iff; split; apply N.leb_le; lia).
    f_equal. lia.
Qed.

(** The escapes of octets are read back as the octets. *)
Lemma uriTokens_pctAll (bs : list N) (rest : jsstring) :
  Forall (fun b => b < 256) bs ->
  uriTokens (pctAll bs ++ rest) = app (map Octet bs) <$> uriTokens rest.
Proof.
  induction 1 as [|b bs Hb _ IH].
  { cbn. by destruct (uriTokens rest). }
  change (pctAll (b :: bs) ++ rest)
    with (37 :: hexDigit ((b / 16) mod 16) :: hexDigit (b mod 16)
             :: (pctAll bs ++ rest)).
  cbn [uriTokens]. rewrite N.eqb_refl.
  rewrite !hexValue_hexDigit by lia. rewrite IH.
  replace (16 * ((b / 16) mod 16) + b mod 16) with b by lia.
  by destruct (uriTokens rest).
Qed.

Lemma utf8_octets (cp : N) : cp < 0x110000 -> Forall (fun b => b < 256) (utf8 cp).
Proof.
  intros Hcp. unfold utf8.
  destruct (N.ltb_spec cp 0x80); [repeat constructor; lia|].
  destruct (N.ltb_spec cp 0x800); [repeat constructor; lia|].
  destruct (N.ltb_spec cp 0x10000); repeat constructor; lia.
Qed.

Ltac bool_true := 
  repeat (apply andb_true_iff; split);
  rewrite ?N.leb_le, ?N.ltb_lt, ?negb_true_iff, ?andb_false_iff, ?N.leb_gt; try lia.

(** The octets of a scalar value are decoded to its code units. *)
Lemma decodeTokens_utf8 (cp : N) (ts : list uriToken) :
  cp < 0x110000 -> ~ (0xD800 <= cp <= 0xDFFF) ->
  decodeTokens (map Octet (utf8 cp) ++ ts) = app (utf16 cp) <$> decodeTokens ts.
Proof.
  intros Hcp Hsur. unfold utf8.
  destruct (N.ltb_spec cp 0x80) as [H1|H1].
  { cbn [map app decodeTokens]. destruct (N.ltb_spec cp 0x80); [|lia].
    unfold utf16. destruct (N.ltb_spec cp 0x10000); [|lia].
    by destruct (decodeTokens ts). }
  destruct (N.ltb_spec cp 0x800) as [H2|H2].
  { cbn [map app decodeTokens].
    destruct (N.ltb_spec (0xC0 + cp / 64) 0x80); [lia|].
    replace ((0xC0 <=? 0xC0 + cp / 64) && (0xC0 + cp / 64 <=? 0xDF)) with true
      by (symmetry; bool_true).
    replace ((0xC0 + cp / 64 - 0xC0) * 64 + (0x80 + cp mod 64 - 0x80)) with cp by lia.
    replace (isContinuation (0x80 + cp mod 64) && validCodePoint 0x80 cp) with true
      by (symmetry; unfold isContinuation, validCodePoint; bool_true).
    done. }
  destruct (N.ltb_spec cp 0x10000) as [H3|H3].
  { cbn [map app decodeTokens].
    destruct (N.ltb_spec (0xE0 + cp / 4096) 0x80); [lia|].
    replace ((0xC0 <=? 0xE0 + cp / 4096) && (0xE0 + cp / 4096 <=? 0xDF)) with false
      by (symmetry; apply andb_false_iff; right; apply N.leb_gt; lia).
    replace ((0xE0 <=? 0xE0 + cp / 4096) && (0xE0 + cp / 4096 <=? 0xEF)) with true
      by (symmetry; bool_true).
    replace ((0xE0 + cp / 4096 - 0xE0) * 4096 + (0x80 + (cp / 64) mod 64 - 0x80) * 64
             + (0x80 + cp mod 64 - 0x80)) with cp by lia.
    replace (isContinuation (0x80 + (cp / 64) mod 64)
             && isContinuation (0x80 + cp mod 64) && validCodePoint 0x800 cp)
      with true by (symmetry; unfold isContinuation, validCodePoint; bool_true).
    done. }
  cbn [map app decodeTokens].
  destruct (N.ltb_spec (0xF0 + cp / 262144) 0x80); [lia|].
  replace ((0xC0 <=? 0xF0 + cp / 262144) && (0xF0 + cp / 262144 <=? 0xDF)) with false
    by (symmetry; apply andb_false_iff; right; apply N.leb_gt; lia).
  replace ((0xE0 <=? 0xF0 + cp / 262144) && (0xF0 + cp / 262144 <=? 0xEF)) with false
    by (symmetry; apply andb_false_iff; right; apply N.leb_gt; lia).
  replace ((0xF0 <=? 0xF0 + cp / 262144) && (0xF0 + cp / 262144 <=? 0xF7)) with true
    by (symmetry; bool_true).
  replace ((0xF0 + cp / 262144 - 0xF0) * 262144
           + (0x80 + (cp / 4096) mod 64 - 0x80) * 4096
           + (0x80 + (cp / 64) mod 64 - 0x80) * 64 + (0x80 + cp mod 64 - 0x80))
    with cp by lia.
  replace (isContinuation (0x80 + (cp / 4096) mod 64)
           && isContinuation (0x80 + (cp / 64) mod 64)
           && isContinuation (0x80 + cp mod 64) && validCodePoint 0x10000 cp)
    with true by (symmetry; unfold isContinuation, validCodePoint; bool_true).
  done.
Qed.

Lemma isUnreserved_not_percent (c : N) : isUnreserved c = true -> c <> 37.
Proof. intros H ->. by vm_compute in H. Qed.

Lemma surrogates_spec (c : N) :
  isHighSurrogate c = false -> isLowSurrogate c = false ->
  ~ (0xD800 <= c <= 0xDFFF).
Proof.
  unfold isHighSurrogate, isLowSurrogate.
  rewrite !andb_false_iff, !N.leb_gt. lia.
Qed.

Lemma surrogate_pair_utf16 (c c2 cp : N) :
  isHighSurrogate c = true -> isLowSurrogate c2 = true ->
  cp = (c - 0xD800) * 0x400 + (c2 - 0xDC00) + 0x10000 ->
  cp < 0x110000 /\ ~ (0xD800 <= cp <= 0xDFFF) /\ utf16 cp = [c; c2].
Proof.
  unfold isHighSurrogate, isLowSurrogate.
  rewrite !andb_true_iff, !N.leb_le. intros [? ?] [? ?] Hcp.
  split; [lia|]. split; [lia|].
  unfold utf16. destruct (N.ltb_spec cp 0x10000); [lia|].
  f_equal; [|f_equal]; lia.
Qed.

Lemma decode_encode_tokens (n : nat) (v e : jsstring) :
  (length v <= n)%nat ->
  Forall (fun c => c < 65536) v ->
  encodeURIComponent v = Some e ->
  exists ts, uriTokens e = Some ts /\ decodeTokens ts = Some v.
Proof.
  revert v e. induction n as [|n IH]; intros v e Hlen Hv He.
  { destruct v; [|cbn in Hlen; lia]. injection He as <-. by exists []. }
  destruct v as [|c r]; [injection He as <-; by exists []|].
  apply Forall_cons in Hv as [Hc Hr]. cbn [length] in Hlen.
  cbn [encodeURIComponent] in He.
  destruct (isUnreserved c) eqn:Hu.
  { destruct (encodeURIComponent r) as [e'|] eqn:He'; [|done].
    injection He as <-.
    destruct (IH r e') as (ts & Hts & Hd); [lia|done|done|].
    exists (Lit c :: ts). cbn [uriTokens].
    rewrite (proj2 (N.eqb_neq c 37)) by by apply isUnreserved_not_percent.
    rewrite Hts. cbn. by rewrite Hd. }
  destruct (isLowSurrogate c) eqn:Hlo; [done|].
  destruct (isHighSurrogate c) eqn:Hhi.
  { destruct r as [|c2 r2]; [done|].
    destruct (isLowSurrogate c2) eqn:Hlo2; [|done].
    destruct (encodeURIComponent r2) as [e'|] eqn:He'; [|done].
    injection He as <-. apply Forall_cons in Hr as [_ Hr2]. cbn [length] in Hlen.
    destruct (IH r2 e') as (ts & Hts & Hd); [lia|done|done|].
    destruct (surrogate_pair_utf16 c c2 _ Hhi Hlo2 eq_refl) as (Hcp & Hsur & H16).
    eexists. rewrite uriTokens_pctAll by by apply utf8_octets.
    rewrite Hts. split; [reflexivity|].
    rewrite decodeTokens_utf8 by done. rewrite Hd, H16. done. }
  destruct (encodeURIComponent r) as [e'|] eqn:He'; [|done].
  injection He as <-.
  destruct (IH r e') as (ts & Hts & Hd); [lia|done|done|].
  eexists. rewrite uriTokens_pctAll by (apply utf8_octets; lia).
  rewrite Hts. split; [reflexivity|].
  rewrite decodeTokens_utf8; [|lia|by apply surrogates_spec].
  rewrite Hd. unfold utf16. by destruct (N.ltb_spec c 0x10000); [|lia].
Qed.

End UriRoundTrip.

(** Decoding what [encodeURIComponent] produced gives the string back. *)
Lemma decode_encode (v e : jsstring) :
  Forall (fun c => c < 65536) v ->
  encodeURIComponent v = Some e ->
  decodeURIComponent e = Some v.
Proof.
  intros Hv He.
  destruct (decode_encode_tokens (length v) v e) as (ts & Hts & Hd); try done.
  unfold decodeURIComponent. by rewrite Hts.
Qed.

(** A string without [%] is decoded to itself. *)
Lemma decode_plain (s : jsstring) : (37 ∉ s) -> decodeURIComponent s = Some s.
Proof.
  intros Hs. unfold decodeURIComponent.
  assert (uriTokens s = Some (map Lit s)) as ->.
  { induction s as [|c r IH]; [done|].
    apply not_elem_of_cons in Hs as [Hc Hr]. cbn [uriTokens map].
    rewrite (proj2 (N.eqb_neq c 37)) by done. by rewrite IH. }
  cbn. clear Hs. induction s as [|c r IH]; [done|]. cbn. by rewrite IH.
Qed.

(** ** A serialised header read back by the constructor *)

Section HeaderRoundTrip.

Lemma indexOfFrom_found (c : N) (s : jsstring) (i : Z) :
  (0 <= i)%Z -> indexOfFrom c s i = (-1)%Z -> c ∉ s.
Proof.
  revert i. induction s as [|x s IH]; intros i Hi Hs; [apply not_elem_of_nil|].
  cbn in Hs. destruct (N.eqb_spec x c); [lia|].
  apply not_elem_of_cons. split; [done|]. apply (IH (i + 1)%Z); [lia|done].
Qed.

Lemma includes_false (c : N) (s : jsstring) : includes c s = false -> c ∉ s.
Proof.
  unfold includes. rewrite negb_false_iff, Z.eqb_eq.
  by apply indexOfFrom_found.
Qed.

Lemma split_first (sep : N) (p r : jsstring) :
  (sep ∉ p) -> split sep (p ++ sep :: r) = p :: split sep r.
Proof.
  induction p as [|x p IH]; intros Hp; cbn.
  { by rewrite N.eqb_refl. }
  apply not_elem_of_cons in Hp as [Hx Hp].
  destruct (N.eqb_spec x sep); [congruence|]. by rewrite IH.
Qed.

(** The pieces of a joined list: every part but the first keeps the space
    of the separator. *)
Lemma split_join (p : jsstring) (ps : list jsstring) :
  Forall (fun part => 59 ∉ part) (p :: ps) ->
  split 59 (join (str "; ") (p :: ps)) = p :: map (cons 32) ps.
Proof.
  revert p. induction ps as [|q ps IH]; intros p Hp.
  { apply Forall_cons in Hp as [Hp _]. by apply split_not_elem. }
  apply Forall_cons in Hp as [Hp Hps].
  change (join (str "; ") (p :: q :: ps))
    with (p ++ 59 :: 32 :: join (str "; ") (q :: ps)).
  rewrite split_first by done. f_equal.
  cbn [split]. change (32 =? 59) with false. cbn iota.
  by rewrite IH.
Qed.

Lemma elem_of_join (sep part : jsstring) (parts : list jsstring) (c : N) :
  part ∈ parts -> c ∈ part -> c ∈ join sep parts.
Proof.
  induction parts as [|p ps IH]; intros Hin Hc; [by apply elem_of_nil in Hin|].
  apply elem_of_cons in Hin as [->|Hin].
  - destruct ps; [done|]. cbn [join]. apply elem_of_app. by left.
  - destruct ps as [|q ps]; [by apply elem_of_nil in Hin|].
    change (join sep (p :: q :: ps)) with (p ++ sep ++ join sep (q :: ps)).
    rewrite !elem_of_app. right. right. by apply IH.
Qed.

Lemma trimStart_last (l : jsstring) (c : N) :
  isWhiteSpace c = false -> trimStart (l ++ [c]) <> [].
Proof.
  intros Hc. induction l as [|x l IH]; cbn.
  { by rewrite Hc. }
  by destruct (isWhiteSpace x).
Qed.

Lemma trim_nonempty (c : N) (r : jsstring) :
  isWhiteSpace c = false -> truthyStr (trim (c :: r)) = true.
Proof.
  intros Hc. unfold trim, trimEnd. cbn [trimStart]. rewrite Hc.
  cbn [rev]. pose proof (trimStart_last (rev r) c Hc) as Hne.
  destruct (trimStart (rev r ++ [c])) as [|x l] eqn:Ht; [done|].
  cbn [rev]. by destruct (rev l).
Qed.

(** One segment [name=encoded], with or without the space that follows a
    separator, is read as the pair of the name and the value. *)
Lemma headerPair_part (hasPercentEncoded : bool) (ws n v e : jsstring) :
  ws = [] \/ ws = [32] ->
  Cookie.isValidCookieName n = true -> (37 ∉ n) ->
  Forall (fun c => c < 65536) v ->
  encodeURIComponent v = Some e ->
  (hasPercentEncoded = false -> 37 ∉ e) ->
  headerPair hasPercentEncoded (ws ++ n ++ 61 :: e) = [KeyValuePair.mk n v].
Proof.
  intros Hws Hn Hpn Hv He Hb.
  destruct (isValidCookieName_facts n Hn) as (Hne & _ & Heq & Htrim).
  destruct (forallb_plain _ _ isEncoded_facts (encodeURIComponent_encoded _ _ He))
    as (_ & _ & Hplain).
  assert (61 ∉ ws ++ n) as Heq'.
  { destruct Hws as [-> | ->]; [done|].
    apply not_elem_of_cons. split; [done|]. exact Heq. }
  assert (trim (ws ++ n) = n) as Hname.
  { destruct Hws as [-> | ->]; [done|].
    change ([32] ++ n) with (32 :: n). by rewrite trim_leading_space. }
  unfold headerPair. rewrite app_assoc.
  rewrite indexOf_first, Z_of_nat_ne_m1 by done.
  rewrite substring_prefix, substringFrom_after, Hname, (trim_id e) by done.
  destruct n as [|c n]; [done|]. cbn [truthyStr negb].
  pose proof (decode_encode v e Hv He) as Hdec.
  destruct hasPercentEncoded.
  - by rewrite (decode_plain _ Hpn), Hdec.
  - rewrite (decode_plain e) in Hdec by by apply Hb. by injection Hdec as ->.
Qed.

(** What the constructor stores for the joined parts [name=encoded]. *)
Lemma headerPairs_join (entries : list (jsstring * jsstring)) (parts : list jsstring) :
  Forall (fun entry => Cookie.isValidCookieName (fst entry) = true
                       /\ (37 ∉ fst entry)
                       /\ Forall (fun c => c < 65536) (snd entry)) entries ->
  Forall2 (fun entry part => exists e,
             encodeURIComponent (snd entry) = Some e
             /\ part = fst entry ++ 61 :: e) entries parts ->
  headerPairs (join (str "; ") parts)
  = map (fun entry => KeyValuePair.mk (fst entry) (snd entry)) entries.
Proof.
  intros Hvalid Hparts.
  destruct Hparts as [|[n v] p entries ps (e & He & ->) Hrest]; [done|].
  cbn [fst snd] in *.
  set (s := join (str "; ") ((n ++ 61 :: e) :: ps)).
  assert (Forall (fun part => 59 ∉ part) ((n ++ 61 :: e) :: ps)) as Hsemi.
  { apply Forall_cons; split.
    - apply Forall_cons in Hvalid as [(Hn & _) _].
      destruct (isValidCookieName_facts n Hn) as (_ & Hn59 & _).
      destruct (forallb_plain _ _ isEncoded_facts
                  (encodeURIComponent_encoded _ _ He)) as (He59 & _).
      rewrite not_elem_of_app, not_elem_of_cons. done.
    - apply Forall_cons in Hvalid as [_ Hvalid].
      clear -Hvalid Hrest. induction Hrest as [|[n v] p es ps (e & He & ->) _ IH];
        [done|].
      apply Forall_cons in Hvalid as [(Hn & _) Hvalid]. cbn [fst snd] in *.
      apply Forall_cons; split; [|by apply IH].
      destruct (isValidCookieName_facts n Hn) as (_ & Hn59 & _).
      destruct (forallb_plain _ _ isEncoded_facts
                  (encodeURIComponent_encoded _ _ He)) as (He59 & _).
      rewrite not_elem_of_app, not_elem_of_cons. done. }
  assert (truthyStr (trim s) = true) as Htruthy.
  { apply Forall_cons in Hvalid as [(Hn & _) _].
    assert (exists c r, s = c :: r /\ isWhiteSpace c = false) as (c & r & -> & Hc).
    { unfold Cookie.isValidCookieName in Hn. destruct n as [|c n]; [done|].
      cbn [length Nat.eqb forallb] in Hn. apply andb_true_iff in Hn as [Hc _].
      apply isValidCharacterInCookieName_facts in Hc as (_ & _ & Hc).
      subst s. destruct ps; eexists c, _; (split; [reflexivity|done]). }
    by apply trim_nonempty. }
  unfold headerPairs. rewrite Htruthy. cbn [negb].
  fold s. unfold s at 2. rewrite split_join by done.
  assert (forall part, part ∈ (n ++ 61 :: e) :: ps ->
                       includes 37 s = false -> 37 ∉ part) as Hpct.
  { intros part Hin Hinc%includes_false Hc. apply Hinc.
    by apply (elem_of_join _ part). }
  cbn [map concat]. apply Forall_cons in Hvalid as [(Hn & Hpn & Hv) Hvalid].
  rewrite (headerPair_part _ [] n v e); try done; [|by left|]; last first.
  { intros Hinc Hc. apply (Hpct (n ++ 61 :: e)); [by left|done|].
    rewrite elem_of_app, elem_of_cons. tauto. }
  cbn [app]. f_equal.
  assert (forall part, part ∈ ps -> includes 37 s = false -> 37 ∉ part) as Hpct'.
  { intros part Hin. apply Hpct. by right. }
  clear Hpct Htruthy Hsemi. generalize dependent (includes 37 s). intros b Hpct.
  clear s He Hn Hpn Hv.
  induction Hrest as [|[n' v'] p es ps' (e' & He' & ->) _ IH]; [done|].
  apply Forall_cons in Hvalid as [(Hn & Hpn & Hv) Hvalid]. cbn [fst snd] in *.
  cbn [map concat].
  change (32 :: n' ++ 61 :: e') with ([32] ++ n' ++ 61 :: e').
  rewrite (headerPair_part b [32] n' v' e'); try done; [|by right|]; last first.
  { intros Hb Hc. apply (Hpct (n' ++ 61 :: e')); [by left|done|].
    rewrite elem_of_app, elem_of_cons. tauto. }
  cbn [app]. f_equal. apply IH; [done|].
  intros part Hin. apply Hpct. by right.
Qed.

End HeaderRoundTrip.

(** ** What the reading methods return, from the contents *)

Section Readers.

Lemma pair_eta (l : list KeyValuePair.t) :
  map (fun cookie => KeyValuePair.mk (KeyValuePair.key cookie)
                       (KeyValuePair.value cookie)) l = l.
Proof. induction l as [|[k v] l IH]; [done|]. cbn. by rewrite IH. Qed.

Lemma getAll_view (σ : Store.t) (this : nat) :
  CookieMap.getAll this σ
  = (σ, Ok (map CookieMap.pairOfCookie
              (List.filter CookieMap.nonEmptyValue (View.modified (viewOf σ this)))
            ++ View.original (viewOf σ this))).
Proof.
  unfold CookieMap.getAll, mbind, M_bind.
  rewrite readModified_view, readOriginal_view. by rewrite pair_eta.
Qed.

Lemma iterate_view (σ : Store.t) (this : nat) :
  CookieMap.iterate this σ = CookieMap.getAll this σ.
Proof. reflexivity. Qed.

Lemma entries_view (σ : Store.t) (this : nat) :
  CookieMap.entries this σ
  = (σ, Ok (map (fun pair => (KeyValuePair.key pair, KeyValuePair.value pair))
              (map CookieMap.pairOfCookie
                 (List.filter CookieMap.nonEmptyValue (View.modified (viewOf σ this)))
               ++ View.original (viewOf σ this)))).
Proof.
  unfold CookieMap.entries.
  by rewrite (bind_Ok _ _ _ _ _ (eq_trans (iterate_view σ this) (getAll_view σ this))).
Qed.

Lemma keys_view (σ : Store.t) (this : nat) :
  CookieMap.keys this σ
  = (σ, Ok (map Cookie.name
              (List.filter CookieMap.nonEmptyValue (View.modified (viewOf σ this)))
            ++ map KeyValuePair.key (View.original (viewOf σ this)))).
Proof.
  unfold CookieMap.keys.
  rewrite (bind_Ok _ _ _ _ _ (eq_trans (iterate_view σ this) (getAll_view σ this))).
  by rewrite map_app, map_map.
Qed.

Lemma size_view (σ : Store.t) (this : nat) :
  CookieMap.size this σ
  = (σ, Ok (length (List.filter CookieMap.nonEmptyValue
                      (View.modified (viewOf σ this)))
            + length (View.original (viewOf σ this)))%nat).
Proof. reflexivity. Qed.

(** The contents of a new instance. *)
Lemma new_view (σ : Store.t) (input : option CookieMapInput) :
  wellFormed σ ->
  exists σ' this,
    CookieMap.new input σ = (σ', Ok this) /\ wellFormed σ'
    /\ Store.objects σ !! this = None
    /\ View.ofStore σ' = <[this := View.mk (inputPairs input) []]> (View.ofStore σ)
    /\ viewOf σ' this = View.mk (inputPairs input) [].
Proof.
  intros Hwf. destruct (new_effect σ input Hwf) as (σ' & Hrun & Hwf' & Hfresh & Hv).
  exists σ', (S (S (Store.next σ))). repeat (split; [done|]).
  by destruct (viewOf_insert _ _ _ _ Hv).
Qed.

End Readers.

(** ** [Cookie.serialize] and [serializeCookieMap] *)

Section Serialize.

(** X1. A [Cookie] header written by [Cookie.serialize] for cookies whose
    names have no [%] is read by the [CookieMap] constructor as the pairs
    of those cookies, in order, with the values decoded back. *)
Theorem serialize_read_by_constructor
    (cookies : list Cookie.t) (s : jsstring) (σ : Store.t) :
  wellFormed σ ->
  Forall (fun cookie => Cookie.isValidCookieName (Cookie.name cookie) = true
                        /\ (37 ∉ Cookie.name cookie)
                        /\ Forall (fun c => c < 65536) (Cookie.value cookie))
    cookies ->
  Cookie.serialize cookies = Ok s ->
  exists σ' this,
    CookieMap.new (Some (InputString s)) σ = (σ', Ok this)
    /\ snd (CookieMap.getAll this σ') = Ok (map CookieMap.pairOfCookie cookies).
Proof.
  intros Hwf Hplain Hs.
  destruct (new_view σ (Some (InputString s)) Hwf)
    as (σ' & this & Hrun & _ & _ & _ & Hview).
  exists σ', this. split; [done|].
  rewrite getAll_view, Hview. cbn [View.modified View.original List.filter map app snd].
  f_equal. cbn [inputPairs]. unfold Cookie.serialize in Hs.
  destruct cookies as [|cookie cookies]; [by injection Hs as <-|].
  cbn [length Nat.eqb] in Hs.
  destruct (mapM _ (cookie :: cookies)) as [parts|] eqn:Hparts; [|done].
  injection Hs as <-. apply mapM_Some in Hparts.
  rewrite (headerPairs_join
             (map (fun cookie => (Cookie.name cookie, Cookie.value cookie))
                (cookie :: cookies))).
  - by rewrite map_map.
  - apply Forall_fmap. eapply Forall_impl; [exact Hplain|]. by intros c Hc.
  - apply Forall2_fmap_l. eapply Forall2_impl; [exact Hparts|].
    intros c part Hpart. cbn beta in Hpart. cbn beta. cbn [fst snd].
    destruct (encodeURIComponent (Cookie.value c)) as [e|] eqn:He; [|done].
    exists e. cbn [fst snd]. split; [done|]. injection Hpart as <-.
    rewrite <- app_assoc. done.
Qed.

(** X2. The header written by [serializeCookieMap] for a collection whose
    names have no [%], given to the constructor, makes a collection with
    the same entries in the same order. *)
Theorem serializeCookieMap_read_by_constructor
    (σ : Store.t) (this : nat) (entries : list (jsstring * jsstring)) (s : jsstring) :
  wellFormed σ ->
  snd (CookieMap.entries this σ) = Ok entries ->
  Forall (fun entry => Cookie.isValidCookieName (fst entry) = true
                       /\ (37 ∉ fst entry)
                       /\ Forall (fun c => c < 65536) (snd entry)) entries ->
  snd (Parsers.serializeCookieMap this σ) = Ok s ->
  exists σ' copy,
    CookieMap.new (Some (InputString s)) σ = (σ', Ok copy)
    /\ snd (CookieMap.entries copy σ') = Ok entries.
Proof.
  intros Hwf Hentries Hplain Hs.
  destruct (new_view σ (Some (InputString s)) Hwf)
    as (σ' & copy & Hrun & _ & _ & _ & Hview).
  exists σ', copy. split; [done|].
  rewrite entries_view, Hview.
  cbn [View.modified View.original List.filter map app snd inputPairs].
  f_equal. unfold Parsers.serializeCookieMap in Hs.
  assert (CookieMap.entries this σ = (σ, Ok entries)) as Hrun_entries.
  { rewrite entries_view in Hentries |- *. f_equal. exact Hentries. }
  rewrite (bind_Ok _ _ _ _ _ Hrun_entries) in Hs.
  destruct (mapM _ entries) as [parts|] eqn:Hparts; [|done].
  injection Hs as <-. apply mapM_Some in Hparts.
  rewrite (headerPairs_join entries); [| |].
  - rewrite map_map. cbn [KeyValuePair.key KeyValuePair.value].
    clear. induction entries as [|[n v] l IH]; [done|]. cbn. by rewrite IH.
  - eapply Forall_impl; [exact Hplain|]. by intros c Hc.
  - eapply Forall2_impl; [exact Hparts|].
    intros [n v] part Hpart. cbn beta iota in Hpart. cbn beta. cbn [fst snd].
    destruct (encodeURIComponent v) as [e|] eqn:He; [|done].
    exists e. cbn [fst snd]. split; [done|]. injection Hpart as <-.
    rewrite <- app_assoc. done.
Qed.

End Serialize.

(** ** [toJSON], [keys], [size] and [has] against [get] *)

Section Lookup.

Lemma find_name_Some {A} (f : A -> jsstring) (name : jsstring) (l : list A) (x : A) :
  List.find (fun y => strEq (f y) name) l = Some x -> x ∈ l /\ f x = name.
Proof.
  intros [Hin Hx]%find_some. split; [by apply list_elem_of_In|].
  by apply strEq_true.
Qed.

Lemma find_name_None {A} (f : A -> jsstring) (name : jsstring) (l : list A) :
  List.find (fun y => strEq (f y) name) l = None <-> forall x, x ∈ l -> f x <> name.
Proof.
  induction l as [|y l IH]; cbn.
  { split; [|done]. intros _ x Hx. by apply elem_of_nil in Hx. }
  destruct (strEq (f y) name) eqn:Hy.
  - split; [done|]. intros Hall. apply strEq_true in Hy.
    destruct (Hall y); [by left|done].
  - apply strEq_false in Hy. rewrite IH. split.
    + intros Hall x [->|Hx]%elem_of_cons; [done|by apply Hall].
    + intros Hall x Hx. apply Hall. by right.
Qed.

Lemma NoDup_names_eq {A} (f : A -> jsstring) (l : list A) (x y : A) :
  NoDup (map f l) -> x ∈ l -> y ∈ l -> f x = f y -> x = y.
Proof.
  induction l as [|z l IH]; intros Hnd Hx Hy Hf; [by apply elem_of_nil in Hx|].
  cbn in Hnd. apply NoDup_cons in Hnd as [Hz Hnd].
  apply elem_of_cons in Hx as [->|Hx]; apply elem_of_cons in Hy as [->|Hy].
  - done.
  - destruct Hz. rewrite Hf. apply (list_elem_of_fmap_2 f _ _ Hy).
  - destruct Hz. rewrite <- Hf. apply (list_elem_of_fmap_2 f _ _ Hx).
  - by apply IH.
Qed.

(** The first loop of [toJSON] leaves a name alone that no cookie bears. *)
Lemma toJSON_modified_other (name : jsstring) (l : list Cookie.t)
    (result : gmap jsstring jsstring) :
  (forall cookie, cookie ∈ l -> Cookie.name cookie <> name) ->
  fold_left (fun result cookie =>
               if CookieMap.nonEmptyValue cookie
               then assignProperty (Cookie.name cookie) (Cookie.value cookie) result
               else result) l result !! name
  = result !! name.
Proof.
  revert result. induction l as [|c l IH]; intros result Hall; [done|].
  cbn [fold_left]. rewrite IH by (intros c' Hc'; apply Hall; by right).
  destruct (CookieMap.nonEmptyValue c); [|done]. unfold assignProperty.
  destruct (strEq _ _); [done|]. apply lookup_insert_ne. apply Hall. by left.
Qed.

Lemma toJSON_modified (name : jsstring) (l : list Cookie.t)
    (result : gmap jsstring jsstring) :
  NoDup (map Cookie.name l) -> name <> str "__proto__" ->
  fold_left (fun result cookie =>
               if CookieMap.nonEmptyValue cookie
               then assignProperty (Cookie.name cookie) (Cookie.value cookie) result
               else result) l result !! name
  = match List.find (fun cookie => strEq (Cookie.name cookie) name) l with
    | Some cookie =>
        if truthyStr (Cookie.value cookie) then Some (Cookie.value cookie)
        else result !! name
    | None => result !! name
    end.
Proof.
  intros Hnd Hname. revert result. induction l as [|c l IH]; intros result; [done|].
  cbn in Hnd. apply NoDup_cons in Hnd as [Hc Hnd]. cbn [fold_left List.find].
  destruct (strEq (Cookie.name c) name) eqn:Heq.
  - apply strEq_true in Heq. rewrite toJSON_modified_other.
    + unfold CookieMap.nonEmptyValue. destruct (truthyStr (Cookie.value c)); [|done].
      unfold assignProperty. rewrite Heq.
      rewrite (proj2 (strEq_false _ _) Hname). apply lookup_insert_eq.
    + intros c' Hc' Hn. apply Hc. rewrite Heq, <- Hn.
      apply (list_elem_of_fmap_2 Cookie.name _ _ Hc').
  - apply strEq_false in Heq. rewrite IH by done.
    assert ((if CookieMap.nonEmptyValue c
             then assignProperty (Cookie.name c) (Cookie.value c) result
             else result) !! name = result !! name) as ->; [|done].
    destruct (CookieMap.nonEmptyValue c); [|done]. unfold assignProperty.
    destruct (strEq _ _); [done|]. by apply lookup_insert_ne.
Qed.

(** The second loop of [toJSON] gives a free name the value of its first
    pair. *)
Lemma toJSON_original (name : jsstring) (l : list KeyValuePair.t)
    (result : gmap jsstring jsstring) :
  (name ∉ objectPrototypeKeys) ->
  fold_left (fun result cookie =>
               if negb (inObject (KeyValuePair.key cookie) result)
               then assignProperty (KeyValuePair.key cookie)
                      (KeyValuePair.value cookie) result
               else result) l result !! name
  = match result !! name with
    | Some value => Some value
    | None => KeyValuePair.value
                <$> List.find (fun cookie => strEq (KeyValuePair.key cookie) name) l
    end.
Proof.
  intros Hname.
  assert (name <> str "__proto__") as Hproto.
  { intros ->. apply Hname. apply (bool_decide_unpack _). vm_compute. exact I. }
  revert result. induction l as [|p l IH]; intros result.
  { cbn. by destruct (result !! name). }
  cbn [fold_left List.find]. rewrite IH.
  destruct (strEq (KeyValuePair.key p) name) eqn:Heq.
  - apply strEq_true in Heq. rewrite Heq. unfold inObject.
    rewrite (bool_decide_eq_false_2 (name ∈ objectPrototypeKeys)) by done.
    rewrite orb_false_r. destruct (result !! name) as [x|] eqn:Hr.
    + rewrite bool_decide_eq_true_2 by by eexists. cbn [negb]. by rewrite Hr.
    + rewrite bool_decide_eq_false_2 by by intros [? ?]. cbn [negb].
      unfold assignProperty. rewrite (proj2 (strEq_false _ _) Hproto).
      by rewrite lookup_insert_eq.
  - apply strEq_false in Heq.
    assert ((if negb (inObject (KeyValuePair.key p) result)
             then assignProperty (KeyValuePair.key p) (KeyValuePair.value p) result
             else result) !! name = result !! name) as ->; [|done].
    destruct (negb _); [|done]. unfold assignProperty.
    destruct (strEq _ _); [done|]. by apply lookup_insert_ne.
Qed.

(** On contents where no name is modified twice nor both modified and
    original, [toJSON] and [get] agree on every free name. *)
Lemma toJSON_get_view (v : View.t) (name : jsstring) :
  modifiedUnique v -> (name ∉ objectPrototypeKeys) ->
  fold_left (fun result cookie =>
               if negb (inObject (KeyValuePair.key cookie) result)
               then assignProperty (KeyValuePair.key cookie)
                      (KeyValuePair.value cookie) result
               else result) (View.original v)
    (fold_left (fun result cookie =>
                  if CookieMap.nonEmptyValue cookie
                  then assignProperty (Cookie.name cookie) (Cookie.value cookie) result
                  else result) (View.modified v) ∅) !! name
  = Observe.get v name.
Proof.
  intros [Hnd Hdisj] Hname.
  assert (name <> str "__proto__") as Hproto.
  { intros ->. apply Hname. apply (bool_decide_unpack _). vm_compute. exact I. }
  rewrite toJSON_original, toJSON_modified by done. unfold Observe.get.
  rewrite lookup_empty.
  destruct (List.find _ (View.modified v)) as [c|] eqn:Hm; [|done].
  destruct (truthyStr (Cookie.value c)); [done|].
  apply find_name_Some in Hm as [Hc Hn].
  assert (List.find (fun cookie => strEq (KeyValuePair.key cookie) name)
            (View.original v) = None) as ->; [|done].
  apply find_name_None. intros p Hp. rewrite <- Hn. by apply Hdisj.
Qed.

End Lookup.

(** X3. In every collection reachable through the public interface,
    [toJSON()] holds under each name that [Object.prototype] does not
    define exactly what [get(name)] returns: the value, or no property
    when [get] returns [undefined]. *)
Theorem toJSON_agrees_with_get
    (P : option CookieMapInput -> Prop) (σ : Store.t) (this : nat) (name : jsstring) :
  reachable P σ -> is_Some (Store.objects σ !! this) ->
  (name ∉ objectPrototypeKeys) ->
  exists json,
    snd (CookieMap.toJSON this σ) = Ok json
    /\ snd (CookieMap.get this name σ) = Ok (json !! name).
Proof.
  intros Hreach Hthis Hname.
  destruct (reachable_invariant P σ Hreach) as [Hwf Hinv].
  destruct (Hinv this _ (ofStore_lookup _ _ Hthis)) as [Hm _].
  eexists. split; [reflexivity|]. rewrite get_view. cbn [snd]. f_equal.
  symmetry. exact (toJSON_get_view (viewOf σ this) name Hm Hname).
Qed.

(** The collection built from [a=1; b=2] after [set("b", "3")] and
    [delete("a")]. *)
Lemma toJSON_agrees_with_get_witness :
  let σ := applyCall (DoMutate 2 (DoDelete (inl (str "a"))))
             (applyCall (DoMutate 2 (DoSet (inl (str "b")) (Some (str "3"))))
                (applyCall (DoNew (Some (InputString (str "a=1; b=2")))) Store.empty)) in
  exists json,
    snd (CookieMap.toJSON 2 σ) = Ok json
    /\ snd (CookieMap.get 2 (str "b") σ) = Ok (json !! str "b").
Proof.
  cbv zeta.
  apply (toJSON_agrees_with_get (fun _ => True)).
  - repeat (apply reachable_call; [|by vm_compute; eexists || exact I|exact I]).
    apply reachable_empty.
  - vm_compute. by eexists.
  - apply (bool_decide_unpack _). vm_compute. exact I.
Defined.

(** A name of [Object.prototype] among the pairs of the input: [get] finds
    it, [toJSON] leaves it out. *)
Lemma toJSON_prototype_name_example :
  snd ((c ← CookieMap.new (Some (InputString (str "toString=1; a=2")));
        value ← CookieMap.get c (str "toString");
        json ← CookieMap.toJSON c;
        mret (value, json !! str "toString", json !! str "a")) Store.empty)
  = Ok (Some (str "1"), None, Some (str "2")).
Proof. vm_compute. reflexivity. Qed.

(** Two cookies, one value with a space and a semicolon, one with a
    letter outside ASCII and a character outside the basic plane. *)
Lemma serialize_read_by_constructor_witness :
  let cookies :=
    [Cookie.mk (str "sid") (str "a b;c") [] (str "/") (Num (-1)) false Lax false NaN false;
     Cookie.mk (str "lang") [233; 0xD83D; 0xDE00] [] (str "/") (Num (-1))
       false Lax false NaN false] in
  let s := str "sid=a%20b%3Bc; lang=%C3%A9%F0%9F%98%80" in
  Cookie.serialize cookies = Ok s
  /\ exists σ' this,
      CookieMap.new (Some (InputString s)) Store.empty = (σ', Ok this)
      /\ snd (CookieMap.getAll this σ') = Ok (map CookieMap.pairOfCookie cookies).
Proof.
  cbv zeta. split; [vm_compute; reflexivity|].
  apply serialize_read_by_constructor;
    [apply wellFormed_empty| |vm_compute; reflexivity].
  repeat (apply Forall_cons; split;
          [split; [vm_compute; reflexivity|];
           split; [apply (bool_decide_unpack _); vm_compute; exact I|];
           repeat (apply Forall_cons; split; [reflexivity|]); apply List.Forall_nil|]).
  apply List.Forall_nil.
Defined.

(** The collection built from [a=1; b=2] after [set("b", "x y")]. *)
Lemma serializeCookieMap_read_by_constructor_witness :
  let σ := applyCall (DoMutate 2 (DoSet (inl (str "b")) (Some (str "x y"))))
             (applyCall (DoNew (Some (InputString (str "a=1; b=2")))) Store.empty) in
  snd (Parsers.serializeCookieMap 2 σ) = Ok (str "b=x%20y; a=1")
  /\ exists σ' copy,
      CookieMap.new (Some (InputString (str "b=x%20y; a=1"))) σ = (σ', Ok copy)
      /\ snd (CookieMap.entries copy σ') = Ok [(str "b", str "x y"); (str "a", str "1")].
Proof.
  cbv zeta. split; [vm_compute; reflexivity|].
  apply (serializeCookieMap_read_by_constructor _ 2%nat);
    [|vm_compute; reflexivity| |vm_compute; reflexivity].
  - destruct (reachable_invariant (fun _ => True)
                (applyCall (DoMutate 2 (DoSet (inl (str "b")) (Some (str "x y"))))
                   (applyCall (DoNew (Some (InputString (str "a=1; b=2"))))
                      Store.empty))) as [Hwf _]; [|exact Hwf].
    repeat (apply reachable_call; [|by vm_compute; eexists || exact I|exact I]).
    apply reachable_empty.
  - repeat (apply Forall_cons; split;
            [split; [vm_compute; reflexivity|];
             split; [apply (bool_decide_unpack _); vm_compute; exact I|];
             repeat (apply Forall_cons; split; [reflexivity|]); apply List.Forall_nil|]).
    apply List.Forall_nil.
Defined.

(** ** The names of a collection *)

Section Keys.

Lemma has_keys_view (v : View.t) (name : jsstring) :
  modifiedUnique v ->
  Observe.get v name <> None
  <-> name ∈ map Cookie.name (List.filter CookieMap.nonEmptyValue (View.modified v))
             ++ map KeyValuePair.key (View.original v).
Proof.
  intros [Hnd Hdisj]. unfold Observe.get. rewrite elem_of_app.
  destruct (List.find _ (View.modified v)) as [c|] eqn:Hm.
  - apply find_name_Some in Hm as [Hc Hn].
    destruct (truthyStr (Cookie.value c)) eqn:Hv.
    + split; [|done]. intros _. left. rewrite <- Hn.
      apply (list_elem_of_fmap_2 Cookie.name). apply list_elem_of_In, filter_In.
      split; [by apply list_elem_of_In|done].
    + split; [done|]. intros [Hin|Hin]; exfalso.
      * apply list_elem_of_fmap in Hin as (c' & Hn' & Hc').
        apply list_elem_of_In, filter_In in Hc' as [Hc' Hv'].
        apply list_elem_of_In in Hc'.
        assert (c' = c) as -> by (apply (NoDup_names_eq Cookie.name _ _ _ Hnd);
                                  congruence).
        unfold CookieMap.nonEmptyValue in Hv'. congruence.
      * apply list_elem_of_fmap in Hin as (p & Hp & Hin).
        apply (Hdisj p c Hin Hc). congruence.
  - pose proof (proj1 (find_name_None _ _ _) Hm) as Hnone.
    destruct (List.find _ (View.original v)) as [p|] eqn:Ho.
    + apply find_name_Some in Ho as [Hp Hn]. split; [|done]. intros _. right.
      rewrite <- Hn. apply (list_elem_of_fmap_2 KeyValuePair.key _ _ Hp).
    + pose proof (proj1 (find_name_None _ _ _) Ho) as Hnone'.
      split; [done|]. intros [Hin|Hin]; exfalso.
      * apply list_elem_of_fmap in Hin as (c' & Hn' & Hc').
        apply list_elem_of_In, filter_In in Hc' as [Hc' _].
        apply list_elem_of_In in Hc'. by apply (Hnone c').
      * apply list_elem_of_fmap in Hin as (p & Hp & Hin). by apply (Hnone' p).
Qed.

Lemma keys_NoDup_view (v : View.t) :
  namesUnique v ->
  NoDup (map Cookie.name (List.filter CookieMap.nonEmptyValue (View.modified v))
         ++ map KeyValuePair.key (View.original v)).
Proof.
  unfold namesUnique, View.names. rewrite !NoDup_app.
  intros (Ho & Hdisj & Hm).
  assert (forall name,
            name ∈ map Cookie.name
                     (List.filter CookieMap.nonEmptyValue (View.modified v)) ->
            name ∈ map Cookie.name (View.modified v)) as Hsub.
  { intros name (c & -> & Hc)%list_elem_of_fmap.
    apply list_elem_of_In, filter_In in Hc as [Hc _].
    apply (list_elem_of_fmap_2 Cookie.name). by apply list_elem_of_In. }
  split; [|split; [|done]].
  - clear -Hm. induction (View.modified v) as [|c l IH]; [done|].
    cbn in Hm. apply NoDup_cons in Hm as [Hc Hm]. cbn [List.filter].
    destruct (CookieMap.nonEmptyValue c); [|by apply IH].
    cbn. apply NoDup_cons. split; [|by apply IH].
    intros (c' & Hn & Hc')%list_elem_of_fmap. apply Hc. rewrite Hn.
    apply list_elem_of_In, filter_In in Hc' as [Hc' _].
    apply (list_elem_of_fmap_2 Cookie.name). by apply list_elem_of_In.
  - intros name Hin Hin'. by apply (Hdisj name Hin'), Hsub.
Qed.

End Keys.

(** X4. In every collection reachable through the public interface,
    [has(name)] is true exactly for the names that [keys()] yields, and
    [size()] is the number of those names; when no constructor input
    repeated a name, [keys()] yields no name twice, so [size()] counts the
    names that [has] accepts. *)
Theorem has_iff_among_keys
    (P : option CookieMapInput -> Prop) (σ : Store.t) (this : nat) :
  reachable P σ -> is_Some (Store.objects σ !! this) ->
  exists names,
    snd (CookieMap.keys this σ) = Ok names
    /\ snd (CookieMap.size this σ) = Ok (length names)
    /\ (forall name, snd (CookieMap.has this name σ) = Ok (bool_decide (name ∈ names)))
    /\ ((forall input, P input -> distinctInput input) -> NoDup names).
Proof.
  intros Hreach Hthis.
  destruct (reachable_invariant P σ Hreach) as [Hwf Hinv].
  destruct (Hinv this _ (ofStore_lookup _ _ Hthis)) as [Hm Hn].
  eexists. rewrite keys_view, size_view. cbn [snd].
  split; [reflexivity|]. split; [|split].
  - by rewrite length_app, !length_map.
  - intros name. rewrite has_view. cbn [snd]. f_equal.
    apply bool_decide_ext. by apply has_keys_view.
  - intros HP. apply keys_NoDup_view. by apply Hn.
Qed.

(** The collection built from [a=1; b=2] after [delete("a")]. *)
Lemma has_iff_among_keys_witness :
  let σ := applyCall (DoMutate 2 (DoDelete (inl (str "a"))))
             (applyCall (DoNew (Some (InputString (str "a=1; b=2")))) Store.empty) in
  exists names,
    snd (CookieMap.keys 2 σ) = Ok names
    /\ snd (CookieMap.size 2 σ) = Ok (length names)
    /\ (forall name, snd (CookieMap.has 2 name σ) = Ok (bool_decide (name ∈ names)))
    /\ NoDup names.
Proof.
  cbv zeta.
  destruct (has_iff_among_keys
              (fun input => input = Some (InputString (str "a=1; b=2")))
              (applyCall (DoMutate 2 (DoDelete (inl (str "a"))))
                 (applyCall (DoNew (Some (InputString (str "a=1; b=2"))))
                    Store.empty)) 2%nat)
    as (names & Hkeys & Hsize & Hhas & Hnodup).
  - apply reachable_call; [|by vm_compute; eexists|exact I].
    apply reachable_call; [apply reachable_empty|exact I|reflexivity].
  - vm_compute. by eexists.
  - exists names. split; [done|]. split; [done|]. split; [done|].
    apply Hnodup. intros input ->. apply (bool_decide_unpack _). vm_compute. exact I.
Defined.

(** ** Reading after [set], [delete] and [clear] *)

Section ReadAfterWrite.

Lemma find_filter_other {A} (f : A -> jsstring) (name other : jsstring) (l : list A) :
  other <> name ->
  List.find (fun x => strEq (f x) other) (filter (fun x => f x <> name) l)
  = List.find (fun x => strEq (f x) other) l.
Proof.
  intros Hne. induction l as [|x l IH]; [done|]. rewrite filter_cons.
  destruct (decide (f x <> name)) as [Hx|Hx]; cbn [List.find].
  - by rewrite IH.
  - apply dec_stable in Hx. rewrite IH.
    assert (strEq (f x) other = false) as ->; [|done].
    apply strEq_false. congruence.
Qed.

Lemma find_filter_same {A} (f : A -> jsstring) (name : jsstring) (l : list A) :
  List.find (fun x => strEq (f x) name) (filter (fun x => f x <> name) l) = None.
Proof.
  induction l as [|x l IH]; [done|]. rewrite filter_cons.
  destruct (decide (f x <> name)) as [Hne|]; [|done].
  cbn. apply strEq_false in Hne. by rewrite Hne.
Qed.

Lemma find_app_other {A} (f : A -> jsstring) (other : jsstring) (l : list A) (x : A) :
  f x <> other ->
  List.find (fun y => strEq (f y) other) (l ++ [x])
  = List.find (fun y => strEq (f y) other) l.
Proof.
  intros Hx. induction l as [|y l IH]; cbn.
  - by rewrite (proj2 (strEq_false _ _) Hx).
  - by destruct (strEq (f y) other).
Qed.

Lemma get_remove_same (name : jsstring) (v : View.t) :
  Observe.get (removeFromView name v) name = None.
Proof.
  unfold Observe.get, removeFromView. cbn [View.modified View.original].
  by rewrite (find_filter_same Cookie.name), (find_filter_same KeyValuePair.key).
Qed.

Lemma get_remove_other (name other : jsstring) (v : View.t) :
  other <> name -> Observe.get (removeFromView name v) other = Observe.get v other.
Proof.
  intros Hne. unfold Observe.get, removeFromView. cbn [View.modified View.original].
  by rewrite (find_filter_other Cookie.name), (find_filter_other KeyValuePair.key).
Qed.

Lemma get_set_same (cookie : Cookie.t) (v : View.t) :
  Observe.get (setInView cookie v) (Cookie.name cookie)
  = if truthyStr (Cookie.value cookie) then Some (Cookie.value cookie) else None.
Proof.
  unfold Observe.get, setInView, removeFromView. cbn [View.modified View.original].
  rewrite find_app_none by apply (find_filter_same Cookie.name).
  cbn [List.find]. by rewrite strEq_refl.
Qed.

Lemma get_set_other (cookie : Cookie.t) (other : jsstring) (v : View.t) :
  other <> Cookie.name cookie ->
  Observe.get (setInView cookie v) other = Observe.get v other.
Proof.
  intros Hne. unfold Observe.get, setInView, removeFromView.
  cbn [View.modified View.original].
  rewrite (find_app_other Cookie.name) by done.
  by rewrite (find_filter_other Cookie.name), (find_filter_other KeyValuePair.key).
Qed.

(** A later [set] of the same name leaves nothing of the earlier one. *)
Lemma setInView_twice (earlier later : Cookie.t) (v : View.t) :
  Cookie.name earlier = Cookie.name later ->
  setInView later (setInView earlier v) = setInView later v.
Proof.
  intros Hn. unfold setInView, removeFromView. cbn [View.modified View.original].
  rewrite Hn. f_equal.
  - rewrite list_filter_filter. apply list_filter_iff. tauto.
  - f_equal. rewrite filter_app, list_filter_filter.
    rewrite (filter_cons _ earlier), decide_False by (intros Hne; by apply Hne).
    rewrite filter_nil, app_nil_r. apply list_filter_iff. tauto.
Qed.

End ReadAfterWrite.

(** X5. [set] then [get]: after [set(cookie)], [get] of the cookie's name
    returns its value, or [undefined] when the value is empty, and [get]
    of every other name returns what it returned before.  [set(name,
    value)] does the same when the name is a valid cookie name; otherwise
    it throws a [TypeError] before it changes anything. *)
Theorem set_then_get (σ : Store.t) (this : nat) :
  wellFormed σ -> is_Some (Store.objects σ !! this) ->
  (forall cookie value, exists σ',
     CookieMap.set this (inr cookie) value σ = (σ', Ok tt)
     /\ snd (CookieMap.get this (Cookie.name cookie) σ')
        = Ok (if truthyStr (Cookie.value cookie)
              then Some (Cookie.value cookie) else None)
     /\ forall other, other <> Cookie.name cookie ->
          snd (CookieMap.get this other σ') = snd (CookieMap.get this other σ))
  /\ (forall name value, Cookie.isValidCookieName name = true -> exists σ',
        CookieMap.set this (inl name) (Some value) σ = (σ', Ok tt)
        /\ snd (CookieMap.get this name σ')
           = Ok (if truthyStr value then Some value else None)
        /\ forall other, other <> name ->
             snd (CookieMap.get this other σ') = snd (CookieMap.get this other σ))
  /\ (forall name value, Cookie.isValidCookieName name = false ->
        CookieMap.set this (inl name) (Some value) σ
        = (σ, Throw (TypeError "Invalid cookie name: contains invalid characters"))).
Proof.
  intros Hwf Hthis. split; [|split].
  - intros cookie value.
    destruct (set_cookie_effect σ this cookie value Hwf Hthis) as (σ' & Hrun & _ & Hv).
    destruct (viewOf_insert _ _ _ _ Hv) as [_ Hview].
    exists σ'. split; [done|]. split.
    + by rewrite get_view, Hview, get_set_same.
    + intros other Hne. by rewrite !get_view, Hview, get_set_other.
  - intros name value Hname.
    pose proof (new_name_value name value Hname) as Hc.
    destruct (set_name_effect σ this name value _ Hwf Hthis Hc) as (σ' & Hrun & _ & Hv).
    destruct (viewOf_insert _ _ _ _ Hv) as [_ Hview].
    exists σ'. split; [done|]. split.
    + rewrite get_view, Hview. cbn [snd]. f_equal.
      apply (get_set_same (Cookie.mk name value _ _ _ _ _ _ _ _)).
    + intros other Hne. rewrite !get_view, Hview. cbn [snd]. f_equal.
      by apply (get_set_other (Cookie.mk name value _ _ _ _ _ _ _ _)).
  - intros name value Hname. cbn [CookieMap.set].
    unfold mbind, M_bind, CookieMap.lift, Cookie.create, Cookie.new.
    cbn [CookieOptions.name CookieOptions.ofNameValue]. by rewrite Hname.
Qed.

(** The collection built from [a=1; b=2]. *)
Lemma set_then_get_witness :
  let σ := fst (CookieMap.new (Some (InputString (str "a=1; b=2"))) Store.empty) in
  (exists σ',
     CookieMap.set 2 (inl (str "a")) (Some (str "x")) σ = (σ', Ok tt)
     /\ snd (CookieMap.get 2 (str "a") σ') = Ok (Some (str "x"))
     /\ forall other, other <> str "a" ->
          snd (CookieMap.get 2 other σ') = snd (CookieMap.get 2 other σ))
  /\ CookieMap.set 2 (inl (str "a b")) (Some (str "x")) σ
     = (σ, Throw (TypeError "Invalid cookie name: contains invalid characters")).
Proof.
  cbv zeta.
  destruct (set_then_get
              (fst (CookieMap.new (Some (InputString (str "a=1; b=2"))) Store.empty))
              2%nat) as (_ & Hvalid & Hinvalid).
  - destruct (new_effect Store.empty (Some (InputString (str "a=1; b=2")))
                wellFormed_empty) as (σ' & -> & Hwf & _). exact Hwf.
  - vm_compute. by eexists.
  - split.
    + apply (Hvalid (str "a") (str "x")). reflexivity.
    + apply (Hinvalid (str "a b") (str "x")). reflexivity.
Defined.

Section AfterDelete.

Lemma getAllChanges_view (σ : Store.t) (this : nat) :
  CookieMap.getAllChanges this σ = (σ, Ok (View.modified (viewOf σ this))).
Proof. reflexivity. Qed.

Lemma toJSON_view (σ : Store.t) (this : nat) :
  CookieMap.toJSON this σ
  = (σ, Ok (fold_left (fun result cookie =>
                         if negb (inObject (KeyValuePair.key cookie) result)
                         then assignProperty (KeyValuePair.key cookie)
                                (KeyValuePair.value cookie) result
                         else result) (View.original (viewOf σ this))
              (fold_left (fun result cookie =>
                            if CookieMap.nonEmptyValue cookie
                            then assignProperty (Cookie.name cookie)
                                   (Cookie.value cookie) result
                            else result) (View.modified (viewOf σ this)) ∅))).
Proof. reflexivity. Qed.

(** A marker reads as absent. *)
Lemma create_marker_value (name : jsstring) (domain path : option jsstring)
    (marker : Cookie.t) :
  Cookie.create (CookieMap.deleteOptions name domain path) = Ok marker ->
  Cookie.name marker = name /\ Cookie.value marker = [].
Proof.
  unfold Cookie.create, Cookie.new. repeat case_match; try done.
  by intros [= <-].
Qed.

Lemma create_marker_invalid_name (name : jsstring) (domain path : option jsstring) :
  Cookie.isValidCookieName name = false ->
  Cookie.create (CookieMap.deleteOptions name domain path)
  = Throw (TypeError "Invalid cookie name: contains invalid characters").
Proof.
  intros Hn. unfold Cookie.create, Cookie.new.
  cbn [CookieMap.deleteOptions CookieOptions.name]. by rewrite Hn.
Qed.

End AfterDelete.

(** X6. After [delete], whether it returns or throws, [get] of the deleted
    name returns [undefined] and [get] of every other name returns what it
    returned before.  A [delete] whose name is not a valid cookie name
    throws a [TypeError] after the removal: the entries of that name are
    gone and no marker is recorded. *)
Theorem delete_then_get (σ : Store.t) (this : nat)
    (nameOrOptions : jsstring + CookieStoreDeleteOptions.t) :
  wellFormed σ -> is_Some (Store.objects σ !! this) ->
  exists σ' outcome,
    CookieMap.delete this nameOrOptions σ = (σ', outcome)
    /\ snd (CookieMap.get this (deleteName nameOrOptions) σ') = Ok None
    /\ (forall other, other <> deleteName nameOrOptions ->
          snd (CookieMap.get this other σ') = snd (CookieMap.get this other σ))
    /\ (Cookie.isValidCookieName (deleteName nameOrOptions) = false ->
          outcome = Throw (TypeError "Invalid cookie name: contains invalid characters")
          /\ snd (CookieMap.getAllChanges this σ')
             = Ok (filter (fun cookie => Cookie.name cookie <> deleteName nameOrOptions)
                     (View.modified (viewOf σ this)))).
Proof.
  intros Hwf Hthis.
  pose proof (delete_effect σ this nameOrOptions Hwf Hthis) as Hd. cbv zeta in Hd.
  destruct (Cookie.create _) as [marker|e] eqn:Hc.
  - destruct Hd as (σ' & Hrun & _ & Hv).
    destruct (viewOf_insert _ _ _ _ Hv) as [_ Hview].
    destruct (create_marker_value _ _ _ _ Hc) as [Hname Hvalue].
    exists σ', (Ok (bool_decide (Observe.get (viewOf σ this) (deleteName nameOrOptions)
                                 <> None))).
    split; [done|]. split; [|split].
    + rewrite get_view, Hview, <- Hname, get_set_same. by rewrite Hvalue.
    + intros other Hne. rewrite !get_view, Hview, get_set_other; [done|].
      by rewrite Hname.
    + intros Hn. by rewrite create_marker_invalid_name in Hc.
  - destruct Hd as (σ' & Hrun & _ & Hv).
    destruct (viewOf_insert _ _ _ _ Hv) as [_ Hview].
    exists σ', (Throw e). split; [done|]. split; [|split].
    + by rewrite get_view, Hview, get_remove_same.
    + intros other Hne. by rewrite !get_view, Hview, get_remove_other.
    + intros Hn. rewrite create_marker_invalid_name in Hc by done.
      injection Hc as <-. split; [done|]. by rewrite getAllChanges_view, Hview.
Qed.

(** The collection built from [a%20b=1; c=2], whose first name is not a
    valid cookie name. *)
Lemma delete_then_get_witness :
  let σ := fst (CookieMap.new (Some (InputString (str "a%20b=1; c=2"))) Store.empty) in
  snd (CookieMap.get 2 (str "a b") σ) = Ok (Some (str "1"))
  /\ exists σ' outcome,
      CookieMap.delete 2 (inl (str "a b")) σ = (σ', outcome)
      /\ snd (CookieMap.get 2 (str "a b") σ') = Ok None
      /\ (forall other, other <> str "a b" ->
            snd (CookieMap.get 2 other σ') = snd (CookieMap.get 2 other σ))
      /\ outcome = Throw (TypeError "Invalid cookie name: contains invalid characters")
      /\ snd (CookieMap.getAllChanges 2 σ') = Ok [].
Proof.
  cbv zeta. split; [vm_compute; reflexivity|].
  destruct (delete_then_get
              (fst (CookieMap.new (Some (InputString (str "a%20b=1; c=2"))) Store.empty))
              2%nat (inl (str "a b")))
    as (σ' & outcome & Hrun & Hget & Hother & Hinvalid).
  - destruct (new_effect Store.empty (Some (InputString (str "a%20b=1; c=2")))
                wellFormed_empty) as (σ' & -> & Hwf & _). exact Hwf.
  - vm_compute. by eexists.
  - exists σ', outcome. split; [done|]. split; [done|]. split; [done|].
    apply Hinvalid. reflexivity.
Defined.

(** X7. [clear()] empties the collection and its record of changes: the
    size is 0, every [get] returns [undefined], [getAll], [getAllChanges]
    and [toJSON] are empty, and [writeSetCookieHeaders] appends no header,
    also for the names deleted before. *)
Theorem clear_forgets_changes `{Engine} (σ : Store.t) (this : nat) :
  wellFormed σ -> is_Some (Store.objects σ !! this) ->
  exists σ',
    CookieMap.clear this σ = (σ', Ok tt)
    /\ snd (CookieMap.size this σ') = Ok 0%nat
    /\ (forall name, snd (CookieMap.get this name σ') = Ok None)
    /\ snd (CookieMap.getAll this σ') = Ok []
    /\ snd (CookieMap.getAllChanges this σ') = Ok []
    /\ snd (CookieMap.toJSON this σ') = Ok ∅
    /\ Parsers.writeSetCookieHeaders this σ' = ([], Ok tt).
Proof.
  intros Hwf Hthis.
  destruct (clear_effect σ this Hwf Hthis) as (σ' & Hrun & _ & Hv).
  destruct (viewOf_insert _ _ _ _ Hv) as [_ Hview].
  exists σ'. split; [done|].
  split; [by rewrite size_view, Hview|].
  split; [intros name; by rewrite get_view, Hview|].
  split; [by rewrite getAll_view, Hview|].
  split; [by rewrite getAllChanges_view, Hview|].
  split; [by rewrite toJSON_view, Hview|].
  unfold Parsers.writeSetCookieHeaders. by rewrite getAllChanges_view, Hview.
Qed.

(** The collection built from [a=1; b=2] after [delete("a")]. *)
Lemma clear_forgets_changes_witness :
  let σ := applyCall (DoMutate 2 (DoDelete (inl (str "a"))))
             (applyCall (DoNew (Some (InputString (str "a=1; b=2")))) Store.empty) in
  snd (CookieMap.getAllChanges 2 σ)
  = Ok [Cookie.mk (str "a") [] [] (str "/") (Num 1) false Lax false NaN false]
  /\ exists σ',
      CookieMap.clear 2 σ = (σ', Ok tt)
      /\ snd (CookieMap.size 2 σ') = Ok 0%nat
      /\ (forall name, snd (CookieMap.get 2 name σ') = Ok None)
      /\ snd (CookieMap.getAll 2 σ') = Ok []
      /\ snd (CookieMap.getAllChanges 2 σ') = Ok []
      /\ snd (CookieMap.toJSON 2 σ') = Ok ∅
      /\ Parsers.writeSetCookieHeaders 2 σ' = ([], Ok tt).
Proof.
  cbv zeta. split; [vm_compute; reflexivity|].
  apply clear_forgets_changes.
  - destruct (reachable_invariant (fun _ => True)
                (applyCall (DoMutate 2 (DoDelete (inl (str "a"))))
                   (applyCall (DoNew (Some (InputString (str "a=1; b=2"))))
                      Store.empty))) as [Hwf _]; [|exact Hwf].
    repeat (apply reachable_call; [|by vm_compute; eexists || exact I|exact I]).
    apply reachable_empty.
  - vm_compute. by eexists.
Defined.

(** ** The last [set] of a name wins *)

Section LastSet.

Lemma setInView_after_remove (cookie : Cookie.t) (v : View.t) :
  setInView cookie (removeFromView (Cookie.name cookie) v) = setInView cookie v.
Proof.
  unfold setInView, removeFromView. cbn [View.modified View.original].
  f_equal; [|f_equal]; rewrite list_filter_filter; apply list_filter_iff; tauto.
Qed.

(** The mutations that touch one name only. *)
Lemma mutation_of_name_effect (σ : Store.t) (this : nat) (m : mutation)
    (name : jsstring) :
  wellFormed σ -> is_Some (Store.objects σ !! this) ->
  match m with
  | DoSet (inl n) _ => n = name
  | DoSet (inr cookie) _ => Cookie.name cookie = name
  | DoDelete nameOrOptions => deleteName nameOrOptions = name
  | DoClear => False
  end ->
  wellFormed (applyMutation this m σ)
  /\ exists v',
       View.ofStore (applyMutation this m σ) = <[this := v']> (View.ofStore σ)
       /\ (v' = viewOf σ this
           \/ v' = removeFromView name (viewOf σ this)
           \/ exists cookie, Cookie.name cookie = name
                             /\ v' = setInView cookie (viewOf σ this)).
Proof.
  intros Hwf Hthis Hm.
  assert (wellFormed σ
          /\ exists v', View.ofStore σ = <[this := v']> (View.ofStore σ)
               /\ (v' = viewOf σ this
                   \/ v' = removeFromView name (viewOf σ this)
                   \/ exists cookie, Cookie.name cookie = name
                                     /\ v' = setInView cookie (viewOf σ this)))
    as Hsame.
  { split; [done|]. eexists. split; [by apply ofStore_insert_id|by left]. }
  destruct m as [[n|cookie] value|nameOrOptions|]; cbn [applyMutation]; [..|done].
  - subst n. destruct value as [value|]; [|exact Hsame].
    destruct (Cookie.create (CookieOptions.ofNameValue name value))
      as [cookie|e] eqn:Hc.
    + destruct (set_name_effect σ this name value cookie Hwf Hthis Hc)
        as (σ' & -> & Hwf' & Hv').
      split; [done|]. eexists. split; [done|]. right. right. exists cookie.
      split; [|done]. by rewrite (create_name _ _ Hc).
    + cbn [CookieMap.set]. unfold mbind, M_bind, CookieMap.lift. rewrite Hc.
      exact Hsame.
  - destruct (set_cookie_effect σ this cookie value Hwf Hthis)
      as (σ' & -> & Hwf' & Hv').
    split; [done|]. eexists. split; [done|]. right. right. by exists cookie.
  - pose proof (delete_effect σ this nameOrOptions Hwf Hthis) as Hd.
    cbv zeta in Hd. rewrite Hm in Hd. destruct (Cookie.create _) as [marker|e] eqn:Hc.
    + destruct Hd as (σ' & -> & Hwf' & Hv').
      split; [done|]. eexists. split; [done|]. right. right. exists marker.
      split; [|done]. by rewrite (create_name _ _ Hc).
    + destruct Hd as (σ' & -> & Hwf' & Hv').
      split; [done|]. eexists. split; [done|]. by right; left.
Qed.

End LastSet.

(** X8. The last [set] of a name wins: a [set(cookie)] that follows a
    [set] or a [delete] of the same name leaves the collection exactly as
    the same [set(cookie)] alone would, so every reading method, and the
    record of changes, shows no trace of the earlier call. *)
Theorem last_set_wins (σ : Store.t) (this : nat) (earlier : mutation)
    (cookie : Cookie.t) (value : option jsstring) :
  wellFormed σ -> is_Some (Store.objects σ !! this) ->
  match earlier with
  | DoSet (inl name) _ => name = Cookie.name cookie
  | DoSet (inr other) _ => Cookie.name other = Cookie.name cookie
  | DoDelete nameOrOptions => deleteName nameOrOptions = Cookie.name cookie
  | DoClear => False
  end ->
  sameObservations
    (applyMutations this [earlier; DoSet (inr cookie) value] σ) this
    (applyMutation this (DoSet (inr cookie) value) σ) this.
Proof.
  intros Hwf Hthis Hearlier. apply sameObservations_view.
  destruct (mutation_of_name_effect σ this earlier _ Hwf Hthis Hearlier)
    as (Hwf1 & v1 & Hv1 & Hcases).
  destruct (viewOf_insert _ _ _ _ Hv1) as [Hthis1 Hview1].
  change (applyMutations this [earlier; DoSet (inr cookie) value] σ)
    with (fst (CookieMap.set this (inr cookie) value (applyMutation this earlier σ))).
  cbn [applyMutation].
  destruct (set_cookie_effect _ this cookie value Hwf1 Hthis1) as (σ2 & -> & _ & Hv2).
  destruct (set_cookie_effect σ this cookie value Hwf Hthis) as (σ3 & -> & _ & Hv3).
  cbn [fst].
  destruct (viewOf_insert _ _ _ _ Hv2) as [_ ->].
  destruct (viewOf_insert _ _ _ _ Hv3) as [_ ->].
  rewrite Hview1.
  destruct Hcases as [->|[->|(c' & Hn & ->)]].
  - done.
  - apply setInView_after_remove.
  - by apply setInView_twice.
Qed.

(** [delete("a")], then [set] of a cookie named [a], on the collection
    built from [a=1; b=2]. *)
Lemma last_set_wins_witness :
  let σ := fst (CookieMap.new (Some (InputString (str "a=1; b=2"))) Store.empty) in
  let cookie := Cookie.mk (str "a") (str "3") [] (str "/") (Num (-1))
                  true Strict false NaN false in
  sameObservations
    (applyMutations 2 [DoDelete (inl (str "a")); DoSet (inr cookie) None] σ) 2
    (applyMutation 2 (DoSet (inr cookie) None) σ) 2.
Proof.
  cbv zeta. apply last_set_wins.
  - destruct (new_effect Store.empty (Some (InputString (str "a=1; b=2")))
                wellFormed_empty) as (σ' & -> & Hwf & _). exact Hwf.
  - vm_compute. by eexists.
  - reflexivity.
Defined.

(** X9. No two collections share state: in a store reachable through the
    public interface, any sequence of [set], [delete] and [clear] calls on
    one collection leaves every reading method of every other collection
    as it was. *)
Theorem mutations_leave_other_collections
    (P : option CookieMapInput -> Prop) (σ : Store.t) (this other : nat)
    (ms : list mutation) :
  reachable P σ ->
  is_Some (Store.objects σ !! this) -> is_Some (Store.objects σ !! other) ->
  other <> this ->
  sameObservations (applyMutations this ms σ) other σ other.
Proof.
  intros Hreach Hthis Hother Hne.
  destruct (reachable_invariant P σ Hreach) as [Hwf _].
  apply sameObservations_view.
  by destruct (applyMutations_frame σ this other ms Hwf Hthis Hother Hne)
    as (_ & _ & _ & ->).
Qed.

(** Two collections built from the same array of pairs. *)
Lemma mutations_leave_other_collections_witness :
  let input := Some (InputArray [[str "a"; str "1"]; [str "b"; str "2"]]) in
  let σ := applyCall (DoNew input) (applyCall (DoNew input) Store.empty) in
  sameObservations
    (applyMutations 2 [DoSet (inl (str "a")) (Some (str "x"));
                       DoDelete (inl (str "b")); DoClear] σ) 5 σ 5.
Proof.
  cbv zeta. apply (mutations_leave_other_collections (fun _ => True)).
  - repeat (apply reachable_call; [|by vm_compute; eexists || exact I|exact I]).
    apply reachable_empty.
  - vm_compute. by eexists.
  - vm_compute. by eexists.
  - done.
Defined.

(** ** Every cookie is valid *)

Section CookieInvariant.
Context `{Engine}.

Lemma parseAttribute_path (l : Cookie.Locals.t) (attribute : jsstring) :
  startsWith 47 (Cookie.Locals.path l) = true ->
  startsWith 47 (Cookie.Locals.path (Cookie.parseAttribute l attribute)) = true.
Proof.
  intros Hl. unfold Cookie.parseAttribute.
  destruct (Cookie.attributeNameValue attribute) as [nm v]. destruct l.
  cbn [Cookie.Locals.path] in Hl.
  repeat case_match; cbn [Cookie.Locals.path]; try done.
  by match goal with Hp : _ && startsWith 47 _ = true |- _ =>
       apply andb_true_iff in Hp as [_ Hp] end.
Qed.

Lemma parseAttributes_path (attributes : list jsstring) (l : Cookie.Locals.t) :
  startsWith 47 (Cookie.Locals.path l) = true ->
  startsWith 47 (Cookie.Locals.path (fold_left Cookie.parseAttribute attributes l))
  = true.
Proof.
  revert l. induction attributes as [|a r IH]; intros l Hl; [done|].
  cbn [fold_left]. by apply IH, parseAttribute_path.
Qed.

Lemma new_fields_valid (options : CookieOptions.t) (cookie : Cookie.t) :
  Cookie.new options = Ok cookie ->
  Cookie.isValidCookieName (Cookie.name cookie) = true
  /\ Cookie.isValidCookiePath (Cookie.path cookie) = true
  /\ truthyStr (Cookie.path cookie) = true
  /\ Cookie.isValidCookieDomain (Cookie.domain cookie) = true
  /\ truthyNum (Cookie.expires cookie) = true
  /\ Cookie.maxAge cookie <> Num 0.
Proof.
  unfold Cookie.new.
  destruct (Cookie.isValidCookieName (CookieOptions.name options)) eqn:Hn; [|done].
  cbn [negb].
  destruct (Cookie.presentAndNot (CookieOptions.path options) _) eqn:Hp; [done|].
  destruct (Cookie.presentAndNot (CookieOptions.domain options) _) eqn:Hd; [done|].
  intros [= <-]. cbn [Cookie.name Cookie.path Cookie.domain Cookie.expires Cookie.maxAge].
  unfold Cookie.presentAndNot, Cookie.orStr, Cookie.orNum in *.
  split; [done|]. split; [|split; [|split; [|split]]].
  - destruct (CookieOptions.path options) as [p|]; [|done].
    destruct (truthyStr p); [|done]. by apply negb_false_iff in Hp.
  - destruct (CookieOptions.path options) as [p|]; [|done].
    by destruct (truthyStr p) eqn:Hp'.
  - destruct (CookieOptions.domain options) as [d|]; [|done].
    destruct (truthyStr d); [|done]. by apply negb_false_iff in Hd.
  - destruct (CookieOptions.expires options) as [x|]; [|done].
    by destruct (truthyNum x) eqn:Hx.
  - destruct (CookieOptions.maxAge options) as [[|z]|]; [done| |done].
    cbn [truthyNum]. destruct (Z.eqb_spec z 0); [done|]. cbn [negb]. congruence.
Qed.

End CookieInvariant.

(** X10. Every cookie that the constructor, [Cookie.create] or
    [Cookie.parse] returns has a valid name, a valid non-empty path, a
    valid domain, an [expires] that is neither 0 nor [NaN], and a [maxAge]
    that is not 0; the path of a parsed cookie begins with [/]. *)
Theorem returned_cookie_is_valid `{Engine} :
  (forall options cookie,
     Cookie.new options = Ok cookie \/ Cookie.create options = Ok cookie ->
     Cookie.isValidCookieName (Cookie.name cookie) = true
     /\ Cookie.isValidCookiePath (Cookie.path cookie) = true
     /\ truthyStr (Cookie.path cookie) = true
     /\ Cookie.isValidCookieDomain (Cookie.domain cookie) = true
     /\ truthyNum (Cookie.expires cookie) = true
     /\ Cookie.maxAge cookie <> Num 0)
  /\ (forall cookieString cookie,
        Cookie.parse cookieString = Ok cookie ->
        Cookie.isValidCookieName (Cookie.name cookie) = true
        /\ Cookie.isValidCookiePath (Cookie.path cookie) = true
        /\ startsWith 47 (Cookie.path cookie) = true
        /\ Cookie.isValidCookieDomain (Cookie.domain cookie) = true
        /\ truthyNum (Cookie.expires cookie) = true
        /\ Cookie.maxAge cookie <> Num 0).
Proof.
  split.
  - intros options cookie [Hc|Hc]; by apply (new_fields_valid options).
  - intros s cookie Hs.
    destruct (parse_Ok_fields s cookie Hs) as (_ & _ & Hpath & _).
    assert (exists options, Cookie.new options = Ok cookie) as [options Hc].
    { unfold Cookie.parse, Cookie.create in Hs. repeat case_match; try done.
      by eexists. }
    destruct (new_fields_valid options cookie Hc) as (? & ? & _ & ? & ? & ?).
    repeat (split; [done|]). split; [|done].
    rewrite Hpath.
    pose proof (parseAttributes_path (Cookie.attributesOf s) Cookie.Locals.initial
                  eq_refl) as Hstart.
    fold (Cookie.parseAttributes (Cookie.attributesOf s)) in Hstart.
    unfold Cookie.orStr.
    by destruct (Cookie.Locals.path (Cookie.parseAttributes (Cookie.attributesOf s))).
Qed.

(** ** Attributes that [parse] does not know *)

Section UnknownAttribute.
Context `{Engine}.

Lemma split_nonempty (sep : N) (s : jsstring) : split sep s <> [].
Proof.
  destruct s as [|c r]; [done|]. cbn.
  destruct (c =? sep); [done|]. by destruct (split sep r).
Qed.

Lemma split_last (sep : N) (s token : jsstring) :
  (sep ∉ token) -> split sep (s ++ sep :: token) = split sep s ++ [token].
Proof.
  intros Htoken. induction s as [|c r IH].
  { cbn. rewrite N.eqb_refl. by rewrite split_not_elem. }
  cbn [app split]. rewrite IH. destruct (c =? sep); [done|].
  pose proof (split_nonempty sep r). by destruct (split sep r).
Qed.

Lemma elem_of_first (c : N) (s : jsstring) :
  c ∈ s -> exists p rest, s = p ++ c :: rest /\ c ∉ p.
Proof.
  induction s as [|x s IH]; intros Hc; [by apply elem_of_nil in Hc|].
  destruct (decide (x = c)) as [->|Hx].
  { exists [], s. split; [done|]. apply not_elem_of_nil. }
  apply elem_of_cons in Hc as [->|Hc]; [done|].
  destruct (IH Hc) as (p & rest & -> & Hp).
  exists (x :: p), rest. split; [done|]. apply not_elem_of_cons. by split.
Qed.

Lemma parseAttribute_unknown (l : Cookie.Locals.t) (token : jsstring) :
  (fst (Cookie.attributeNameValue token)
   ∉ map str ["domain"; "path"; "expires"; "max-age"; "secure"; "httponly";
              "partitioned"; "samesite"]%string) ->
  Cookie.parseAttribute l token = l.
Proof.
  intros Hname. unfold Cookie.parseAttribute.
  destruct (Cookie.attributeNameValue token) as [nm v]. cbn [fst map] in Hname.
  repeat (apply not_elem_of_cons in Hname as [?%strEq_false Hname]).
  destruct l. by repeat match goal with Hs : strEq _ _ = false |- _ =>
                          rewrite Hs; clear Hs end.
Qed.

End UnknownAttribute.

(** X11. [Cookie.parse] ignores an attribute it does not know: a string
    of at least two characters followed by [;] and a token whose
    lower-cased name is none of [domain], [path], [expires], [max-age],
    [secure], [httponly], [partitioned], [samesite] is parsed exactly as
    the string alone, be the result a cookie or an error.  The empty token
    is such a token, so a trailing [;] changes nothing. *)
Theorem parse_ignores_unknown_attribute `{Engine} (cookieString token : jsstring) :
  (2 <= length cookieString)%nat ->
  (59 ∉ token) ->
  (fst (Cookie.attributeNameValue token)
   ∉ map str ["domain"; "path"; "expires"; "max-age"; "secure"; "httponly";
              "partitioned"; "samesite"]%string) ->
  Cookie.parse (cookieString ++ 59 :: token) = Cookie.parse cookieString.
Proof.
  intros Hlen Htoken Hname. unfold Cookie.parse.
  replace (Nat.ltb (length (cookieString ++ 59 :: token)) 2) with false
    by (symmetry; apply Nat.ltb_ge; rewrite length_app; cbn [length]; lia).
  replace (length cookieString <? 2)%nat with false
    by (symmetry; apply Nat.ltb_ge; lia).
  assert (Cookie.cookiePairOf (cookieString ++ 59 :: token)
          = Cookie.cookiePairOf cookieString
          /\ Cookie.parseAttributes (Cookie.attributesOf (cookieString ++ 59 :: token))
             = Cookie.parseAttributes (Cookie.attributesOf cookieString))
    as [-> ->]; [|done].
  destruct (decide (59 ∈ cookieString)) as [Hin|Hout].
  - destruct (elem_of_first _ _ Hin) as (p & rest & -> & Hp).
    rewrite <- app_assoc. cbn [app].
    destruct (cookiePairOf_first p (rest ++ 59 :: token) Hp) as [-> ->].
    destruct (cookiePairOf_first p rest Hp) as [-> ->].
    split; [done|]. rewrite split_last by done.
    unfold Cookie.parseAttributes. rewrite fold_left_app. cbn [fold_left].
    by apply parseAttribute_unknown.
  - destruct (cookiePairOf_first cookieString token Hout) as [-> ->].
    unfold Cookie.cookiePairOf, Cookie.attributesOf.
    rewrite (indexOf_not_elem 59 cookieString Hout).
    change ((-1 =? -1)%Z) with true. cbn [negb]. split; [done|].
    rewrite split_not_elem by done. unfold Cookie.parseAttributes. cbn [fold_left].
    by apply parseAttribute_unknown.
Qed.

(** An attribute [Priority], and a trailing [;]. *)
Lemma parse_ignores_unknown_attribute_witness :
  Cookie.parse (str "a=1; Path=/x; Priority=High") = Cookie.parse (str "a=1; Path=/x")
  /\ Cookie.parse (str "a=1; Secure;") = Cookie.parse (str "a=1; Secure")
  /\ Cookie.parse (str "a=1; Secure")
     = Ok (Cookie.mk (str "a") (str "1") [] (str "/") (Num (-1)) true Lax false NaN false).
Proof.
  split; [|split; [|vm_compute; reflexivity]].
  - apply (parse_ignores_unknown_attribute (str "a=1; Path=/x") (str " Priority=High")).
    + vm_compute. lia.
    + apply (bool_decide_unpack _). vm_compute. exact I.
    + apply (bool_decide_unpack _). vm_compute. exact I.
  - apply (parse_ignores_unknown_attribute (str "a=1; Secure") []).
    + vm_compute. lia.
    + apply not_elem_of_nil.
    + apply (bool_decide_unpack _). vm_compute. exact I.
Defined.

(** ** parsers.ts: [Cookie] headers *)

(** X12. [parseCookieHeader] gives each name that [Object.prototype] does
    not define the value of the first pair of that name in the header,
    and no property when the header has no such pair; [parseCookies]
    returns the same record for the string and for a [Headers] object
    whose [cookie] header is that string. *)
Theorem parseCookieHeader_first_pair_wins (σ : Store.t) (cookieHeader name : jsstring) :
  wellFormed σ -> (name ∉ objectPrototypeKeys) ->
  exists json,
    snd (Parsers.parseCookieHeader cookieHeader σ) = Ok json
    /\ json !! name
       = KeyValuePair.value
           <$> List.find (fun pair => strEq (KeyValuePair.key pair) name)
                 (headerPairs cookieHeader)
    /\ snd (Parsers.parseCookies (inl cookieHeader) σ) = Ok json
    /\ snd (Parsers.parseCookies (inr (Some cookieHeader)) σ) = Ok json.
Proof.
  intros Hwf Hname.
  destruct (new_view σ (Some (InputString cookieHeader)) Hwf)
    as (σ' & this & Hrun & _ & _ & _ & Hview).
  assert (Parsers.parseCookieHeader cookieHeader σ
          = (σ', Ok (fold_left
                       (fun result cookie =>
                          if negb (inObject (KeyValuePair.key cookie) result)
                          then assignProperty (KeyValuePair.key cookie)
                                 (KeyValuePair.value cookie) result
                          else result) (headerPairs cookieHeader) ∅))) as Hjson.
  { unfold Parsers.parseCookieHeader. rewrite (bind_Ok _ _ _ _ _ Hrun).
    by rewrite toJSON_view, Hview. }
  eexists. split; [by rewrite Hjson|]. split; [|split].
  - rewrite toJSON_original by done. by rewrite lookup_empty.
  - cbn [Parsers.parseCookies]. by rewrite Hjson.
  - cbn [Parsers.parseCookies Parsers.createCookieMapFromHeaders].
    destruct cookieHeader as [|c r]; cbn [truthyStr].
    + destruct (new_view σ None Hwf) as (σ0 & this0 & Hrun0 & _ & _ & _ & Hview0).
      rewrite (bind_Ok _ _ _ _ _ Hrun0). by rewrite toJSON_view, Hview0.
    + fold (Parsers.parseCookieHeader (c :: r)). by rewrite Hjson.
Qed.

(** A header that repeats a name. *)
Lemma parseCookieHeader_first_pair_wins_witness :
  exists json,
    snd (Parsers.parseCookieHeader (str "a=1; b=2; a=3") Store.empty) = Ok json
    /\ json !! str "a" = Some (str "1")
    /\ snd (Parsers.parseCookies (inl (str "a=1; b=2; a=3")) Store.empty) = Ok json
    /\ snd (Parsers.parseCookies (inr (Some (str "a=1; b=2; a=3"))) Store.empty)
       = Ok json.
Proof.
  apply (parseCookieHeader_first_pair_wins Store.empty (str "a=1; b=2; a=3") (str "a")).
  - apply wellFormed_empty.
  - apply (bool_decide_unpack _). vm_compute. exact I.
Defined.

(** ** parsers.ts: [Set-Cookie] headers *)

Section SetCookieHeaders.
Context `{Engine}.

Lemma parseSetCookieHeadersFrom_omap (setCookieHeaders : list jsstring)
    (cookies : list Cookie.t) (console : list Parsers.warning) :
  Parsers.parseSetCookieHeadersFrom setCookieHeaders cookies console
  = (cookies ++ omap (fun header => match Cookie.parse header with
                                    | Ok cookie => Some cookie
                                    | Throw _ => None
                                    end) setCookieHeaders,
     console ++ omap (fun header => match Cookie.parse header with
                                    | Ok _ => None
                                    | Throw error => Some (header, error)
                                    end) setCookieHeaders).
Proof.
  unfold Parsers.parseSetCookieHeadersFrom.
  revert cookies console. induction setCookieHeaders as [|h r IH]; intros cookies console.
  { simpl. by rewrite !app_nil_r. }
  simpl fold_left. simpl omap. destruct (Cookie.parse h) as [cookie|error].
  - rewrite IH. by rewrite <- app_assoc.
  - rewrite IH. by rewrite <- app_assoc.
Qed.



Lemma find_last (name : jsstring) (l : list Cookie.t) (cookie : Cookie.t) :
  List.find (fun c => strEq (Cookie.name c) name) (l ++ [cookie])
  = if strEq (Cookie.name cookie) name then
      match List.find (fun c => strEq (Cookie.name c) name) l with
      | Some c => Some c
      | None => Some cookie
      end
    else List.find (fun c => strEq (Cookie.name c) name) l.
Proof.
  induction l as [|x l IH]; cbn [app List.find].
  { by destruct (strEq (Cookie.name cookie) name). }
  destruct (strEq (Cookie.name x) name); [|done].
  by destruct (strEq (Cookie.name cookie) name).
Qed.


End SetCookieHeaders.

(** X13. [parseSetCookieHeaders] never throws: it returns, in the order of
    the headers, the cookie of every header that [Cookie.parse] accepts,
    repeated names included, and warns once for every header that
    [Cookie.parse] refuses; so the cookies and the warnings together are
    as many as the headers, and the cookies of a concatenation are the
    cookies of its two halves. *)
Theorem parseSetCookieHeaders_keeps_every_parsed `{Engine}
    (setCookieHeaders more : list jsstring) :
  map Ok (fst (Parsers.parseSetCookieHeaders setCookieHeaders))
  = filter (fun r => isOk r = true) (map Cookie.parse setCookieHeaders)
  /\ map fst (snd (Parsers.parseSetCookieHeaders setCookieHeaders))
     = filter (fun header => isOk (Cookie.parse header) = false) setCookieHeaders
  /\ Forall (fun '(header, error) => Cookie.parse header = Throw error)
       (snd (Parsers.parseSetCookieHeaders setCookieHeaders))
  /\ (length (fst (Parsers.parseSetCookieHeaders setCookieHeaders))
      + length (snd (Parsers.parseSetCookieHeaders setCookieHeaders))
      = length setCookieHeaders)%nat
  /\ fst (Parsers.parseSetCookieHeaders (setCookieHeaders ++ more))
     = fst (Parsers.parseSetCookieHeaders setCookieHeaders)
       ++ fst (Parsers.parseSetCookieHeaders more).
Proof.
  unfold Parsers.parseSetCookieHeaders.
  rewrite !parseSetCookieHeadersFrom_omap. cbn [fst snd app].
  split; [|split; [|split; [|split]]].
  - induction setCookieHeaders as [|h r IH]; [done|].
    simpl omap. cbn [map]. rewrite filter_cons.
    destruct (Cookie.parse h) as [c|e]; cbn [isOk].
    + rewrite decide_True by done. cbn [map]. f_equal. exact IH.
    + rewrite decide_False by done. exact IH.
  - induction setCookieHeaders as [|h r IH]; [done|].
    simpl omap. cbn [map]. rewrite filter_cons.
    destruct (Cookie.parse h) as [c|e]; cbn [isOk].
    + rewrite decide_False by done. exact IH.
    + rewrite decide_True by done. cbn [map fst]. f_equal. exact IH.
  - induction setCookieHeaders as [|h r IH]; [done|].
    simpl omap. destruct (Cookie.parse h) as [c|e] eqn:Hh; [exact IH|].
    apply Forall_cons. split; [done|exact IH].
  - induction setCookieHeaders as [|h r IH]; [done|].
    simpl omap. destruct (Cookie.parse h) as [c|e]; cbn [length app];
      change (list_omap _ _ ?f r) with (omap f r); lia.
  - by rewrite omap_app.
Qed.



(** The same headers, run as a program. *)
Lemma parseSetCookies_example :
  snd ((all ← Parsers.parseSetCookies
                (inl [str "a=1"; str "b=2; Secure"; str "novalue"; str "a=3"]);
        kept ← Parsers.parseSetCookies
                 (inr (Some [str "a=1"; str "b=2; Secure"; str "novalue"; str "a=3"]));
        mret (map Cookie.value (fst all), map Cookie.value (fst kept),
              map fst (snd kept))) Store.empty)
  = Ok ([str "1"; str "2"; str "3"], [str "2"; str "3"], [str "novalue"]).
Proof. vm_compute. reflexivity. Qed.

(** ** parsers.ts: records *)

Section Records.

Lemma elem_of_rev {A} (x : A) (l : list A) : x ∈ rev l <-> x ∈ l.
Proof. by rewrite !list_elem_of_In, <- in_rev. Qed.

Lemma cookiesToRecord_from (cookies : list Cookie.t) (record : gmap jsstring jsstring)
    (name : jsstring) :
  name <> str "__proto__" ->
  fold_left (fun record cookie =>
               assignProperty (Cookie.name cookie) (Cookie.value cookie) record)
    cookies record !! name
  = match List.find (fun cookie => strEq (Cookie.name cookie) name) (rev cookies) with
    | Some cookie => Some (Cookie.value cookie)
    | None => record !! name
    end.
Proof.
  intros Hname. revert record. induction cookies as [|c r IH]; intros record; [done|].
  cbn [fold_left rev]. rewrite IH, find_last.
  destruct (List.find _ (rev r)) as [c'|].
  { by destruct (strEq (Cookie.name c) name). }
  unfold assignProperty. destruct (strEq (Cookie.name c) name) eqn:Hc.
  - apply strEq_true in Hc. rewrite Hc.
    rewrite (proj2 (strEq_false _ _) Hname). by rewrite lookup_insert_eq.
  - apply strEq_false in Hc. destruct (strEq (Cookie.name c) _); [done|].
    by rewrite lookup_insert_ne.
Qed.

Lemma cookiesToRecord_proto (cookies : list Cookie.t) (record : gmap jsstring jsstring) :
  fold_left (fun record cookie =>
               assignProperty (Cookie.name cookie) (Cookie.value cookie) record)
    cookies record !! str "__proto__"
  = record !! str "__proto__".
Proof.
  revert record. induction cookies as [|c r IH]; intros record; [done|].
  cbn [fold_left]. rewrite IH. unfold assignProperty.
  destruct (strEq (Cookie.name c) (str "__proto__")) eqn:Hc; [done|].
  apply strEq_false in Hc. by rewrite lookup_insert_ne.
Qed.

(** [recordToCookies]: the cookies of the entries, or the error of the
    first name that is refused. *)
Lemma recordToCookiesFrom_valid (entries : list (jsstring * jsstring))
    (cookies : list Cookie.t) :
  Forall (fun entry => Cookie.isValidCookieName (fst entry) = true) entries ->
  Parsers.recordToCookiesFrom entries cookies
  = Ok (cookies
        ++ map (fun entry => Cookie.mk (fst entry) (snd entry) [] (str "/") (Num (-1))
                               false Lax false NaN false) entries).
Proof.
  intros Hvalid. revert cookies.
  induction Hvalid as [|[n v] entries Hn _ IH]; intros cookies.
  { cbn. by rewrite app_nil_r. }
  cbn [Parsers.recordToCookiesFrom map]. unfold Cookie.create.
  rewrite (new_name_value n v Hn), IH. by rewrite <- app_assoc.
Qed.

End Records.

(** X15. In the record of [cookiesToRecord] every name other than
    [__proto__] holds the value of the last cookie of that name, and has
    no property when no cookie bears it; a cookie named [__proto__] leaves
    no property. *)
Theorem cookiesToRecord_last_cookie_wins (cookies : list Cookie.t) :
  (forall name, name <> str "__proto__" ->
     Parsers.cookiesToRecord cookies !! name
     = Cookie.value
         <$> List.find (fun cookie => strEq (Cookie.name cookie) name) (rev cookies))
  /\ Parsers.cookiesToRecord cookies !! str "__proto__" = None.
Proof.
  unfold Parsers.cookiesToRecord. split.
  - intros name Hname. rewrite cookiesToRecord_from by done.
    rewrite lookup_empty. by destruct (List.find _ _).
  - by rewrite cookiesToRecord_proto, lookup_empty.
Qed.

(** X16. [recordToCookies] makes one cookie per entry, in order, with the
    name and the value of the entry and every other field at its default,
    when every name is a valid cookie name; [cookiesToRecord] of those
    cookies then holds exactly the entries, provided no name is
    [__proto__] (the entries of an object repeat no name). *)
Theorem record_round_trip (entries : list (jsstring * jsstring)) :
  NoDup (map fst entries) ->
  Forall (fun entry => Cookie.isValidCookieName (fst entry) = true
                       /\ fst entry <> str "__proto__") entries ->
  exists cookies,
    Parsers.recordToCookies entries = Ok cookies
    /\ cookies = map (fun entry => Cookie.mk (fst entry) (snd entry) [] (str "/")
                                     (Num (-1)) false Lax false NaN false) entries
    /\ forall name value,
         Parsers.cookiesToRecord cookies !! name = Some value <-> (name, value) ∈ entries.
Proof.
  intros Hnd Hvalid.
  assert (Forall (fun entry => Cookie.isValidCookieName (fst entry) = true) entries)
    as Hnames by (eapply Forall_impl; [exact Hvalid|]; by intros e [? _]).
  eexists. split; [by apply (recordToCookiesFrom_valid entries [])|].
  cbn [app]. split; [done|]. intros name value.
  set (cookieOf := fun entry : jsstring * jsstring =>
                     Cookie.mk (fst entry) (snd entry) [] (str "/") (Num (-1))
                       false Lax false NaN false).
  assert (forall entry, entry ∈ entries -> fst entry <> str "__proto__") as Hproto.
  { intros e He. rewrite Forall_forall in Hvalid. by destruct (Hvalid e He). }
  assert (NoDup (map Cookie.name (map cookieOf entries))) as Hnd'.
  { by rewrite map_map. }
  destruct (decide (name = str "__proto__")) as [->|Hname].
  { unfold Parsers.cookiesToRecord. rewrite cookiesToRecord_proto, lookup_empty.
    split; [done|]. intros Hin. by destruct (Hproto _ Hin). }
  unfold Parsers.cookiesToRecord. rewrite cookiesToRecord_from by done.
  rewrite lookup_empty. split.
  - destruct (List.find _ _) as [c|] eqn:Hfind; [|done].
    apply find_name_Some in Hfind as [Hc Hn]. intros [= <-].
    apply (proj1 (elem_of_rev _ _)), list_elem_of_fmap in Hc as ([n v] & -> & He).
    cbn in Hn. by subst n.
  - intros Hin.
    destruct (List.find _ _) as [c|] eqn:Hfind.
    + apply find_name_Some in Hfind as [Hc Hn]. apply (proj1 (elem_of_rev _ _)) in Hc.
      assert (c = cookieOf (name, value)) as ->; [|done].
      apply (NoDup_names_eq Cookie.name _ _ _ Hnd' Hc).
      * apply (list_elem_of_fmap_2 cookieOf _ _ Hin).
      * done.
    + exfalso. pose proof (proj1 (find_name_None _ _ _) Hfind) as Hnone.
      apply (Hnone (cookieOf (name, value))); [|done].
      apply (proj2 (elem_of_rev _ _)). apply (list_elem_of_fmap_2 cookieOf _ _ Hin).
Qed.

(** A record of two entries, and one whose second name has a space. *)
Lemma record_round_trip_witness :
  (exists cookies,
     Parsers.recordToCookies [(str "session", str "abc"); (str "lang", str "en")]
     = Ok cookies
     /\ cookies
        = [Cookie.mk (str "session") (str "abc") [] (str "/") (Num (-1))
             false Lax false NaN false;
           Cookie.mk (str "lang") (str "en") [] (str "/") (Num (-1))
             false Lax false NaN false]
     /\ forall name value,
          Parsers.cookiesToRecord cookies !! name = Some value
          <-> (name, value) ∈ [(str "session", str "abc"); (str "lang", str "en")])
  /\ Parsers.recordToCookies [(str "a", str "1"); (str "b c", str "2")]
     = Throw (TypeError "Invalid cookie name: contains invalid characters").
Proof.
  split; [|vm_compute; reflexivity].
  apply (record_round_trip [(str "session", str "abc"); (str "lang", str "en")]).
  - apply (bool_decide_unpack _). vm_compute. exact I.
  - repeat (apply Forall_cons; split;
            [split; [vm_compute; reflexivity|by vm_compute]|]).
    apply List.Forall_nil.
Defined.

(** X17. [recordToCookies] returns cookies exactly when every name of the
    record is a valid cookie name; otherwise it throws the [TypeError] of
    the constructor and returns no cookie at all, not even those of the
    entries before the invalid one. *)
Theorem recordToCookies_throws_on_invalid_name (entries : list (jsstring * jsstring)) :
  (forallb (fun entry => Cookie.isValidCookieName (fst entry)) entries = true
   /\ isOk (Parsers.recordToCookies entries) = true)
  \/ (forallb (fun entry => Cookie.isValidCookieName (fst entry)) entries = false
      /\ Parsers.recordToCookies entries
         = Throw (TypeError "Invalid cookie name: contains invalid characters")).
Proof.
  unfold Parsers.recordToCookies. generalize (@nil Cookie.t).
  induction entries as [|[n v] r IH]; intros cookies; [by left|].
  cbn [forallb fst Parsers.recordToCookiesFrom]. unfold Cookie.create.
  destruct (Cookie.isValidCookieName n) eqn:Hn.
  - rewrite (new_name_value n v Hn). cbn [andb]. apply IH.
  - right. split; [done|]. unfold Cookie.new.
    cbn [CookieOptions.ofNameValue CookieOptions.name]. by rewrite Hn.
Qed.

(** ** [CookieMap.create] *)

(** X18. [CookieMap.create] behaves as the constructor whatever its flag:
    the constructor does not throw, so the [catch] branch is never taken,
    the flag [throwOnInvalidCookieString] changes nothing and the empty
    collection is never substituted; the collection holds the pairs of the
    input. *)
Theorem create_is_the_constructor
    (σ : Store.t) (input : CookieMapInput) (throwOnInvalidCookieString : bool) :
  wellFormed σ ->
  CookieMap.create input throwOnInvalidCookieString σ = CookieMap.new (Some input) σ
  /\ exists σ' this,
       CookieMap.create input throwOnInvalidCookieString σ = (σ', Ok this)
       /\ snd (CookieMap.getAll this σ') = Ok (inputPairs (Some input))
       /\ snd (CookieMap.getAllChanges this σ') = Ok [].
Proof.
  intros Hwf.
  destruct (new_view σ (Some input) Hwf) as (σ' & this & Hrun & _ & _ & _ & Hview).
  assert (CookieMap.create input throwOnInvalidCookieString σ = (σ', Ok this)) as Hc.
  { unfold CookieMap.create, CookieMap.tryCatch. by rewrite Hrun. }
  split; [by rewrite Hc, Hrun|]. exists σ', this. split; [done|].
  split; [by rewrite getAll_view, Hview|by rewrite getAllChanges_view, Hview].
Qed.

(** A header with an escape that cannot be decoded, with the flag set. *)
Lemma create_is_the_constructor_witness :
  CookieMap.create (InputString (str "a=%zz; b")) true Store.empty
  = CookieMap.new (Some (InputString (str "a=%zz; b"))) Store.empty
  /\ exists σ' this,
       CookieMap.create (InputString (str "a=%zz; b")) true Store.empty = (σ', Ok this)
       /\ snd (CookieMap.getAll this σ')
          = Ok (inputPairs (Some (InputString (str "a=%zz; b"))))
       /\ snd (CookieMap.getAllChanges this σ') = Ok [].
Proof. apply create_is_the_constructor, wellFormed_empty. Defined.

Lemma create_example :
  snd ((c ← CookieMap.create (InputString (str "a=%zz; b")) true;
        CookieMap.getAll c) Store.empty)
  = Ok [KeyValuePair.mk (str "a") (str "%zz")].
Proof. vm_compute. reflexivity. Qed.

(** ** [writeSetCookieHeaders] *)

Section WriteHeaders.
Context `{Engine}.

Lemma appendEach_effect (changes : list Cookie.t) (appended : list jsstring) :
  exists written,
    fst (Parsers.appendEach changes appended) = appended ++ written
    /\ map Ok written = take (length written) (map Cookie.toString changes)
    /\ match snd (Parsers.appendEach changes appended) with
       | Ok _ => length written = length changes
       | Throw error =>
           map Cookie.toString changes !! length written = Some (Throw error)
       end.
Proof.
  revert appended. induction changes as [|c r IH]; intros appended.
  { exists []. cbn. by rewrite app_nil_r. }
  cbn [Parsers.appendEach]. destruct (Cookie.toString c) as [header|error] eqn:Hc.
  - destruct (IH (appended ++ [header])) as (written & Hfst & Htake & Hsnd).
    exists (header :: written). rewrite Hfst, <- app_assoc. split; [done|].
    cbn [map length take]. rewrite Hc. split; [by rewrite Htake|].
    destruct (snd _); [by rewrite Hsnd|exact Hsnd].
  - exists []. cbn [fst snd app length map take]. rewrite app_nil_r, Hc. done.
Qed.

End WriteHeaders.

(** X19. [writeSetCookieHeaders] appends one [Set-Cookie] header per
    recorded change, in the order of [getAllChanges], each the [toString]
    of its cookie.  It is not atomic: when the [toString] of a cookie
    throws, the headers of the changes before it have been appended and
    the error is thrown. *)
Theorem writeSetCookieHeaders_appends_in_order `{Engine} (σ : Store.t) (cookieMap : nat) :
  exists changes,
    snd (CookieMap.getAllChanges cookieMap σ) = Ok changes
    /\ map Ok (fst (Parsers.writeSetCookieHeaders cookieMap σ))
       = take (length (fst (Parsers.writeSetCookieHeaders cookieMap σ)))
           (map Cookie.toString changes)
    /\ match snd (Parsers.writeSetCookieHeaders cookieMap σ) with
       | Ok _ =>
           map Ok (fst (Parsers.writeSetCookieHeaders cookieMap σ))
           = map Cookie.toString changes
       | Throw error =>
           map Cookie.toString changes
             !! length (fst (Parsers.writeSetCookieHeaders cookieMap σ))
           = Some (Throw error)
       end.
Proof.
  exists (View.modified (viewOf σ cookieMap)). split; [done|].
  unfold Parsers.writeSetCookieHeaders. rewrite getAllChanges_view.
  destruct (appendEach_effect (View.modified (viewOf σ cookieMap)) [])
    as (written & Hfst & Htake & Hsnd).
  cbn [app] in Hfst. rewrite Hfst. split; [done|].
  destruct (snd _); [|done].
  rewrite Htake, Hsnd, <- (length_map Cookie.toString). apply firstn_all.
Qed.

(** A change whose value is half of a surrogate pair, between two that
    can be written. *)
Lemma writeSetCookieHeaders_example :
  Parsers.writeSetCookieHeaders 2
    (fst ((c ← CookieMap.new None;
           CookieMap.set c (inl (str "a")) (Some (str "1"));;
           CookieMap.set c (inl (str "b")) (Some [0xD800]);;
           CookieMap.set c (inl (str "c")) (Some (str "3"))) Store.empty))
  = ([str "a=1; Path=/; SameSite=Lax"], Throw URIError).
Proof. vm_compute. reflexivity. Qed.

(** ** [toString] followed by [parse], with attributes *)

Section AttributesRoundTrip.
Context `{Engine}.

Lemma split_space_join (part : jsstring) (parts : list jsstring) :
  Forall (fun part => 59 ∉ part) (part :: parts) ->
  split 59 (32 :: join (str "; ") (part :: parts)) = map (cons 32) (part :: parts).
Proof.
  intros Hparts. cbn [split]. change (32 =? 59) with false. cbn iota.
  by rewrite split_join.
Qed.

Lemma length_trimStart (s : jsstring) : (length (trimStart s) <= length s)%nat.
Proof.
  induction s as [|c r IH]; [done|]. cbn [trimStart].
  destruct (isWhiteSpace c); cbn [length]; lia.
Qed.

(** A string without white space at its end, behind a prefix that begins
    without white space. *)
Lemma trim_prefix (c : N) (a p : jsstring) :
  isWhiteSpace c = false -> p <> [] -> trimEnd p = p ->
  trim (c :: a ++ p) = c :: a ++ p.
Proof.
  intros Hc Hp Hend. unfold trim. cbn [trimStart]. rewrite Hc.
  unfold trimEnd in *. change (c :: a ++ p) with ((c :: a) ++ p).
  rewrite rev_app_distr.
  assert (trimStart (rev p) = rev p) as Hrev.
  { rewrite <- Hend at 2. by rewrite rev_involutive. }
  destruct (rev p) as [|x r] eqn:Hp'.
  { destruct Hp. by rewrite <- (rev_involutive p), Hp'. }
  cbn [trimStart app] in *. destruct (isWhiteSpace x).
  - pose proof (length_trimStart r) as Hlen. rewrite Hrev in Hlen.
    cbn [length] in Hlen. lia.
  - change (x :: r ++ rev (c :: a)) with ((x :: r) ++ rev (c :: a)).
    by rewrite <- Hp', <- rev_app_distr, rev_involutive.
Qed.

Lemma valid_domain_facts (d : jsstring) :
  Cookie.isValidCookieDomain d = true ->
  Forall (fun c => 65 <= c <= 90 \/ 97 <= c <= 122 \/ 48 <= c <= 57
                   \/ c = 46 \/ c = 45) d
  /\ (59 ∉ d) /\ toLowerCase d = d.
Proof.
  unfold Cookie.isValidCookieDomain. intros Hd.
  assert (Forall (fun c => 97 <= c <= 122 \/ 48 <= c <= 57 \/ c = 46 \/ c = 45) d)
    as Hchars.
  { apply Forall_forall. intros c Hc. apply isValidCharacterInCookieDomain_iff.
    rewrite forallb_forall in Hd. by apply Hd, list_elem_of_In. }
  split; [|split].
  - eapply Forall_impl; [exact Hchars|]. intros c Hc. cbn beta in Hc. lia.
  - intros Hin. rewrite Forall_forall in Hchars. specialize (Hchars _ Hin).
    cbn beta in Hchars. lia.
  - rewrite toLowerCase_ascii.
    + clear Hd. induction Hchars as [|c r Hc _ IH]; [done|]. cbn [map].
      rewrite IH. f_equal. unfold asciiLower.
      replace ((65 <=? c) && (c <=? 90)) with false; [done|].
      symmetry. apply andb_false_iff. rewrite !N.leb_gt. lia.
    + apply forallb_asciiLower_domain.
      eapply Forall_impl; [exact Hchars|]. intros c Hc. cbn beta in Hc. lia.
Qed.

Lemma valid_path_facts (p : jsstring) :
  Cookie.isValidCookiePath p = true -> 59 ∉ p.
Proof.
  unfold Cookie.isValidCookiePath. intros Hp Hin.
  rewrite forallb_forall in Hp. apply list_elem_of_In, Hp in Hin.
  by vm_compute in Hin.
Qed.

Lemma attributeNameValue_Path (p : jsstring) :
  p <> [] -> trimEnd p = p -> startsWith 47 p = true ->
  Cookie.attributeNameValue (32 :: str "Path=" ++ p) = (str "path", p).
Proof.
  intros Hne Hend Hstart. unfold Cookie.attributeNameValue.
  rewrite trim_leading_space.
  change (str "Path=" ++ p) with (80 :: str "ath=" ++ p).
  rewrite trim_prefix by done.
  change (80 :: str "ath=" ++ p) with (str "Path" ++ 61 :: p).
  rewrite indexOf_first by (apply (bool_decide_unpack _); vm_compute; exact I).
  rewrite Z_of_nat_ne_m1. cbn [negb].
  rewrite substring_prefix, substringFrom_after.
  f_equal. destruct p as [|c r]; [done|]. cbn [startsWith] in Hstart.
  apply N.eqb_eq in Hstart as ->.
  unfold trim. cbn [trimStart]. change (isWhiteSpace 47) with false. cbn iota.
  exact Hend.
Qed.

(** The attribute tokens that [toString] writes, read by the loop. *)
Lemma parseAttribute_Domain (l : Cookie.Locals.t) (d : jsstring) :
  Cookie.isValidCookieDomain d = true -> d <> [] ->
  Cookie.parseAttribute l (32 :: str "Domain=" ++ d)
  = Cookie.Locals.mk d (Cookie.Locals.path l) (Cookie.Locals.expires l)
      (Cookie.Locals.secure l) (Cookie.Locals.sameSite l) (Cookie.Locals.httpOnly l)
      (Cookie.Locals.maxAge l) (Cookie.Locals.partitioned l)
      (Cookie.Locals.hasMaxAge l).
Proof.
  intros Hd Hne. destruct (valid_domain_facts d Hd) as (Hchars & _ & Hlower).
  rewrite (parseAttribute_domain l _ d).
  - rewrite Hlower. by destruct d.
  - by apply (attributeNameValue_Domain d).
Qed.

Lemma parseAttribute_Path (l : Cookie.Locals.t) (p : jsstring) :
  trimEnd p = p -> startsWith 47 p = true ->
  Cookie.parseAttribute l (32 :: str "Path=" ++ p)
  = Cookie.Locals.mk (Cookie.Locals.domain l) p (Cookie.Locals.expires l)
      (Cookie.Locals.secure l) (Cookie.Locals.sameSite l) (Cookie.Locals.httpOnly l)
      (Cookie.Locals.maxAge l) (Cookie.Locals.partitioned l)
      (Cookie.Locals.hasMaxAge l).
Proof.
  intros Hend Hstart. unfold Cookie.parseAttribute.
  rewrite attributeNameValue_Path; [|by destruct p|done|done].
  destruct l. change (strEq (str "path") (str "domain")) with false.
  rewrite strEq_refl, Hstart. by destruct p.
Qed.

Lemma attributeNameValue_flags :
  Cookie.attributeNameValue (32 :: str "Secure") = (str "secure", [])
  /\ Cookie.attributeNameValue (32 :: str "HttpOnly") = (str "httponly", [])
  /\ Cookie.attributeNameValue (32 :: str "Partitioned") = (str "partitioned", [])
  /\ forall sameSite,
       Cookie.attributeNameValue (32 :: str "SameSite=" ++ sameSiteString sameSite)
       = (str "samesite", sameSiteString sameSite).
Proof.
  unfold Cookie.attributeNameValue. rewrite !trim_leading_space.
  split; [|split; [|split]].
  - change (trim (str "Secure")) with (str "Secure").
    change (indexOf 61 (str "Secure")) with (-1)%Z. cbn [Z.eqb negb].
    by rewrite toLowerCase_ascii.
  - change (trim (str "HttpOnly")) with (str "HttpOnly").
    change (indexOf 61 (str "HttpOnly")) with (-1)%Z. cbn [Z.eqb negb].
    by rewrite toLowerCase_ascii.
  - change (trim (str "Partitioned")) with (str "Partitioned").
    change (indexOf 61 (str "Partitioned")) with (-1)%Z. cbn [Z.eqb negb].
    by rewrite toLowerCase_ascii.
  - intros sameSite. rewrite ?trim_leading_space.
    assert (trim (sameSiteString sameSite) = sameSiteString sameSite) as Hvalue
      by by destruct sameSite.
    assert (trim (str "SameSite=" ++ sameSiteString sameSite)
            = str "SameSite" ++ 61 :: sameSiteString sameSite) as ->
      by by destruct sameSite.
    rewrite indexOf_first by (apply (bool_decide_unpack _); vm_compute; exact I).
    rewrite Z_of_nat_ne_m1. cbn [negb].
    rewrite substring_prefix, substringFrom_after, Hvalue.
    change (trim (str "SameSite")) with (str "SameSite").
    by rewrite toLowerCase_ascii.
Qed.

Lemma parseAttribute_flags (l : Cookie.Locals.t) :
  Cookie.parseAttribute l (32 :: str "Secure")
  = Cookie.Locals.mk (Cookie.Locals.domain l) (Cookie.Locals.path l)
      (Cookie.Locals.expires l) true (Cookie.Locals.sameSite l)
      (Cookie.Locals.httpOnly l) (Cookie.Locals.maxAge l)
      (Cookie.Locals.partitioned l) (Cookie.Locals.hasMaxAge l)
  /\ Cookie.parseAttribute l (32 :: str "HttpOnly")
     = Cookie.Locals.mk (Cookie.Locals.domain l) (Cookie.Locals.path l)
         (Cookie.Locals.expires l) (Cookie.Locals.secure l) (Cookie.Locals.sameSite l)
         true (Cookie.Locals.maxAge l) (Cookie.Locals.partitioned l)
         (Cookie.Locals.hasMaxAge l)
  /\ Cookie.parseAttribute l (32 :: str "Partitioned")
     = Cookie.Locals.mk (Cookie.Locals.domain l) (Cookie.Locals.path l)
         (Cookie.Locals.expires l) (Cookie.Locals.secure l) (Cookie.Locals.sameSite l)
         (Cookie.Locals.httpOnly l) (Cookie.Locals.maxAge l) true
         (Cookie.Locals.hasMaxAge l)
  /\ forall sameSite,
       Cookie.parseAttribute l (32 :: str "SameSite=" ++ sameSiteString sameSite)
       = Cookie.Locals.mk (Cookie.Locals.domain l) (Cookie.Locals.path l)
           (Cookie.Locals.expires l) (Cookie.Locals.secure l) sameSite
           (Cookie.Locals.httpOnly l) (Cookie.Locals.maxAge l)
           (Cookie.Locals.partitioned l) (Cookie.Locals.hasMaxAge l).
Proof.
  destruct attributeNameValue_flags as (Hs & Hh & Hp & Hss).
  unfold Cookie.parseAttribute. rewrite Hs, Hh, Hp. destruct l.
  split; [done|]. split; [done|]. split; [done|].
  intros value. rewrite Hss.
  change (strEq (str "samesite") (str "domain")) with false.
  change (strEq (str "samesite") (str "path")) with false.
  change (strEq (str "samesite") (str "expires")) with false.
  change (strEq (str "samesite") (str "max-age")) with false.
  change (strEq (str "samesite") (str "secure")) with false.
  change (strEq (str "samesite") (str "httponly")) with false.
  change (strEq (str "samesite") (str "partitioned")) with false.
  rewrite strEq_refl. cbn iota.
  assert (forall s, toLowerCase (sameSiteString s) = map asciiLower (sameSiteString s))
    as Hlower by (intros s; apply toLowerCase_ascii; by destruct s).
  rewrite Hlower. by destruct value.
Qed.

End AttributesRoundTrip.

(** ** [parseInt] of a printed integer *)

Section Decimal.

Lemma str_String (c : ascii) (s : string) : str (String c s) = N_of_ascii c :: str s.
Proof. reflexivity. Qed.

(** One decimal digit in front of the rest. *)
Ltac digit_step :=
  rewrite str_String; cbn [digitsPrefix];
  match goal with |- context [isDigit ?c] => change (isDigit c) with true end;
  cbn iota; cbn [default]; unfold id;
  match goal with |- context [Z.of_N ?x] =>
    let v := eval vm_compute in (Z.of_N x) in change (Z.of_N x) with v end.

Lemma digitsPrefix_uint_acc (d : Decimal.uint) (acc : positive) :
  digitsPrefix (str (NilEmpty.string_of_uint d)) (Some (Z.pos acc))
  = Some (Z.pos (Pos.of_uint_acc d acc)).
Proof.
  revert acc. induction d as [|d IH|d IH|d IH|d IH|d IH|d IH|d IH|d IH|d IH|d IH];
    intros acc; [done|..];
    cbn [NilEmpty.string_of_uint Pos.of_uint_acc]; digit_step;
    rewrite <- IH; apply (f_equal (digitsPrefix _)); apply (f_equal Some); lia.
Qed.

Lemma digitsPrefix_uint (d : Decimal.uint) (acc : option Z) :
  acc = None /\ d <> Decimal.Nil \/ acc = Some 0%Z ->
  digitsPrefix (str (NilEmpty.string_of_uint d)) acc = Some (Z.of_N (Pos.of_uint d)).
Proof.
  revert acc. induction d as [|d IH|d IH|d IH|d IH|d IH|d IH|d IH|d IH|d IH|d IH];
    intros acc Hacc.
  { by destruct Hacc as [[_ ?]| ->]. }
  { cbn [NilEmpty.string_of_uint Pos.of_uint].
    rewrite <- (IH (Some 0%Z)) by by right.
    by destruct Hacc as [[-> _]| ->]; digit_step. }
  all: cbn [NilEmpty.string_of_uint Pos.of_uint Z.of_N];
    rewrite <- digitsPrefix_uint_acc;
    by destruct Hacc as [[-> _]| ->]; digit_step.
Qed.

Lemma uint_chars (d : Decimal.uint) :
  Forall (fun c => 48 <= c <= 57) (str (NilEmpty.string_of_uint d)).
Proof.
  induction d; [by constructor|..]; cbn [NilEmpty.string_of_uint];
    rewrite str_String; (constructor; [by vm_compute|done]).
Qed.

Lemma numberToString_chars (z : Z) :
  numberToString (Num z) <> []
  /\ Forall (fun c => c = 45 \/ 48 <= c <= 57) (numberToString (Num z)).
Proof.
  assert (forall d, d <> Decimal.Nil ->
            str (NilEmpty.string_of_uint d) <> []
            /\ Forall (fun c => c = 45 \/ 48 <= c <= 57)
                 (str (NilEmpty.string_of_uint d))) as Huint.
  { intros d Hd. split; [by destruct d|].
    eapply Forall_impl; [apply uint_chars|]. intros c Hc. by right. }
  unfold numberToString. destruct z as [|p|p]; cbn [Z.to_int NilZero.string_of_int].
  - change (str (NilZero.string_of_uint (Decimal.D0 Decimal.Nil))) with [48].
    split; [done|]. apply Forall_cons. split; [right; by vm_compute|constructor].
  - pose proof (Unsigned.to_uint_nonnil p) as Hp.
    unfold NilZero.string_of_uint. destruct (Pos.to_uint p) eqn:Hd; try done;
      rewrite <- Hd in *; by apply Huint.
  - pose proof (Unsigned.to_uint_nonnil p) as Hp. rewrite str_String.
    split; [done|]. constructor; [by left|].
    unfold NilZero.string_of_uint. destruct (Pos.to_uint p) eqn:Hd; try done;
      rewrite <- Hd in *; by apply Huint.
Qed.

(** [parseInt] reads back the decimal form that a template literal
    prints. *)
Lemma parseInt10_numberToString (z : Z) : parseInt10 (numberToString (Num z)) = Num z.
Proof.
  assert (forall d, d <> Decimal.Nil ->
            parseInt10 (str (NilEmpty.string_of_uint d))
            = Num (Z.of_N (Pos.of_uint d))) as Huint.
  { intros d Hd. pose proof (digitsPrefix_uint d None (or_introl (conj eq_refl Hd))) as Hp.
    unfold parseInt10.
    destruct d; [done|..]; cbn [NilEmpty.string_of_uint] in *;
      rewrite str_String in *; cbn [trimStart];
      match goal with |- context [isWhiteSpace ?c] =>
        change (isWhiteSpace c) with false end; cbn iota;
      match goal with |- context [N_of_ascii ?c] =>
        let v := eval vm_compute in (N_of_ascii c) in
        change (N_of_ascii c) with v in * end;
      cbv beta iota zeta; rewrite Hp; f_equal; by destruct (Pos.of_uint _). }
  unfold numberToString. destruct z as [|p|p]; cbn [Z.to_int NilZero.string_of_int].
  - reflexivity.
  - pose proof (Unsigned.to_uint_nonnil p) as Hp.
    unfold NilZero.string_of_uint.
    destruct (Pos.to_uint p) eqn:Hd; try done; rewrite <- Hd in *;
      rewrite Huint by done; by rewrite DecimalPos.Unsigned.of_to.
  - pose proof (Unsigned.to_uint_nonnil p) as Hp. rewrite str_String.
    unfold parseInt10. cbn [trimStart]. change (isWhiteSpace (N_of_ascii "-")) with false.
    cbn iota. change (N_of_ascii "-") with 45. cbv beta iota zeta.
    assert (digitsPrefix (str (NilZero.string_of_uint (Pos.to_uint p))) None
            = Some (Z.pos p)) as ->; [|done].
    unfold NilZero.string_of_uint.
    destruct (Pos.to_uint p) eqn:Hd; try done; rewrite <- Hd in *;
      rewrite digitsPrefix_uint by (left; by split);
      by rewrite DecimalPos.Unsigned.of_to.
Qed.

End Decimal.

Section FullRoundTrip.
Context `{Engine}.

Lemma join_cons (sep part : jsstring) (parts : list jsstring) :
  parts <> [] -> join sep (part :: parts) = part ++ sep ++ join sep parts.
Proof. by destruct parts. Qed.

Lemma split_space_join_tail (parts : list jsstring) :
  parts <> [] -> Forall (fun part => 59 ∉ part) parts ->
  split 59 (32 :: join (str "; ") parts) = map (cons 32) parts.
Proof. destruct parts; [done|]. intros _. apply split_space_join. Qed.

Lemma attributeNameValue_MaxAge (z : Z) :
  Cookie.attributeNameValue (32 :: str "Max-Age=" ++ numberToString (Num z))
  = (str "max-age", numberToString (Num z)).
Proof.
  destruct (numberToString_chars z) as [Hne Hchars].
  assert (Forall (fun c => isWhiteSpace c = false) (numberToString (Num z))) as Hws.
  { eapply Forall_impl; [exact Hchars|]. intros c Hc. cbn beta in Hc. unfold isWhiteSpace.
    rewrite !orb_false_iff, !andb_false_iff, !N.leb_gt, !N.eqb_neq. lia. }
  unfold Cookie.attributeNameValue. rewrite trim_leading_space.
  rewrite trim_id by (apply Forall_app; split; [repeat constructor|done]).
  change (str "Max-Age=" ++ numberToString (Num z))
    with (str "Max-Age" ++ 61 :: numberToString (Num z)).
  rewrite indexOf_first by (apply (bool_decide_unpack _); vm_compute; exact I).
  rewrite Z_of_nat_ne_m1. cbn [negb].
  rewrite substring_prefix, substringFrom_after, (trim_id (numberToString _)) by done.
  f_equal.
Qed.

Lemma attributeNameValue_Expires (date : jsstring) :
  date <> [] -> trimStart date = date -> trimEnd date = date ->
  Cookie.attributeNameValue (32 :: str "Expires=" ++ date) = (str "expires", date).
Proof.
  intros Hne Hstart Hend. unfold Cookie.attributeNameValue.
  rewrite trim_leading_space.
  change (str "Expires=" ++ date) with (69 :: str "xpires=" ++ date).
  rewrite trim_prefix by done.
  change (69 :: str "xpires=" ++ date) with (str "Expires" ++ 61 :: date).
  rewrite indexOf_first by (apply (bool_decide_unpack _); vm_compute; exact I).
  rewrite Z_of_nat_ne_m1. cbn [negb].
  rewrite substring_prefix, substringFrom_after.
  f_equal. unfold trim. by rewrite Hstart.
Qed.

Lemma parseAttribute_MaxAge (l : Cookie.Locals.t) (z : Z) :
  Cookie.parseAttribute l (32 :: str "Max-Age=" ++ numberToString (Num z))
  = Cookie.Locals.mk (Cookie.Locals.domain l) (Cookie.Locals.path l)
      (Cookie.Locals.expires l) (Cookie.Locals.secure l) (Cookie.Locals.sameSite l)
      (Cookie.Locals.httpOnly l) (Num z) (Cookie.Locals.partitioned l) true.
Proof.
  unfold Cookie.parseAttribute.
  rewrite attributeNameValue_MaxAge, parseInt10_numberToString. destruct l.
  change (strEq (str "max-age") (str "domain")) with false.
  change (strEq (str "max-age") (str "path")) with false.
  change (strEq (str "max-age") (str "expires")) with false.
  by rewrite strEq_refl.
Qed.

Lemma parseAttribute_Expires (l : Cookie.Locals.t) (date : jsstring) :
  date <> [] -> trimStart date = date -> trimEnd date = date ->
  Cookie.Locals.hasMaxAge l = false ->
  Cookie.parseAttribute l (32 :: str "Expires=" ++ date)
  = Cookie.Locals.mk (Cookie.Locals.domain l) (Cookie.Locals.path l)
      (if isNaN (Date_parse date) then Cookie.Locals.expires l else Date_parse date)
      (Cookie.Locals.secure l) (Cookie.Locals.sameSite l)
      (Cookie.Locals.httpOnly l) (Cookie.Locals.maxAge l)
      (Cookie.Locals.partitioned l) (Cookie.Locals.hasMaxAge l).
Proof.
  intros Hne Hstart Hend Hmax. unfold Cookie.parseAttribute.
  rewrite attributeNameValue_Expires by done. destruct l.
  cbn [Cookie.Locals.hasMaxAge] in Hmax. subst.
  change (strEq (str "expires") (str "domain")) with false.
  change (strEq (str "expires") (str "path")) with false.
  rewrite strEq_refl. cbn [negb andb Cookie.Locals.domain Cookie.Locals.path
    Cookie.Locals.expires Cookie.Locals.secure Cookie.Locals.sameSite
    Cookie.Locals.httpOnly Cookie.Locals.maxAge Cookie.Locals.partitioned
    Cookie.Locals.hasMaxAge].
  destruct date; [done|]. cbn [truthyStr]. by destruct (isNaN _).
Qed.

End FullRoundTrip.

(** X20. [toString] followed by [parse] gives the cookie back, with the
    value percent-encoded: for a cookie with a valid name, domain and
    path, whose path begins with [/] and does not end with white space,
    whose [maxAge] is [NaN] or a safe integer other than 0 (at most
    [2^53] in absolute value, where the template literal of [toString]
    prints every digit and [parseInt] reads them exactly) and whose value
    [encodeURIComponent] accepts,
    [parse(cookie.toString())] succeeds with the same name, domain, path,
    flags, [sameSite] and [maxAge]; its value is the encoded value, and
    its [expires] is [-1] when the cookie has no expiry and otherwise what
    [Date.parse] reads from the date that [toUTCString] wrote (that date
    being not empty and free of [;] and of white space at its ends).  [Expires] is
    written before [Max-Age], so both survive. *)
Theorem toString_then_parse `{Engine} (cookie : Cookie.t) (encoded : jsstring) :
  Cookie.isValidCookieName (Cookie.name cookie) = true ->
  Cookie.isValidCookieDomain (Cookie.domain cookie) = true ->
  Cookie.isValidCookiePath (Cookie.path cookie) = true ->
  startsWith 47 (Cookie.path cookie) = true ->
  trimEnd (Cookie.path cookie) = Cookie.path cookie ->
  Cookie.maxAge cookie <> Num 0 ->
  (forall z, Cookie.maxAge cookie = Num z -> (Z.abs z <= 2 ^ 53)%Z) ->
  (forall x, Cookie.hasExpiry cookie = true -> Cookie.expires cookie = Num x ->
     Date_toUTCString x <> [] /\ (59 ∉ Date_toUTCString x)
     /\ trimStart (Date_toUTCString x) = Date_toUTCString x
     /\ trimEnd (Date_toUTCString x) = Date_toUTCString x) ->
  encodeURIComponent (Cookie.value cookie) = Some encoded ->
  exists s,
    Cookie.toString cookie = Ok s
    /\ Cookie.parse s
       = Ok (Cookie.mk (Cookie.name cookie) encoded (Cookie.domain cookie)
               (Cookie.path cookie)
               (if Cookie.hasExpiry cookie then
                  match Cookie.expires cookie with
                  | Num x =>
                      Cookie.orNum (Some (Date_parse (Date_toUTCString x))) (Num (-1))
                  | NaN => Num (-1)
                  end
                else Num (-1))
               (Cookie.secure cookie) (Cookie.sameSite cookie)
               (Cookie.httpOnly cookie) (Cookie.maxAge cookie)
               (Cookie.partitioned cookie)).
Proof.
  destruct cookie as [n v d p ex sec ss ho ma pa].
  cbn [Cookie.name Cookie.value Cookie.domain Cookie.path Cookie.expires
       Cookie.secure Cookie.sameSite Cookie.httpOnly Cookie.maxAge
       Cookie.partitioned].
  intros Hn Hd Hp Hstart Hend Hma _ Hdate He.
  set (cookie := Cookie.mk n v d p ex sec ss ho ma pa) in *.
  destruct (valid_domain_facts d Hd) as (_ & Hd59 & _).
  pose proof (valid_path_facts p Hp) as Hp59.
  destruct (forallb_plain _ _ isEncoded_facts (encodeURIComponent_encoded _ _ He))
    as (He59 & _ & Heplain).
  assert (truthyStr p = true) as Hptrue by (by destruct p).
  set (tail := (if truthyStr d then [str "Domain=" ++ d] else [])
               ++ [str "Path=" ++ p]
               ++ Cookie.expiresPart cookie
               ++ Cookie.maxAgePart cookie
               ++ (if sec then [str "Secure"] else [])
               ++ (if ho then [str "HttpOnly"] else [])
               ++ (if pa then [str "Partitioned"] else [])
               ++ [str "SameSite=" ++ sameSiteString ss]).
  assert (Cookie.toString cookie
          = Ok (n ++ 61 :: encoded ++ 59 :: 32 :: join (str "; ") tail)) as Hs.
  { unfold Cookie.toString, Cookie.toStringParts.
    cbn [Cookie.name Cookie.value Cookie.domain Cookie.path Cookie.secure
         Cookie.sameSite Cookie.httpOnly Cookie.partitioned cookie].
    rewrite He, Hptrue. cbn [mbind option_bind]. fold cookie. fold tail.
    cbn [app]. rewrite join_cons by (subst tail; by destruct (truthyStr d)).
    by rewrite <- !app_assoc. }
  eexists. split; [exact Hs|].
  rewrite parse_pair_attributes by (done || by apply trim_id).
  assert (Forall (fun part => 59 ∉ part) tail) as Htail.
  { subst tail. repeat (apply Forall_app; split).
    - destruct (truthyStr d); [|constructor]. repeat constructor.
      rewrite not_elem_of_app. split; [|done].
      apply (bool_decide_unpack _). vm_compute. exact I.
    - repeat constructor. rewrite not_elem_of_app. split; [|done].
      apply (bool_decide_unpack _). vm_compute. exact I.
    - unfold Cookie.expiresPart.
      destruct (Cookie.hasExpiry cookie) eqn:Hhas; [|constructor].
      cbn [Cookie.expires cookie]. destruct ex as [|x]; [constructor|].
      destruct (Hdate x eq_refl eq_refl) as (_ & Hx59 & _). repeat constructor.
      rewrite not_elem_of_app. split; [|done].
      apply (bool_decide_unpack _). vm_compute. exact I.
    - unfold Cookie.maxAgePart. cbn [Cookie.maxAge cookie].
      destruct ma as [|z]; [constructor|]. cbn [isNaN negb]. repeat constructor.
      rewrite not_elem_of_app. split.
      + apply (bool_decide_unpack _). vm_compute. exact I.
      + destruct (numberToString_chars z) as [_ Hchars]. intros Hin.
        rewrite Forall_forall in Hchars. specialize (Hchars _ Hin).
        cbn beta in Hchars. lia.
    - destruct sec; repeat constructor. apply (bool_decide_unpack _). vm_compute. exact I.
    - destruct ho; repeat constructor. apply (bool_decide_unpack _). vm_compute. exact I.
    - destruct pa; repeat constructor. apply (bool_decide_unpack _). vm_compute. exact I.
    - repeat constructor. destruct ss; apply (bool_decide_unpack _); vm_compute; exact I. }
  rewrite split_space_join_tail by (done || subst tail; by destruct (truthyStr d)).
  unfold Cookie.parseAttributes. subst tail.
  rewrite !map_app, !fold_left_app.
  (* the domain *)
  assert (fold_left Cookie.parseAttribute
            (map (cons 32) (if truthyStr d then [str "Domain=" ++ d] else []))
            Cookie.Locals.initial
          = Cookie.Locals.mk d (str "/") (Num (-1)) false Lax false NaN false false)
    as ->.
  { destruct d as [|c d]; [done|]. cbn [truthyStr map fold_left].
    by rewrite parseAttribute_Domain. }
  (* the path *)
  cbn [map fold_left]. rewrite parseAttribute_Path by done.
  cbn [Cookie.Locals.domain Cookie.Locals.path Cookie.Locals.expires
       Cookie.Locals.secure Cookie.Locals.sameSite Cookie.Locals.httpOnly
       Cookie.Locals.maxAge Cookie.Locals.partitioned Cookie.Locals.hasMaxAge].
  (* the expiry *)
  set (expires' := if Cookie.hasExpiry cookie then
                     match ex with
                     | Num x => if isNaN (Date_parse (Date_toUTCString x))
                                then Num (-1) else Date_parse (Date_toUTCString x)
                     | NaN => Num (-1)
                     end
                   else Num (-1)).
  assert (fold_left Cookie.parseAttribute (map (cons 32) (Cookie.expiresPart cookie))
            (Cookie.Locals.mk d p (Num (-1)) false Lax false NaN false false)
          = Cookie.Locals.mk d p expires' false Lax false NaN false false) as ->.
  { subst expires'. unfold Cookie.expiresPart.
    destruct (Cookie.hasExpiry cookie) eqn:Hhas; [|done]. cbn [Cookie.expires cookie].
    destruct ex as [|x]; [done|]. cbn [map fold_left].
    destruct (Hdate x eq_refl eq_refl) as (Hne & _ & Hs1 & Hs2).
    by rewrite parseAttribute_Expires. }
  (* the maximal age *)
  assert (fold_left Cookie.parseAttribute (map (cons 32) (Cookie.maxAgePart cookie))
            (Cookie.Locals.mk d p expires' false Lax false NaN false false)
          = Cookie.Locals.mk d p expires' false Lax false ma false
              (negb (isNaN ma))) as ->.
  { unfold Cookie.maxAgePart. cbn [Cookie.maxAge cookie].
    destruct ma as [|z]; [done|]. cbn [isNaN negb map fold_left].
    by rewrite parseAttribute_MaxAge. }
  (* the flags and SameSite *)
  assert (forall l, fold_left Cookie.parseAttribute
                      (map (cons 32) (if sec then [str "Secure"] else [])) l
                    = Cookie.Locals.mk (Cookie.Locals.domain l) (Cookie.Locals.path l)
                        (Cookie.Locals.expires l) (sec || Cookie.Locals.secure l)
                        (Cookie.Locals.sameSite l) (Cookie.Locals.httpOnly l)
                        (Cookie.Locals.maxAge l) (Cookie.Locals.partitioned l)
                        (Cookie.Locals.hasMaxAge l)) as ->.
  { intros l. destruct sec; [|by destruct l]. cbn [map fold_left].
    by destruct (parseAttribute_flags l) as (-> & _). }
  assert (forall l, fold_left Cookie.parseAttribute
                      (map (cons 32) (if ho then [str "HttpOnly"] else [])) l
                    = Cookie.Locals.mk (Cookie.Locals.domain l) (Cookie.Locals.path l)
                        (Cookie.Locals.expires l) (Cookie.Locals.secure l)
                        (Cookie.Locals.sameSite l) (ho || Cookie.Locals.httpOnly l)
                        (Cookie.Locals.maxAge l) (Cookie.Locals.partitioned l)
                        (Cookie.Locals.hasMaxAge l)) as ->.
  { intros l. destruct ho; [|by destruct l]. cbn [map fold_left].
    by destruct (parseAttribute_flags l) as (_ & -> & _). }
  assert (forall l, fold_left Cookie.parseAttribute
                      (map (cons 32) (if pa then [str "Partitioned"] else [])) l
                    = Cookie.Locals.mk (Cookie.Locals.domain l) (Cookie.Locals.path l)
                        (Cookie.Locals.expires l) (Cookie.Locals.secure l)
                        (Cookie.Locals.sameSite l) (Cookie.Locals.httpOnly l)
                        (Cookie.Locals.maxAge l) (pa || Cookie.Locals.partitioned l)
                        (Cookie.Locals.hasMaxAge l)) as ->.
  { intros l. destruct pa; [|by destruct l]. cbn [map fold_left].
    by destruct (parseAttribute_flags l) as (_ & _ & -> & _). }
  cbn [map fold_left].
  match goal with |- context [Cookie.parseAttribute ?l _] =>
    destruct (parseAttribute_flags l) as (_ & _ & _ & ->) end.
  cbn [Cookie.Locals.domain Cookie.Locals.path Cookie.Locals.expires
       Cookie.Locals.secure Cookie.Locals.sameSite Cookie.Locals.httpOnly
       Cookie.Locals.maxAge Cookie.Locals.partitioned Cookie.Locals.hasMaxAge].
  rewrite !orb_false_r.
  (* the constructor *)
  unfold Cookie.create, Cookie.new, Cookie.optionsOf, Cookie.presentAndNot.
  cbn [CookieOptions.name CookieOptions.value CookieOptions.domain CookieOptions.path
       CookieOptions.expires CookieOptions.secure CookieOptions.sameSite
       CookieOptions.httpOnly CookieOptions.maxAge CookieOptions.partitioned
       Cookie.Locals.domain Cookie.Locals.path Cookie.Locals.expires
       Cookie.Locals.secure Cookie.Locals.sameSite Cookie.Locals.httpOnly
       Cookie.Locals.maxAge Cookie.Locals.partitioned].
  rewrite Hn, Hp, Hd, !andb_false_r. cbn [negb default].
  f_equal. f_equal.
  - unfold Cookie.orStr. by destruct d.
  - unfold Cookie.orStr. by rewrite Hptrue.
  - subst expires'. cbn [Cookie.expires cookie].
    destruct (Cookie.hasExpiry cookie); [|done]. destruct ex as [|x]; [done|].
    unfold Cookie.orNum. destruct (Date_parse (Date_toUTCString x)) as [|y]; [done|].
    done.
  - by destruct sec.
  - by destruct ho.
  - unfold Cookie.orNum. destruct ma as [|z]; [done|]. cbn [truthyNum].
    destruct (Z.eqb_spec z 0); [by subst|done].
  - by destruct pa.
Qed.

(** A cookie with every attribute, on the engine of HTTP dates. *)
Lemma toString_then_parse_witness :
  let cookie := Cookie.mk (str "sid") (str "a b") (str "example.com") (str "/app")
                  (Num 1623233894000) true Strict true (Num 3600) false in
  Cookie.toString cookie
  = Ok (str ("sid=a%20b; Domain=example.com; Path=/app; "
             ++ "Expires=Wed, 09 Jun 2021 10:18:14 GMT; Max-Age=3600; "
             ++ "Secure; HttpOnly; SameSite=Strict"))
  /\ exists s,
      Cookie.toString cookie = Ok s
      /\ Cookie.parse s
         = Ok (Cookie.mk (str "sid") (str "a%20b") (str "example.com") (str "/app")
                 (Num 1623233894000) true Strict true (Num 3600) false).
Proof.
  cbv zeta. split; [vm_compute; reflexivity|].
  destruct (toString_then_parse
              (Cookie.mk (str "sid") (str "a b") (str "example.com") (str "/app")
                 (Num 1623233894000) true Strict true (Num 3600) false)
              (str "a%20b")) as (s & Hs & Hparse).
  - vm_compute. reflexivity.
  - vm_compute. reflexivity.
  - vm_compute. reflexivity.
  - vm_compute. reflexivity.
  - vm_compute. reflexivity.
  - discriminate.
  - intros z [= <-]. by vm_compute.
  - intros x _ [= <-]. split; [by vm_compute|].
    split; [apply (bool_decide_unpack _); vm_compute; exact I|].
    split; vm_compute; reflexivity.
  - vm_compute. reflexivity.
  - exists s. split; [exact Hs|]. rewrite Hparse. vm_compute. reflexivity.
Defined.

(** ** A collection built from a record *)

(** X21. A collection built from a record holds the entries of the record:
    [entries()] yields them in the order of the record, and [toJSON()]
    gives the record back, when no name of the record is one that
    [Object.prototype] defines (the entries of an object repeat no
    name). *)
Theorem record_constructor_round_trip
    (σ : Store.t) (record : list (jsstring * jsstring)) :
  wellFormed σ ->
  NoDup (map fst record) ->
  Forall (fun entry => fst entry ∉ objectPrototypeKeys) record ->
  exists σ' this json,
    CookieMap.new (Some (InputRecord record)) σ = (σ', Ok this)
    /\ snd (CookieMap.entries this σ') = Ok record
    /\ snd (CookieMap.toJSON this σ') = Ok json
    /\ forall name value, json !! name = Some value <-> (name, value) ∈ record.
Proof.
  intros Hwf Hnd Hfree.
  destruct (new_view σ (Some (InputRecord record)) Hwf)
    as (σ' & this & Hrun & _ & _ & _ & Hview).
  cbn [inputPairs] in Hview.
  set (pairs := map (fun '(key, value) => KeyValuePair.mk key value) record) in *.
  assert (map (fun pair => (KeyValuePair.key pair, KeyValuePair.value pair)) pairs
          = record) as Hpairs.
  { subst pairs. rewrite map_map. clear. induction record as [|[k v] r IH]; [done|].
    cbn. by rewrite IH. }
  assert (map KeyValuePair.key pairs = map fst record) as Hkeys.
  { by rewrite <- Hpairs, map_map. }
  eexists σ', this, _. split; [done|].
  split.
  { rewrite entries_view, Hview.
    cbn [View.modified View.original List.filter map app snd]. by rewrite Hpairs. }
  split; [by rewrite toJSON_view, Hview|].
  cbn [View.modified View.original fold_left]. intros name value.
  assert (forall pair, pair ∈ pairs ->
            (KeyValuePair.key pair, KeyValuePair.value pair) ∈ record) as Hin.
  { intros pair Hpair. rewrite <- Hpairs.
    apply (list_elem_of_fmap_2
             (fun pair => (KeyValuePair.key pair, KeyValuePair.value pair)) _ _ Hpair). }
  assert (forall entry, entry ∈ record ->
            KeyValuePair.mk (fst entry) (snd entry) ∈ pairs) as Hin'.
  { intros [k v] Hentry. subst pairs.
    apply (list_elem_of_fmap_2 (fun '(key, value) => KeyValuePair.mk key value)
             _ _ Hentry). }
  destruct (decide (name ∈ objectPrototypeKeys)) as [Hproto|Hname].
  - split.
    + intros Hjson. exfalso.
      assert (forall (l : list KeyValuePair.t) (result : gmap jsstring jsstring),
                result !! name = None ->
                fold_left (fun result cookie =>
                             if negb (inObject (KeyValuePair.key cookie) result)
                             then assignProperty (KeyValuePair.key cookie)
                                    (KeyValuePair.value cookie) result
                             else result) l result !! name = None) as Hnone.
      { clear -Hproto. induction l as [|q l IH]; intros result Hr; [done|].
        cbn [fold_left]. apply IH. destruct (negb _) eqn:Hq; [|done].
        unfold assignProperty. destruct (strEq _ _); [done|].
        destruct (decide (KeyValuePair.key q = name)) as [Hk|Hk];
          [|by rewrite lookup_insert_ne].
        apply negb_true_iff in Hq. unfold inObject in Hq.
        apply orb_false_iff in Hq as [_ Hq]. rewrite Hk in Hq.
        by rewrite bool_decide_eq_true_2 in Hq. }
      by rewrite Hnone in Hjson.
    + intros Hentry. rewrite Forall_forall in Hfree. by destruct (Hfree _ Hentry).
  - rewrite toJSON_original by done. rewrite lookup_empty. split.
    + destruct (List.find _ pairs) as [pair|] eqn:Hfind; [|done].
      apply find_name_Some in Hfind as [Hpair <-]. intros [= <-]. by apply Hin.
    + intros Hentry. destruct (List.find _ pairs) as [pair|] eqn:Hfind.
      * apply find_name_Some in Hfind as [Hpair Hk].
        assert (pair = KeyValuePair.mk name value) as ->; [|done].
        apply (NoDup_names_eq KeyValuePair.key pairs); [by rewrite Hkeys|done| |done].
        apply (Hin' (name, value) Hentry).
      * exfalso. pose proof (proj1 (find_name_None _ _ _) Hfind) as Hnone.
        by apply (Hnone (KeyValuePair.mk name value)); [apply (Hin' (name, value))|].
Qed.

(** A record of two entries. *)
Lemma record_constructor_round_trip_witness :
  exists σ' this json,
    CookieMap.new (Some (InputRecord [(str "session", str "abc"); (str "lang", str "en")]))
      Store.empty = (σ', Ok this)
    /\ snd (CookieMap.entries this σ')
       = Ok [(str "session", str "abc"); (str "lang", str "en")]
    /\ snd (CookieMap.toJSON this σ') = Ok json
    /\ forall name value,
         json !! name = Some value
         <-> (name, value) ∈ [(str "session", str "abc"); (str "lang", str "en")].
Proof.
  apply record_constructor_round_trip.
  - apply wellFormed_empty.
  - apply (bool_decide_unpack _). vm_compute. exact I.
  - repeat (apply Forall_cons; split;
            [apply (bool_decide_unpack _); vm_compute; exact I|]).
    apply List.Forall_nil.
Defined.

(** ** Expiry *)

(** X22. [isExpired] agrees with [hasExpiry]: a cookie is expired at a
    time exactly when it has an expiry and the time is after it.  So a
    cookie whose [expires] is [-1], below 1 or [NaN] never expires, and
    the marker that [delete] records, whose [expires] is 1, is expired at
    every later time. *)
Theorem isExpired_iff_hasExpiry_and_past `{Engine} (cookie : Cookie.t) (currentTime : Z) :
  (Cookie.isExpired cookie currentTime = true
   <-> Cookie.hasExpiry cookie = true
       /\ exists expires, Cookie.expires cookie = Num expires
                          /\ (expires < currentTime)%Z)
  /\ (forall name domain path marker,
        Cookie.create (CookieMap.deleteOptions name domain path) = Ok marker ->
        Cookie.isExpired marker currentTime = bool_decide (1 < currentTime)%Z).
Proof.
  split.
  - unfold Cookie.isExpired, Cookie.hasExpiry, Cookie.EMPTY_EXPIRES_VALUE, gtNum.
    destruct (Cookie.expires cookie) as [|x]; cbn [strictEqNum ltNum geNum].
    { cbn. split; [done|]. by intros [? _]. }
    destruct (Z.eqb_spec x (-1)), (Z.ltb_spec x 1), (Z.leb_spec 1 x),
      (Z.ltb_spec x currentTime); cbn [negb orb andb]; try lia;
      (split; [first [done | intros _; split; [done|]; by exists x]|]);
      first [done | intros [? (y & [= <-] & ?)]; done || lia].
  - intros name domain path marker Hmarker.
    assert (Cookie.expires marker = Num 1) as Hex.
    { unfold Cookie.create, Cookie.new in Hmarker. repeat case_match; try done.
      by injection Hmarker as <-. }
    unfold Cookie.isExpired. rewrite Hex. cbn.
    destruct (Z.ltb_spec 1 currentTime).
    + by rewrite bool_decide_eq_true_2.
    + by rewrite bool_decide_eq_false_2 by lia.
Qed.
